(** * scatlib: scattering data fields and Gauss-Legendre quadrature

    A shallow embedding of [scatlib/integration.h] (the Gauss-Legendre
    quadrature) and of the scattering data fields
    ([ScatteringDataFieldBase], [ScatteringDataFieldGridded],
    [ScatteringDataFieldSpectral], [ScatteringDataFieldFullySpectral]),
    with the properties of the design document stated and proved over it. *)

From Stdlib Require Import ZArith QArith Qabs Qcanon Floats Lia.
From stdpp Require Import base list gmap.

(** ** Scalars

    The C++ classes are templates over [Scalar] ([float], [double],
    [long double]).  The operations the code applies to scalars are
    collected in a class; the algorithms below are written once over it, as
    the templates are.  [s_of_Z] is the implicit conversion of an integer
    to [Scalar]; [s_cos] and [s_sqrt] stand for [cos] and [sqrt] of
    [<cmath>], [s_pi] for [M_PI] and [s_precision] for the constant
    [detail::Precision<Scalar>::value]. *)

Class ScalarOps (Scalar : Type) := {
  s_zero : Scalar;
  s_one : Scalar;
  s_half : Scalar;
  s_add : Scalar → Scalar → Scalar;
  s_sub : Scalar → Scalar → Scalar;
  s_mul : Scalar → Scalar → Scalar;
  s_div : Scalar → Scalar → Scalar;
  s_neg : Scalar → Scalar;
  s_abs : Scalar → Scalar;
  s_lt : Scalar → Scalar → bool;
  s_ne : Scalar → Scalar → bool;
  s_of_Z : Z → Scalar;
  s_cos : Scalar → Scalar;
  s_sqrt : Scalar → Scalar;
  s_pi : Scalar;
  s_precision : Scalar
}.

Declare Scope scalar_scope.
Delimit Scope scalar_scope with sc.
Notation "x + y" := (s_add x y) : scalar_scope.
Notation "x - y" := (s_sub x y) : scalar_scope.
Notation "x * y" := (s_mul x y) : scalar_scope.
Notation "x / y" := (s_div x y) : scalar_scope.
Notation "- x" := (s_neg x) : scalar_scope.

(** [detail::Precision<Scalar>]: the type trait with the desired precision
    per scalar type: the primary template and its two specialisations. *)

Inductive ScalarKind := Float | Double | LongDouble.

Definition Precision (k : ScalarKind) : Q :=
  match k with
  | Float => 1 # 10 ^ 6
  | LongDouble => 1 # 10 ^ 19
  | Double => 1 # 10 ^ 16
  end.

(** ** Gauss-Legendre quadrature ([scatlib/integration.h]) *)

Module GaussLegendre.
Section Quadrature.
Context {Scalar : Type} `{ScalarOps Scalar}.
Local Open Scope scalar_scope.

(** The constant [n_max_iter] of [calculate_nodes_and_weights]. *)
Definition n_max_iter : nat := 10.

(** The Legendre recurrence, [for (int l = 2; l <= n; ++l)].  The loop
    state is the pair [(p_l, p_l_1)]; [p_l_2] is assigned before it is
    read in every pass. *)
Definition legendre_step (x : Scalar) (st : Scalar * Scalar) (l : nat)
  : Scalar * Scalar :=
  let '(p_l, p_l_1) := st in
  let p_l_2 := p_l_1 in
  let p_l_1 := p_l in
  let lS := s_of_Z (Z.of_nat l) in
  (((s_of_Z 2 * lS - s_one) * x * p_l_1 - (lS - s_one) * p_l_2) / lS,
   p_l_1).

Definition legendre (n : nat) (x : Scalar) : Scalar * Scalar :=
  foldl (legendre_step x) (x, s_one) (seq 2 (n - 1)%nat).

(** The state of the Newton loop when it is left: the node [x], the
    last [dp_dx], and the number of passes through the loop body. *)
Record NewtonResult := {
  nr_x : Scalar;
  nr_dp_dx : Scalar;
  nr_iterations : nat
}.

(** [for (int j = 0; j < n_max_iter; ++j) { ... if (dx < threshold) break; }]
    with [remaining = n_max_iter - j]. *)
Fixpoint newton_loop (n remaining : nat) (x dp_dx : Scalar) (done : nat)
  : NewtonResult :=
  match remaining with
  | O => {| nr_x := x; nr_dp_dx := dp_dx; nr_iterations := done |}
  | S remaining' =>
      let '(p_l, p_l_1) := legendre n x in
      let dp_dx := ((s_one - x) * (s_one + x))
                   / (s_of_Z (Z.of_nat n) * (p_l_1 - x * p_l)) in
      let x_old := x in
      let x := x - p_l * dp_dx in
      let dx := s_abs (x - x_old) in
      let threshold := s_half * (x + x_old) in
      if s_lt dx threshold
      then {| nr_x := x; nr_dp_dx := dp_dx; nr_iterations := S done |}
      else newton_loop n remaining' x dp_dx (S done)
  end.

(** The initial guess of the [i]-th node. *)
Definition initial_guess (n i : nat) : Scalar :=
  let p_l := s_pi in
  let p_l_1 := s_of_Z (2 * Z.of_nat n) in
  (- (s_one - s_of_Z (Z.of_nat n - 1) / (p_l_1 * p_l_1 * p_l_1)))
  * s_cos ((p_l * s_of_Z (4 * Z.of_nat i - 1)) / s_of_Z (4 * Z.of_nat n + 2)).

(** The Newton iteration of the [i]-th node, from its initial guess.
    [dp_dx] has no value before the first pass; the loop body assigns it
    before reading it. *)
Definition find_node (n i : nat) : NewtonResult :=
  newton_loop n n_max_iter (initial_guess n i) s_zero 0.

Definition node_x (n i : nat) : Scalar := nr_x (find_node n i).

Definition node_weight (n i : nat) : Scalar :=
  let r := find_node n i in
  s_of_Z 2 * nr_dp_dx r * nr_dp_dx r
  / ((s_one - nr_x r) * (s_one + nr_x r)).

(** One pass of the outer loop, [for (int i = 1; i <= n_half_nodes; ++i)]:
    the four assignments into [nodes_] and [weights_].  The last one
    reads [weights_[i - 1]] back. *)
Definition outer_step (n : nat) (st : list Scalar * list Scalar) (i : nat)
  : list Scalar * list Scalar :=
  let '(nodes_, weights_) := st in
  let nodes_ := <[(i - 1)%nat := node_x n i]> nodes_ in
  let weights_ := <[(i - 1)%nat := node_weight n i]> weights_ in
  let nodes_ := <[(n - i)%nat := - node_x n i]> nodes_ in
  let weights_ :=
    <[(n - i)%nat := default s_zero (weights_ !! (i - 1)%nat)]> weights_ in
  (nodes_, weights_).

Definition calculate_nodes_and_weights (degree_ : nat)
    (nodes_ weights_ : list Scalar) : list Scalar * list Scalar :=
  let n := degree_ in
  let n_half_nodes := ((n + 1) / 2)%nat in
  let precision := s_precision in
  foldl (outer_step n) (nodes_, weights_) (seq 1 n_half_nodes).

(** The constructor: [nodes_(degree)], [weights_(degree)], then
    [calculate_nodes_and_weights()].  The entries of a fresh vector are
    not specified by Eigen; every one of them is overwritten. *)
Definition GaussLegendreQuadrature (degree : nat)
  : list Scalar * list Scalar :=
  calculate_nodes_and_weights degree
    (replicate degree s_zero) (replicate degree s_zero).

Definition get_nodes (degree : nat) : list Scalar :=
  (GaussLegendreQuadrature degree).1.
Definition get_weights (degree : nat) : list Scalar :=
  (GaussLegendreQuadrature degree).2.

End Quadrature.
End GaussLegendre.

(** ** Two scalar types

    [double] is the type the library is instantiated at
    ([pxx :: instance(["double"])]): IEEE binary64, which is the kernel's
    [float].  [cos] belongs to the C library; a Taylor polynomial in
    Horner form stands in for it on the range the quadrature uses
    (arguments in (0, pi/2]). *)

Module DoubleScalar.
Local Open Scope float_scope.

Definition of_Z (z : Z) : float :=
  match z with
  | Z0 => 0
  | Zpos _ => PrimFloat.of_uint63 (Uint63.of_Z z)
  | Zneg _ => - PrimFloat.of_uint63 (Uint63.of_Z (Z.opp z))
  end.

Definition cos_terms : list Z :=
  [26; 24; 22; 20; 18; 16; 14; 12; 10; 8; 6; 4; 2]%Z.

Definition cos (x : float) : float :=
  let x2 := x * x in
  foldl (fun acc k => 1 - x2 / (of_Z k * of_Z (k - 1)%Z) * acc) 1 cos_terms.

#[export] Instance ops : ScalarOps float := {|
  s_zero := 0;
  s_one := 1;
  s_half := 0.5;
  s_add := PrimFloat.add;
  s_sub := PrimFloat.sub;
  s_mul := PrimFloat.mul;
  s_div := PrimFloat.div;
  s_neg := PrimFloat.opp;
  s_abs := PrimFloat.abs;
  s_lt := PrimFloat.ltb;
  s_ne := fun x y => negb (PrimFloat.eqb x y);
  s_of_Z := of_Z;
  s_cos := cos;
  s_sqrt := PrimFloat.sqrt;
  s_pi := 0x1.921fb54442d18p+1;
  s_precision := 0x1.cd2b297d889bcp-54
|}.
End DoubleScalar.

(** The rationals in canonical form: exact arithmetic with Leibniz
    equality.  [cos] and [sqrt] have no rational values in general; a
    Taylor polynomial and three Heron steps stand in for them. *)

Module ExactScalar.
Local Open Scope Qc_scope.

Definition of_Z (z : Z) : Qc := Q2Qc (inject_Z z).

Definition abs (x : Qc) : Qc := Q2Qc (Qabs x).

Definition ltb (x y : Qc) : bool := bool_decide (Qclt x y).

Definition neb (x y : Qc) : bool := negb (Qc_eq_bool x y).

Definition cos (x : Qc) : Qc :=
  let x2 := x * x in
  foldl (fun acc k => 1 - x2 / (of_Z k * of_Z (k - 1)%Z) * acc) 1
    [6; 4; 2]%Z.

Definition sqrt (x : Qc) : Qc :=
  foldl (fun r _ => (r + x / r) / of_Z 2) (1 + x / of_Z 2) (seq 0 3).

#[export] Instance ops : ScalarOps Qc := {|
  s_zero := 0;
  s_one := 1;
  s_half := Q2Qc (1 # 2);
  s_add := Qcplus;
  s_sub := Qcminus;
  s_mul := Qcmult;
  s_div := Qcdiv;
  s_neg := Qcopp;
  s_abs := abs;
  s_lt := ltb;
  s_ne := neb;
  s_of_Z := of_Z;
  s_cos := cos;
  s_sqrt := sqrt;
  s_pi := Q2Qc (355 # 113);
  s_precision := Q2Qc (Precision Double)
|}.
End ExactScalar.

(** ** Dense tensors

    [eigen::Tensor<Scalar, rank>]: the dimensions and one coefficient per
    coordinate.  [scattering/eigen.h] is not among the sources; its views
    ([get_submatrix], [get_subvector], [tensor_index]), its
    [DimensionCounter] and [copy] are modelled by the coordinates they
    read and write. *)

Record Tensor (A : Type) := mkTensor {
  dimensions : list nat;
  coeff : list nat → A
}.
Arguments mkTensor {A} _ _.
Arguments dimensions {A} _.
Arguments coeff {A} _ _.

Definition dimension {A} (t : Tensor A) (k : nat) : nat :=
  default 0 (dimensions t !! k).

(** A coordinate lies within the dimensions. *)
Definition in_bounds (dims idx : list nat) : Prop := Forall2 lt idx dims.

#[export] Instance in_bounds_dec dims idx : Decision (in_bounds dims idx).
Proof. unfold in_bounds. apply _. Defined.

(** Modelled from the spec: the constructor of a tensor from its
    dimensions ([eigen.h] and Eigen are not among the sources): "empty
    (pre-sized, zero-filled)". *)
Definition Tensor_new {A} (zero : A) (dims : list nat) : Tensor A :=
  mkTensor dims (λ _, zero).

(** [setZero()]. *)
Definition setZero {A} (zero : A) (t : Tensor A) : Tensor A :=
  mkTensor (dimensions t) (λ _, zero).

(** [coeffRef(coordinates) = x]. *)
Definition set_coeff {A} (t : Tensor A) (i : list nat) (x : A) : Tensor A :=
  mkTensor (dimensions t) (λ idx, if decide (idx = i) then x else coeff t idx).

(** [eigen::DimensionCounter<rank>{dimensions}]: every coordinate below
    the dimensions, once, the last axis running fastest. *)
Fixpoint DimensionCounter (dims : list nat) : list (list nat) :=
  match dims with
  | [] => [[]]
  | d :: dims' =>
      i ← seq 0 d; (λ idx, i :: idx) <$> DimensionCounter dims'
  end.

(** The coordinate of a tensor at outer coordinate [i], with the axes [m]
    and [m + 1] at [p] and [q]. *)
Definition splice2 (m : nat) (i : list nat) (p q : nat) : list nat :=
  take m i ++ p :: q :: drop m i.

Definition splice1 (m : nat) (i : list nat) (p : nat) : list nat :=
  take m i ++ p :: drop m i.

(** A view over the axes [m], [m + 1] at outer coordinate [i] covers the
    coordinate [idx]. *)
Definition covers2 (m : nat) (dims i idx : list nat) : Prop :=
  m ≤ length i ∧ length idx = S (S (length i)) ∧
  take m idx ++ drop (S (S m)) idx = i ∧
  default 0 (idx !! m) < default 0 (dims !! m) ∧
  default 0 (idx !! S m) < default 0 (dims !! S m).

Definition covers1 (m : nat) (dims i idx : list nat) : Prop :=
  m ≤ length i ∧ length idx = S (length i) ∧
  take m idx ++ drop (S m) idx = i ∧
  default 0 (idx !! m) < default 0 (dims !! m).

#[export] Instance covers2_dec m dims i idx : Decision (covers2 m dims i idx).
Proof. unfold covers2. apply _. Defined.

#[export] Instance covers1_dec m dims i idx : Decision (covers1 m dims i idx).
Proof. unfold covers1. apply _. Defined.

(** [eigen::get_submatrix<m, m + 1>(t, i)], read as a matrix: one row per
    index of axis [m]. *)
Definition get_submatrix {A} (m : nat) (t : Tensor A) (i : list nat)
  : list (list A) :=
  (λ p, (λ q, coeff t (splice2 m i p q)) <$> seq 0 (dimension t (S m)))
    <$> seq 0 (dimension t m).

(** [eigen::get_subvector<m>(t, i)], read as a vector. *)
Definition get_subvector {A} (m : nat) (t : Tensor A) (i : list nat) : list A :=
  (λ p, coeff t (splice1 m i p)) <$> seq 0 (dimension t m).

(** A coefficient-wise update through the view
    [get_submatrix<m, m + 1>(t, i)], as [matrix *= c] is. *)
Definition update_submatrix {A} (m : nat) (t : Tensor A) (i : list nat)
    (f : A → A) : Tensor A :=
  mkTensor (dimensions t)
    (λ idx, if decide (covers2 m (dimensions t) i idx)
            then f (coeff t idx) else coeff t idx).

(** Assignment of a vector to the view [get_subvector<m>(t, i)]. *)
Definition set_subvector {A} (m : nat) (t : Tensor A) (i : list nat)
    (v : list A) : Tensor A :=
  mkTensor (dimensions t)
    (λ idx, if decide (covers1 m (dimensions t) i idx)
            then default (coeff t idx) (v !! default 0 (idx !! m))
            else coeff t idx).

(** [eigen::tensor_index(t, pre)]: the sub-tensor at the leading
    coordinates [pre]. *)
Definition tensor_index {A} (t : Tensor A) (pre : list nat) : Tensor A :=
  mkTensor (drop (length pre) (dimensions t)) (λ idx, coeff t (pre ++ idx)).

(** [t.chip<k>(j)]: the axis [k] fixed at [j]. *)
Definition chip {A} (k j : nat) (t : Tensor A) : Tensor A :=
  mkTensor (delete k (dimensions t)) (λ idx, coeff t (splice1 k idx j)).

Definition tensor_map {A B} (f : A → B) (t : Tensor A) : Tensor B :=
  mkTensor (dimensions t) (λ idx, f (coeff t idx)).

(** Modelled from the spec: [eigen::copy(dest, source)] ([eigen.h] is not
    among the sources): "resize-with-zero-fill", "shrinking truncates,
    preserving the matching prefix": the coordinates that lie within both
    tensors are copied, the others keep the fill of [dest]. *)
Definition eigen_copy {A} (dest source : Tensor A) : Tensor A :=
  mkTensor (dimensions dest)
    (λ idx, if decide (in_bounds (dimensions source) idx)
            then coeff source idx else coeff dest idx).

(** Errors ("dimension mismatch", "out-of-range interpolation target"),
    and a pointer that names no object. *)
Inductive Error := DimensionMismatch | OutOfRange | NullPointer.

Inductive result (A : Type) :=
| Ok (a : A)
| Err (e : Error).
Arguments Ok {A} _.
Arguments Err {A} _.

(** Modelled from the spec: assignment between tensor expressions
    (Eigen's [operator=] on the maps [tensor_index] returns; not among
    the sources): a "dimension mismatch" is "fatal, surfaced immediately,
    never silently truncated". *)
Definition assign_tensor_index {A} (t : Tensor A) (pre : list nat)
    (src : Tensor A) : result (Tensor A) :=
  if decide (dimensions (tensor_index t pre) = dimensions src)
  then Ok (mkTensor (dimensions t)
             (λ idx, if decide (take (length pre) idx = pre)
                     then coeff src (drop (length pre) idx)
                     else coeff t idx))
  else Err DimensionMismatch.

(** Modelled from the spec: the coefficient-wise [+=] of two tensors
    (Eigen; not among the sources), with the same dimension check. *)
Definition tensor_add_assign {A} (add : A → A → A) (t other : Tensor A)
  : result (Tensor A) :=
  if decide (dimensions t = dimensions other)
  then Ok (mkTensor (dimensions t) (λ idx, add (coeff t idx) (coeff other idx)))
  else Err DimensionMismatch.

(** Assignment of a matrix to the view [get_submatrix<m, m + 1>(t, i)]. *)
Definition set_submatrix {A} (m : nat) (t : Tensor A) (i : list nat)
    (M : list (list A)) : Tensor A :=
  mkTensor (dimensions t)
    (λ idx, if decide (covers2 m (dimensions t) i idx)
            then match M !! default 0 (idx !! m) with
                 | Some row => default (coeff t idx) (row !! default 0 (idx !! S m))
                 | None => coeff t idx
                 end
            else coeff t idx).

(** ** The spherical-harmonics transform object ([sht::SHT])

    [sht.h] is not among the sources.  Of an [SHT] the fields use the
    truncation, the sizes of its angular grid and the number of spectral
    coefficients. *)

Record SHT := mkSHT {
  l_max : nat;
  m_max : nat;
  n_lon : nat;
  n_lat : nat
}.

Definition get_n_longitudes (sht : SHT) : nat := n_lon sht.
Definition get_n_latitudes (sht : SHT) : nat := n_lat sht.

(** Modelled from the spec: the coefficients of a truncation ([sht.h] is
    not among the sources): "the (max degree, max order) pair bounding a
    harmonics expansion; determines coefficient count".  The coefficient
    of degree [l] and order [m] is present when [m <= m_max] and
    [m <= l <= l_max]; the vector lists them order by order. *)
Definition lm_list (sht : SHT) : list (nat * nat) :=
  m ← seq 0 (S (m_max sht)); (λ l, (l, m)) <$> seq m (S (l_max sht) - m).

Definition get_n_spectral_coeffs (sht : SHT) : nat := length (lm_list sht).

(** The position of the coefficient [(l, m)] in the vector, when it is
    present. *)
Definition lm_index (sht : SHT) (lm : nat * nat) : option nat :=
  fst <$> list_find (λ x, x = lm) (lm_list sht).

(** Modelled from the spec: [sht::SHT::add_coeffs(sht_l, v, sht_r, w)]
    ([sht.h] is not among the sources): "coefficients present in both
    truncations are summed; coefficients present only in the higher
    truncation are copied through; no aliasing is introduced".  The sum is
    assigned to the view [v] was read from, so it has the truncation of
    [sht_l]: at the position [k] of the coefficient [(l, m)] of [sht_l] it
    is [x + y] when [sht_r] has [(l, m)], with the coefficient [y] there,
    and [x] when it has not. *)
Definition add_coeffs_at {A} (add : A → A → A) (sht_l sht_r : SHT)
    (w : list A) (k : nat) (x : A) : A :=
  match lm_list sht_l !! k with
  | Some lm =>
      match lm_index sht_r lm with
      | Some k' =>
          match w !! k' with
          | Some y => add x y
          | None => x
          end
      | None => x
      end
  | None => x
  end.

Definition add_coeffs {A} (add : A → A → A) (sht_l : SHT) (v : list A)
    (sht_r : SHT) (w : list A) : list A :=
  imap (add_coeffs_at add sht_l sht_r w) v.

(** ** What the fields take from the rest of the library

    [RegularRegridder] ([interpolation.h]) and [integrate_angles] (the
    angular-integration primitive of [integration.h]) and the
    two-transform [add_coeffs] of [sht.h] are not among the sources; the
    fields are written over them. *)

Class External (Scalar : Type) := {
  (** [RegularRegridder<Scalar, axes...>(old_grids, new_grids,
      extrapolate).regrid(t)], on real and on complex tensors. *)
  RegularRegridder :
    list nat → list (list Scalar) → list (list Scalar) → bool →
    Tensor Scalar → result (Tensor Scalar);
  RegularRegridder_cmplx :
    list nat → list (list Scalar) → list (list Scalar) → bool →
    Tensor (Scalar * Scalar) → result (Tensor (Scalar * Scalar));
  (** The value of the [extrapolate] argument of the regridder's
      constructor where a call leaves it out: its default is declared in
      [interpolation.h]. *)
  extrapolate_default : bool;
  (** [integrate_angles<Scalar>(matrix, longitudes, colatitudes)]. *)
  integrate_angles :
    list (list Scalar) → list Scalar → list Scalar → Scalar;
  (** [SHT::add_coeffs(sht_inc_l, sht_scat_l, m_l, sht_inc_r, sht_scat_r,
      m_r)]. *)
  add_coeffs_2d :
    SHT → SHT → list (list (Scalar * Scalar)) →
    SHT → SHT → list (list (Scalar * Scalar)) → list (list (Scalar * Scalar))
}.

(** ** Particle type ([ScatteringDataFieldBase]) *)

Inductive DataFormat := Gridded | Spectral | FullySpectral.
Inductive ParticleType := Random | AzimuthallyRandom | General.

#[export] Instance ParticleType_eq_dec : EqDecision ParticleType.
Proof. solve_decision. Defined.

(** [Index] is a signed integer. *)
Definition determine_type (n_lon_inc n_lat_inc n_lon_scat n_lat_scat : Z)
  : ParticleType :=
  if bool_decide (n_lon_inc = 1%Z) && bool_decide (n_lat_inc = 1%Z)
     && bool_decide (n_lon_scat = 1%Z)
  then Random
  else if bool_decide (n_lon_inc = 1%Z) then AzimuthallyRandom
  else General.

Record ScatteringDataFieldBase := mkBase {
  n_freqs_ : nat;
  n_temps_ : nat;
  n_lon_inc_ : nat;
  n_lat_inc_ : nat;
  n_lon_scat_ : nat;
  n_lat_scat_ : nat;
  type_ : ParticleType
}.

(** The constructor of the base class. *)
Definition ScatteringDataFieldBase_new
    (n_freqs n_temps n_lon_inc n_lat_inc n_lon_scat n_lat_scat : nat)
  : ScatteringDataFieldBase :=
  mkBase n_freqs n_temps n_lon_inc n_lat_inc n_lon_scat n_lat_scat
    (determine_type (Z.of_nat n_lon_inc) (Z.of_nat n_lat_inc)
       (Z.of_nat n_lon_scat) (Z.of_nat n_lat_scat)).

Definition get_particle_type (b : ScatteringDataFieldBase) : ParticleType :=
  type_ b.

(** ** Shared objects

    Grids are held by [std::shared_ptr<const Vector>], transforms by
    [std::shared_ptr<sht::SHT>] and data tensors by
    [std::shared_ptr<DataTensor>]; several fields may hold the same
    object.  The store maps a pointer to the object it names. *)

Definition loc := positive.

Record Store (Scalar : Type) := mkStore {
  vectors : gmap loc (list Scalar);
  shts : gmap loc SHT;
  tensors : gmap loc (Tensor Scalar);
  cmplx_tensors : gmap loc (Tensor (Scalar * Scalar))
}.
Arguments mkStore {Scalar} _ _ _ _.
Arguments vectors {Scalar} _.
Arguments shts {Scalar} _.
Arguments tensors {Scalar} _.
Arguments cmplx_tensors {Scalar} _.

(** Computations on the store that may fail; the store of a failed
    computation is the one the failure was met in. *)
Definition M (Scalar A : Type) : Type := Store Scalar → result A * Store Scalar.

Definition ret {Scalar A} (a : A) : M Scalar A := λ σ, (Ok a, σ).

Definition bind {Scalar A B} (m : M Scalar A) (k : A → M Scalar B)
  : M Scalar B :=
  λ σ, match m σ with
       | (Ok a, σ') => k a σ'
       | (Err e, σ') => (Err e, σ')
       end.

Definition lift {Scalar A} (r : result A) : M Scalar A := λ σ, (r, σ).

Notation "'let*' x ':=' m 'in' k" := (bind m (λ x, k))
  (at level 10, x name, m at level 100, k at level 200).
Notation "m ';;' k" := (bind m (λ _, k))
  (at level 100, k at level 200, right associativity).

Section Memory.
Context {Scalar : Type}.

Definition from_option {A} (o : option A) : M Scalar A :=
  lift (match o with Some a => Ok a | None => Err NullPointer end).

(** [*p] for a grid, a transform and a data tensor. *)
Definition get_vector (p : loc) : M Scalar (list Scalar) :=
  λ σ, from_option (vectors σ !! p) σ.
Definition get_sht (p : loc) : M Scalar SHT :=
  λ σ, from_option (shts σ !! p) σ.
Definition get_tensor (p : loc) : M Scalar (Tensor Scalar) :=
  λ σ, from_option (tensors σ !! p) σ.
Definition get_cmplx_tensor (p : loc) : M Scalar (Tensor (Scalar * Scalar)) :=
  λ σ, from_option (cmplx_tensors σ !! p) σ.

Fixpoint get_vectors (ps : list loc) : M Scalar (list (list Scalar)) :=
  match ps with
  | [] => ret []
  | p :: ps' =>
      let* v := get_vector p in
      let* vs := get_vectors ps' in
      ret (v :: vs)
  end.

(** [*p = t]. *)
Definition put_tensor (p : loc) (t : Tensor Scalar) : M Scalar unit :=
  λ σ, (Ok tt,
        mkStore (vectors σ) (shts σ) (<[p := t]> (tensors σ))
          (cmplx_tensors σ)).
Definition put_cmplx_tensor (p : loc) (t : Tensor (Scalar * Scalar))
  : M Scalar unit :=
  λ σ, (Ok tt,
        mkStore (vectors σ) (shts σ) (tensors σ)
          (<[p := t]> (cmplx_tensors σ))).

(** [std::make_shared<DataTensor>(t)]: a pointer no object of the store
    has. *)
Definition make_shared_tensor (t : Tensor Scalar) : M Scalar loc :=
  λ σ, let p := fresh (dom (tensors σ)) in
       (Ok p,
        mkStore (vectors σ) (shts σ) (<[p := t]> (tensors σ))
          (cmplx_tensors σ)).
Definition make_shared_cmplx_tensor (t : Tensor (Scalar * Scalar))
  : M Scalar loc :=
  λ σ, let p := fresh (dom (cmplx_tensors σ)) in
       (Ok p,
        mkStore (vectors σ) (shts σ) (tensors σ)
          (<[p := t]> (cmplx_tensors σ))).

(** The end of the scope of the only holder of a data tensor. *)
Definition release_tensor (p : loc) : M Scalar unit :=
  λ σ, (Ok tt,
        mkStore (vectors σ) (shts σ) (delete p (tensors σ))
          (cmplx_tensors σ)).
Definition release_cmplx_tensor (p : loc) : M Scalar unit :=
  λ σ, (Ok tt,
        mkStore (vectors σ) (shts σ) (tensors σ)
          (delete p (cmplx_tensors σ))).
End Memory.

(** ** Gridded format ([ScatteringDataFieldGridded]) *)

Record ScatteringDataFieldGridded := mkGridded {
  g_base : ScatteringDataFieldBase;
  g_f_grid_ : loc;
  g_t_grid_ : loc;
  g_lon_inc_ : loc;
  g_lat_inc_ : loc;
  g_lon_scat_ : loc;
  g_lat_scat_ : loc;
  g_data_ : loc
}.

Module FieldGridded.
Section Methods.
Context {Scalar : Type} `{ScalarOps Scalar} `{External Scalar}.
Local Open Scope scalar_scope.

Abbreviation Field := ScatteringDataFieldGridded.

Definition coeff_dim : nat := 6.
Definition rank : nat := 7.

(** The constructor from shared pointers; the sizes of the base class
    are the sizes of the grids. *)
Definition new (f_grid t_grid lon_inc lat_inc lon_scat lat_scat : loc)
    (data : loc) : M Scalar Field :=
  let* f := get_vector f_grid in
  let* t := get_vector t_grid in
  let* li := get_vector lon_inc in
  let* la := get_vector lat_inc in
  let* lo := get_vector lon_scat in
  let* ls := get_vector lat_scat in
  ret (mkGridded
         (ScatteringDataFieldBase_new (length f) (length t) (length li)
            (length la) (length lo) (length ls))
         f_grid t_grid lon_inc lat_inc lon_scat lat_scat data).

Definition get_data_format (self : Field) : DataFormat := Gridded.

Definition get_n_coeffs (self : Field) : M Scalar nat :=
  let* data := get_tensor (g_data_ self) in
  ret (dimension data 6).

(** [set_data(frequency_index, temperature_index, other)]. *)
Definition set_data (self : Field) (frequency_index temperature_index : nat)
    (other : Field) : M Scalar unit :=
  let* others := get_vectors [g_lon_inc_ other; g_lat_inc_ other;
                              g_lon_scat_ other; g_lat_scat_ other] in
  let* own := get_vectors [g_lon_inc_ self; g_lat_inc_ self;
                           g_lon_scat_ self; g_lat_scat_ self] in
  let* other_data := get_tensor (g_data_ other) in
  let* regridded :=
    lift (RegularRegridder [2; 3; 4; 5] others own
      extrapolate_default other_data) in
  let data_index := [frequency_index; temperature_index] in
  let input_index := [0; 0] in
  let* data := get_tensor (g_data_ self) in
  let* data' :=
    lift (assign_tensor_index data data_index
            (tensor_index regridded input_index)) in
  put_tensor (g_data_ self) data'.

(** [regrid(f_grid, t_grid, lon_inc, lat_inc, lon_scat, lat_scat)]: a
    new field that holds the given grids and a new data tensor. *)
Definition regrid (self : Field)
    (f_grid t_grid lon_inc lat_inc lon_scat lat_scat : loc)
  : M Scalar Field :=
  let* olds := get_vectors [g_f_grid_ self; g_t_grid_ self; g_lon_inc_ self;
                            g_lat_inc_ self; g_lon_scat_ self;
                            g_lat_scat_ self] in
  let* news := get_vectors [f_grid; t_grid; lon_inc; lat_inc; lon_scat;
                            lat_scat] in
  let* data := get_tensor (g_data_ self) in
  let* data_interp :=
    lift (RegularRegridder [0; 1; 2; 3; 4; 5] olds news
      extrapolate_default data) in
  let* data_new := make_shared_tensor data_interp in
  new f_grid t_grid lon_inc lat_inc lon_scat lat_scat data_new.

(** [integrate_scattering_angles()]. *)
Definition integrate_scattering_angles (self : Field)
  : M Scalar (Tensor Scalar) :=
  let* data := get_tensor (g_data_ self) in
  let b := g_base self in
  let dimensions := [n_freqs_ b; n_temps_ b; n_lon_inc_ b; n_lat_inc_ b;
                     dimension data 6] in
  let result := Tensor_new s_zero dimensions in
  let* lat_scat := get_vector (g_lat_scat_ self) in
  let colatitudes := (λ x, - s_cos x) <$> lat_scat in
  let* lon_scat := get_vector (g_lon_scat_ self) in
  ret (foldl
         (λ result i,
            let matrix := get_submatrix 4 data i in
            set_coeff result i (integrate_angles matrix lon_scat colatitudes))
         result (DimensionCounter dimensions)).

(** The two loops of [normalize], on the data tensor. *)
Definition normalize_loop (value : Scalar) (integrals : Tensor Scalar)
    (dimensions : list nat) (data : Tensor Scalar) : Tensor Scalar :=
  foldl
    (λ data i,
       foldl
         (λ data j,
            let matrix_coords := i ++ [j] in
            let integral := coeff integrals (i ++ [0]) in
            if s_ne integral s_zero
            then update_submatrix 4 data matrix_coords
                   (λ x, x * (value / integral))
            else data)
         data (seq 0 (dimension data 6)))
    data (DimensionCounter dimensions).

(** [normalize(value)]. *)
Definition normalize (self : Field) (value : Scalar) : M Scalar unit :=
  let* integrals := integrate_scattering_angles self in
  let b := g_base self in
  let dimensions := [n_freqs_ b; n_temps_ b; n_lon_inc_ b; n_lat_inc_ b] in
  let* data := get_tensor (g_data_ self) in
  put_tensor (g_data_ self) (normalize_loop value integrals dimensions data).

(** [operator+=(other)].  The field [regridded] and the tensor it alone
    holds end with the call. *)
Definition add_assign (self other : Field) : M Scalar Field :=
  let* regridded :=
    regrid other (g_f_grid_ self) (g_t_grid_ self) (g_lon_inc_ self)
      (g_lat_inc_ self) (g_lon_scat_ self) (g_lat_scat_ self) in
  let* regridded_data := get_tensor (g_data_ regridded) in
  let* data := get_tensor (g_data_ self) in
  let* data' := lift (tensor_add_assign s_add data regridded_data) in
  put_tensor (g_data_ self) data';;
  release_tensor (g_data_ regridded);;
  ret self.

(** [operator*=(c)]. *)
Definition mul_assign (self : Field) (c : Scalar) : M Scalar Field :=
  let* data := get_tensor (g_data_ self) in
  put_tensor (g_data_ self) (tensor_map (λ x, c * x) data);;
  ret self.

(** [set_number_of_scattering_coeffs(n)]; the field after the call is
    returned. *)
Definition set_number_of_scattering_coeffs (self : Field) (n : nat)
  : M Scalar Field :=
  let* data := get_tensor (g_data_ self) in
  let current_stokes_dim := dimension data 6 in
  if decide (current_stokes_dim = n) then ret self
  else
    let new_dimensions := <[6 := n]> (dimensions data) in
    let* data_new := make_shared_tensor (Tensor_new s_zero new_dimensions) in
    let* dest := get_tensor data_new in
    put_tensor data_new (eigen_copy dest data);;
    ret (mkGridded (g_base self) (g_f_grid_ self) (g_t_grid_ self)
           (g_lon_inc_ self) (g_lat_inc_ self) (g_lon_scat_ self)
           (g_lat_scat_ self) data_new).

(** [copy()]: a deep copy of the data; the grids are shared. *)
Definition copy (self : Field) : M Scalar Field :=
  let* data := get_tensor (g_data_ self) in
  let* data_new := make_shared_tensor data in
  new (g_f_grid_ self) (g_t_grid_ self) (g_lon_inc_ self) (g_lat_inc_ self)
    (g_lon_scat_ self) (g_lat_scat_ self) data_new.

(** [operator*(c)]: [copy()], then [*=] on the copy. *)
Definition mul (self : Field) (c : Scalar) : M Scalar Field :=
  let* result := copy self in
  mul_assign result c;;
  ret result.

(** [operator+(other)]: [copy()], then [+=] on the copy. *)
Definition add (self other : Field) : M Scalar Field :=
  let* result := copy self in
  add_assign result other;;
  ret result.

(** [interpolate_frequency(frequencies)], with the new grid given by a
    shared pointer. *)
Definition interpolate_frequency (self : Field) (frequencies : loc)
  : M Scalar Field :=
  let* f_grid := get_vector (g_f_grid_ self) in
  let* freqs := get_vector frequencies in
  let* data := get_tensor (g_data_ self) in
  let dimensions_new := dimensions data in
  let* data_interp :=
    lift (RegularRegridder [0] [f_grid] [freqs] extrapolate_default data) in
  let dimensions_new := <[0 := length freqs]> dimensions_new in
  let* data_new := make_shared_tensor data_interp in
  new frequencies (g_t_grid_ self) (g_lon_inc_ self) (g_lat_inc_ self)
    (g_lon_scat_ self) (g_lat_scat_ self) data_new.

(** [interpolate_temperature(temperatures, extrapolate)]. *)
Definition interpolate_temperature (self : Field) (temperatures : loc)
    (extrapolate : bool) : M Scalar Field :=
  let* t_grid := get_vector (g_t_grid_ self) in
  let* temps := get_vector temperatures in
  let* data := get_tensor (g_data_ self) in
  let dimensions_new := dimensions data in
  let* data_interp :=
    lift (RegularRegridder [1] [t_grid] [temps] extrapolate data) in
  let dimensions_new := <[1 := length temps]> dimensions_new in
  let* data_new := make_shared_tensor data_interp in
  new (g_f_grid_ self) temperatures (g_lon_inc_ self) (g_lat_inc_ self)
    (g_lon_scat_ self) (g_lat_scat_ self) data_new.

(** [interpolate_angles(lon_inc_new, lat_inc_new, lon_scat_new,
    lat_scat_new)]. *)
Definition interpolate_angles (self : Field)
    (lon_inc_new lat_inc_new lon_scat_new lat_scat_new : loc)
  : M Scalar Field :=
  let* olds := get_vectors [g_lon_inc_ self; g_lat_inc_ self;
                            g_lon_scat_ self; g_lat_scat_ self] in
  let* news := get_vectors [lon_inc_new; lat_inc_new; lon_scat_new;
                            lat_scat_new] in
  let* data := get_tensor (g_data_ self) in
  let* data_interp :=
    lift (RegularRegridder [2; 3; 4; 5] olds news extrapolate_default data) in
  let* data_new := make_shared_tensor data_interp in
  new (g_f_grid_ self) (g_t_grid_ self) lon_inc_new lat_inc_new lon_scat_new
    lat_scat_new data_new.

(** [get_data()]. *)
Definition get_data (self : Field) : M Scalar (Tensor Scalar) :=
  get_tensor (g_data_ self).

End Methods.
End FieldGridded.

(** ** Spectral format ([ScatteringDataFieldSpectral]) *)

Record ScatteringDataFieldSpectral := mkSpectral {
  s_base : ScatteringDataFieldBase;
  s_f_grid_ : loc;
  s_t_grid_ : loc;
  s_lon_inc_ : loc;
  s_lat_inc_ : loc;
  s_sht_scat_ : loc;
  s_data_ : loc
}.

Section Complex.
Context {Scalar : Type} `{ScalarOps Scalar}.
Local Open Scope scalar_scope.

(** [std::complex<Scalar>]. *)
Definition c_zero : Scalar * Scalar := (s_zero, s_zero).
Definition c_add (x y : Scalar * Scalar) : Scalar * Scalar :=
  (x.1 + y.1, x.2 + y.2).
Definition c_real (x : Scalar * Scalar) : Scalar := x.1.
(** [c * z] and [z * c] for a real [c]. *)
Definition c_scale_l (c : Scalar) (z : Scalar * Scalar) : Scalar * Scalar :=
  (c * z.1, c * z.2).
Definition c_scale_r (z : Scalar * Scalar) (c : Scalar) : Scalar * Scalar :=
  (z.1 * c, z.2 * c).
End Complex.

Module FieldSpectral.
Section Methods.
Context {Scalar : Type} `{ScalarOps Scalar} `{External Scalar}.
Local Open Scope scalar_scope.

Abbreviation Field := ScatteringDataFieldSpectral.

Definition coeff_dim : nat := 5.
Definition rank : nat := 6.

(** The constructor from shared pointers; the sizes of the scattering
    grids are those of the transform. *)
Definition new (f_grid t_grid lon_inc lat_inc : loc) (sht_scat : loc)
    (data : loc) : M Scalar Field :=
  let* f := get_vector f_grid in
  let* t := get_vector t_grid in
  let* li := get_vector lon_inc in
  let* la := get_vector lat_inc in
  let* sht := get_sht sht_scat in
  ret (mkSpectral
         (ScatteringDataFieldBase_new (length f) (length t) (length li)
            (length la) (get_n_longitudes sht) (get_n_latitudes sht))
         f_grid t_grid lon_inc lat_inc sht_scat data).

Definition get_data_format (self : Field) : DataFormat := Spectral.

(** [regrid(f_grid, t_grid, lon_inc, lat_inc)]. *)
Definition regrid (self : Field) (f_grid t_grid lon_inc lat_inc : loc)
  : M Scalar Field :=
  let* olds := get_vectors [s_f_grid_ self; s_t_grid_ self; s_lon_inc_ self;
                            s_lat_inc_ self] in
  let* news := get_vectors [f_grid; t_grid; lon_inc; lat_inc] in
  let* data := get_cmplx_tensor (s_data_ self) in
  let* data_interp :=
    lift (RegularRegridder_cmplx [0; 1; 2; 3] olds news
      extrapolate_default data) in
  let* data_new := make_shared_cmplx_tensor data_interp in
  new f_grid t_grid lon_inc lat_inc (s_sht_scat_ self) data_new.

(** [integrate_scattering_angles()]. *)
Definition integrate_scattering_angles (self : Field)
  : M Scalar (Tensor Scalar) :=
  let* data := get_cmplx_tensor (s_data_ self) in
  let result := chip 4 0 data in
  ret (tensor_map (λ z, c_real z * s_sqrt (s_of_Z 4 * s_pi)) result).

Definition normalize_loop (value : Scalar) (integrals : Tensor Scalar)
    (dimensions : list nat) (data : Tensor (Scalar * Scalar))
  : Tensor (Scalar * Scalar) :=
  foldl
    (λ data i,
       let integral := coeff integrals (i ++ [0]) in
       if s_ne integral s_zero
       then update_submatrix 4 data i (λ z, c_scale_r z (value / integral))
       else data)
    data (DimensionCounter dimensions).

(** [normalize(value)]. *)
Definition normalize (self : Field) (value : Scalar) : M Scalar unit :=
  let* integrals := integrate_scattering_angles self in
  let b := s_base self in
  let dimensions := [n_freqs_ b; n_temps_ b; n_lon_inc_ b; n_lat_inc_ b] in
  let* data := get_cmplx_tensor (s_data_ self) in
  put_cmplx_tensor (s_data_ self)
    (normalize_loop value integrals dimensions data).

(** The loop of [operator+=]: the coefficient-domain sum, slice by
    slice. *)
Definition add_loop (sht_l sht_r : SHT) (dimensions_loop : list nat)
    (regridded_data data : Tensor (Scalar * Scalar))
  : Tensor (Scalar * Scalar) :=
  foldl
    (λ data i,
       let in_l := get_subvector 4 data i in
       let in_r := get_subvector 4 regridded_data i in
       set_subvector 4 data i (add_coeffs c_add sht_l in_l sht_r in_r))
    data (DimensionCounter dimensions_loop).

(** [operator+=(other)]. *)
Definition add_assign (self other : Field) : M Scalar Field :=
  let* regridded :=
    regrid other (s_f_grid_ self) (s_t_grid_ self) (s_lon_inc_ self)
      (s_lat_inc_ self) in
  let* data := get_cmplx_tensor (s_data_ self) in
  let b := s_base self in
  let dimensions_loop := [n_freqs_ b; n_temps_ b; n_lon_inc_ b;
                          n_lat_inc_ b; dimension data 5] in
  let* sht_l := get_sht (s_sht_scat_ self) in
  let* sht_r := get_sht (s_sht_scat_ regridded) in
  let* regridded_data := get_cmplx_tensor (s_data_ regridded) in
  put_cmplx_tensor (s_data_ self)
    (add_loop sht_l sht_r dimensions_loop regridded_data data);;
  release_cmplx_tensor (s_data_ regridded);;
  ret self.

(** [operator*=(c)]. *)
Definition mul_assign (self : Field) (c : Scalar) : M Scalar Field :=
  let* data := get_cmplx_tensor (s_data_ self) in
  put_cmplx_tensor (s_data_ self) (tensor_map (c_scale_l c) data);;
  ret self.

(** [set_number_of_scattering_coeffs(n)]. *)
Definition set_number_of_scattering_coeffs (self : Field) (n : nat)
  : M Scalar Field :=
  let* data := get_cmplx_tensor (s_data_ self) in
  let current_stokes_dim := dimension data 5 in
  if decide (current_stokes_dim = n) then ret self
  else
    let new_dimensions := <[5 := n]> (dimensions data) in
    let* data_new :=
      make_shared_cmplx_tensor (Tensor_new c_zero new_dimensions) in
    let* dest := get_cmplx_tensor data_new in
    put_cmplx_tensor data_new (eigen_copy dest data);;
    ret (mkSpectral (s_base self) (s_f_grid_ self) (s_t_grid_ self)
           (s_lon_inc_ self) (s_lat_inc_ self) (s_sht_scat_ self) data_new).

(** [to_spectral(sht_other)]. *)
Definition to_spectral (self : Field) (sht_other : loc) : M Scalar Field :=
  let* data := get_cmplx_tensor (s_data_ self) in
  let* sht := get_sht sht_other in
  let new_dimensions := <[4 := get_n_spectral_coeffs sht]> (dimensions data) in
  let* data_new_ :=
    make_shared_cmplx_tensor
      (setZero c_zero (Tensor_new c_zero new_dimensions)) in
  let* result :=
    new (s_f_grid_ self) (s_t_grid_ self) (s_lon_inc_ self) (s_lat_inc_ self)
      sht_other data_new_ in
  let* result := add_assign result self in
  ret result.

(** The loop of [set_data]: each coefficient vector of the sub-tensor at
    [data_index] is assigned the result of [add_coeffs] on itself and the
    vector of the regridded operand.  [data_map] and [other_data_map] are
    the views at the leading coordinates [data_index] and [input_index];
    what is assigned through [data_map] reaches the data tensor. *)
Definition set_data_loop (sht_l sht_r : SHT)
    (data_index input_index dimensions_loop : list nat)
    (regridded data : Tensor (Scalar * Scalar)) : Tensor (Scalar * Scalar) :=
  foldl
    (λ data i,
       let in_l := get_subvector 2 (tensor_index data data_index) i in
       let in_r := get_subvector 2 (tensor_index regridded input_index) i in
       set_subvector 4 data (data_index ++ i)
         (add_coeffs c_add sht_l in_l sht_r in_r))
    data (DimensionCounter dimensions_loop).

(** [set_data(frequency_index, temperature_index, other)]. *)
Definition set_data (self : Field) (frequency_index temperature_index : nat)
    (other : Field) : M Scalar unit :=
  let* others := get_vectors [s_lon_inc_ other; s_lat_inc_ other] in
  let* own := get_vectors [s_lon_inc_ self; s_lat_inc_ self] in
  let* other_data := get_cmplx_tensor (s_data_ other) in
  let* regridded :=
    lift (RegularRegridder_cmplx [2; 3] others own
      extrapolate_default other_data) in
  let data_index := [frequency_index; temperature_index] in
  let input_index := [0; 0] in
  let* data := get_cmplx_tensor (s_data_ self) in
  let b := s_base self in
  let dimensions_loop := [n_lon_inc_ b; n_lat_inc_ b; dimension data 5] in
  let* sht_l := get_sht (s_sht_scat_ self) in
  let* sht_r := get_sht (s_sht_scat_ other) in
  put_cmplx_tensor (s_data_ self)
    (set_data_loop sht_l sht_r data_index input_index dimensions_loop
       regridded data).

End Methods.
End FieldSpectral.

(** ** Fully-spectral format ([ScatteringDataFieldFullySpectral]) *)

Record ScatteringDataFieldFullySpectral := mkFullySpectral {
  fs_base : ScatteringDataFieldBase;
  fs_f_grid_ : loc;
  fs_t_grid_ : loc;
  fs_sht_inc_ : loc;
  fs_sht_scat_ : loc;
  fs_data_ : loc
}.

Module FieldFullySpectral.
Section Methods.
Context {Scalar : Type} `{ScalarOps Scalar} `{External Scalar}.
Local Open Scope scalar_scope.

Abbreviation Field := ScatteringDataFieldFullySpectral.

Definition new (f_grid t_grid : loc) (sht_inc sht_scat : loc) (data : loc)
  : M Scalar Field :=
  let* f := get_vector f_grid in
  let* t := get_vector t_grid in
  let* si := get_sht sht_inc in
  let* ss := get_sht sht_scat in
  ret (mkFullySpectral
         (ScatteringDataFieldBase_new (length f) (length t)
            (get_n_longitudes si) (get_n_latitudes si)
            (get_n_longitudes ss) (get_n_latitudes ss))
         f_grid t_grid sht_inc sht_scat data).

Definition get_data_format (self : Field) : DataFormat := FullySpectral.

(** [regrid(f_grid, t_grid)]. *)
Definition regrid (self : Field) (f_grid t_grid : loc) : M Scalar Field :=
  let* olds := get_vectors [fs_f_grid_ self; fs_t_grid_ self] in
  let* news := get_vectors [f_grid; t_grid] in
  let* data := get_cmplx_tensor (fs_data_ self) in
  let* data_interp :=
    lift (RegularRegridder_cmplx [0; 1] olds news extrapolate_default data) in
  let* data_new := make_shared_cmplx_tensor data_interp in
  new f_grid t_grid (fs_sht_inc_ self) (fs_sht_scat_ self) data_new.

Definition add_loop (inc_l scat_l inc_r scat_r : SHT)
    (dimensions_loop : list nat)
    (regridded_data data : Tensor (Scalar * Scalar))
  : Tensor (Scalar * Scalar) :=
  foldl
    (λ data i,
       let in_l := get_submatrix 2 data i in
       let in_r := get_submatrix 2 regridded_data i in
       set_submatrix 2 data i
         (add_coeffs_2d inc_l scat_l in_l inc_r scat_r in_r))
    data (DimensionCounter dimensions_loop).

(** [operator+=(other)]. *)
Definition add_assign (self other : Field) : M Scalar Field :=
  let* regridded := regrid other (fs_f_grid_ self) (fs_t_grid_ self) in
  let* data := get_cmplx_tensor (fs_data_ self) in
  let b := fs_base self in
  let dimensions_loop := [n_freqs_ b; n_temps_ b; dimension data 4] in
  let* inc_l := get_sht (fs_sht_inc_ self) in
  let* scat_l := get_sht (fs_sht_scat_ self) in
  let* inc_r := get_sht (fs_sht_inc_ regridded) in
  let* scat_r := get_sht (fs_sht_scat_ regridded) in
  let* regridded_data := get_cmplx_tensor (fs_data_ regridded) in
  put_cmplx_tensor (fs_data_ self)
    (add_loop inc_l scat_l inc_r scat_r dimensions_loop regridded_data data);;
  release_cmplx_tensor (fs_data_ regridded);;
  ret self.

(** [operator*=(c)]. *)
Definition mul_assign (self : Field) (c : Scalar) : M Scalar Field :=
  let* data := get_cmplx_tensor (fs_data_ self) in
  put_cmplx_tensor (fs_data_ self) (tensor_map (c_scale_l c) data);;
  ret self.

(** [set_number_of_scattering_coeffs(n)]. *)
Definition set_number_of_scattering_coeffs (self : Field) (n : nat)
  : M Scalar Field :=
  let* data := get_cmplx_tensor (fs_data_ self) in
  let current_stokes_dim := dimension data 4 in
  if decide (current_stokes_dim = n) then ret self
  else
    let new_dimensions := <[4 := n]> (dimensions data) in
    let* data_new :=
      make_shared_cmplx_tensor (Tensor_new c_zero new_dimensions) in
    let* dest := get_cmplx_tensor data_new in
    put_cmplx_tensor data_new (eigen_copy dest data);;
    ret (mkFullySpectral (fs_base self) (fs_f_grid_ self) (fs_t_grid_ self)
           (fs_sht_inc_ self) (fs_sht_scat_ self) data_new).

End Methods.
End FieldFullySpectral.

(** A computation that answered. *)
Definition is_Ok {A} (r : result A) : bool :=
  match r with Ok _ => true | Err _ => false end.

(** ** Well-formed fields

    The invariants of the data model: the pointers of a field name
    objects of the store, the sizes of the base class are those of the
    grids, and the "tensor dimensions along frequency/temperature/angle
    axes always equal the corresponding grid sizes". *)

Definition grids_at {Scalar} (σ : Store Scalar) (ps : list loc)
    (vs : list (list Scalar)) : Prop :=
  Forall2 (λ p v, vectors σ !! p = Some v) ps vs.

Record gridded_wf {Scalar} (σ : Store Scalar)
    (self : ScatteringDataFieldGridded) (grids : list (list Scalar))
    (data : Tensor Scalar) : Prop := {
  gwf_grids :
    grids_at σ [g_f_grid_ self; g_t_grid_ self; g_lon_inc_ self;
                g_lat_inc_ self; g_lon_scat_ self; g_lat_scat_ self] grids;
  gwf_sizes :
    let b := g_base self in
    length <$> grids = [n_freqs_ b; n_temps_ b; n_lon_inc_ b; n_lat_inc_ b;
                        n_lon_scat_ b; n_lat_scat_ b];
  gwf_data : tensors σ !! g_data_ self = Some data;
  gwf_dimensions :
    let b := g_base self in
    dimensions data = [n_freqs_ b; n_temps_ b; n_lon_inc_ b; n_lat_inc_ b;
                       n_lon_scat_ b; n_lat_scat_ b; dimension data 6]
}.

(** The dimensions of a regridded tensor (the Axis Regridder of the
    design: "all other axes are carried through unchanged"): the axes
    [axes] take the sizes of the target grids [news]. *)
Definition regridded_dimensions {Scalar} (axes : list nat)
    (news : list (list Scalar)) (dims : list nat) : list nat :=
  foldl (λ d kg, <[kg.1 := length kg.2]> d) dims (zip axes news).

(** One pass of [normalize] of the gridded field, by the coordinate
    [k = i ++ [j]] of the slice it scales. *)
Definition normalize_pass `{ScalarOps Scalar} (value : Scalar)
    (integrals : Tensor Scalar) (data : Tensor Scalar) (k : list nat)
  : Tensor Scalar :=
  let i := take (length k - 1) k in
  let integral := coeff integrals (i ++ [0]) in
  if s_ne integral s_zero
  then update_submatrix 4 data k (λ x, s_mul x (s_div value integral))
  else data.

(** The factor [normalize] applies to the slice [k]. *)
Definition normalize_factor `{ScalarOps Scalar} (value : Scalar)
    (integrals : Tensor Scalar) (k : list nat) (x : Scalar) : Scalar :=
  let i := take (length k - 1) k in
  let integral := coeff integrals (i ++ [0]) in
  if s_ne integral s_zero then s_mul x (s_div value integral) else x.

(** A coefficient-wise function of a matrix. *)
Definition matrix_map {A B} (g : A → B) (rows : list (list A))
  : list (list B) :=
  (λ row : list A, g <$> row) <$> rows.

Record spectral_wf {Scalar} (σ : Store Scalar)
    (self : ScatteringDataFieldSpectral) (grids : list (list Scalar))
    (sht : SHT) (data : Tensor (Scalar * Scalar)) : Prop := {
  swf_grids :
    grids_at σ [s_f_grid_ self; s_t_grid_ self; s_lon_inc_ self;
                s_lat_inc_ self] grids;
  swf_sizes :
    let b := s_base self in
    length <$> grids = [n_freqs_ b; n_temps_ b; n_lon_inc_ b; n_lat_inc_ b];
  swf_sht : shts σ !! s_sht_scat_ self = Some sht;
  swf_data : cmplx_tensors σ !! s_data_ self = Some data;
  swf_dimensions :
    let b := s_base self in
    dimensions data = [n_freqs_ b; n_temps_ b; n_lon_inc_ b; n_lat_inc_ b;
                       get_n_spectral_coeffs sht; dimension data 5]
}.

(** The node after [k] passes of the Newton loop of the first node of
    degree 2, in [double]. *)
Definition double_pass (k : nat) : float :=
  GaussLegendre.nr_x
    (GaussLegendre.newton_loop (H := DoubleScalar.ops) 2 k
       (GaussLegendre.initial_guess (H := DoubleScalar.ops) 2 1) 0%float 0).

(** A computation keeps every grid and every transform of the store, as
    they were, whatever its outcome. *)
Definition keeps_grids {Scalar A} (m : M Scalar A) : Prop :=
  ∀ σ, vectors (m σ).2 = vectors σ ∧ shts (m σ).2 = shts σ.

(** Every value a computation returns satisfies [P]. *)
Definition returns {Scalar A} (m : M Scalar A) (P : A → Prop) : Prop :=
  ∀ σ a, (m σ).1 = Ok a → P a.

(** Two fields hold the same grids, sizes and particle type. *)
Definition same_grids_gridded (self self' : ScatteringDataFieldGridded) : Prop :=
  g_base self' = g_base self ∧
  get_particle_type (g_base self') = get_particle_type (g_base self) ∧
  [g_f_grid_ self'; g_t_grid_ self'; g_lon_inc_ self'; g_lat_inc_ self';
   g_lon_scat_ self'; g_lat_scat_ self']
  = [g_f_grid_ self; g_t_grid_ self; g_lon_inc_ self; g_lat_inc_ self;
     g_lon_scat_ self; g_lat_scat_ self].

Definition same_grids_spectral (self self' : ScatteringDataFieldSpectral) : Prop :=
  s_base self' = s_base self ∧
  get_particle_type (s_base self') = get_particle_type (s_base self) ∧
  [s_f_grid_ self'; s_t_grid_ self'; s_lon_inc_ self'; s_lat_inc_ self';
   s_sht_scat_ self']
  = [s_f_grid_ self; s_t_grid_ self; s_lon_inc_ self; s_lat_inc_ self;
     s_sht_scat_ self].

Definition same_grids_fully_spectral
    (self self' : ScatteringDataFieldFullySpectral) : Prop :=
  fs_base self' = fs_base self ∧
  get_particle_type (fs_base self') = get_particle_type (fs_base self) ∧
  [fs_f_grid_ self'; fs_t_grid_ self'; fs_sht_inc_ self'; fs_sht_scat_ self']
  = [fs_f_grid_ self; fs_t_grid_ self; fs_sht_inc_ self; fs_sht_scat_ self].

(** ** An instance of the rest of the library, in exact arithmetic

    A regridder by piecewise-linear interpolation along one axis after
    the other, a product trapezoid rule for the angular integral, and a
    row-wise coefficient sum: an instance of what the fields are written
    over, to run them on. *)

Module Example.
Import ExactScalar.
Local Open Scope Qc_scope.

(** The interval of the source grid and the weight of its upper node
    for the target coordinate [y]: a node of the grid is taken as it
    is. *)
Fixpoint locate_from (j : nat) (old : list Qc) (y : Qc) : option (nat * Qc) :=
  match old with
  | x0 :: ((x1 :: _) as rest) =>
      if Qc_eq_bool x0 y then Some (j, 0)
      else if ltb x0 y && ltb y x1 then Some (j, (y - x0) / (x1 - x0))
      else locate_from (S j) rest y
  | [x0] => if Qc_eq_bool x0 y then Some (j, 0) else None
  | [] => None
  end.

(** Outside the grid: the boundary interval, when extrapolation is
    asked for. *)
Definition locate (extrapolate : bool) (old : list Qc) (y : Qc)
  : option (nat * Qc) :=
  match locate_from 0 old y with
  | Some jw => Some jw
  | None =>
      if extrapolate then
        match old with
        | x0 :: x1 :: _ =>
            if ltb y x0 then Some (0%nat, (y - x0) / (x1 - x0))
            else
              let n := length old in
              let a := default 0 (old !! (n - 2)%nat) in
              let b := default 0 (old !! (n - 1)%nat) in
              Some ((n - 2)%nat, (y - a) / (b - a))
        | _ => None
        end
      else None
  end.

Fixpoint locate_all (extrapolate : bool) (old new : list Qc)
  : result (list (nat * Qc)) :=
  match new with
  | [] => Ok []
  | y :: new' =>
      match locate extrapolate old y, locate_all extrapolate old new' with
      | Some jw, Ok jws => Ok (jw :: jws)
      | None, _ => Err OutOfRange
      | _, Err e => Err e
      end
  end.

Definition interpolate_axis {A} (add : A → A → A) (scale : Qc → A → A)
    (k : nat) (old new : list Qc) (extrapolate : bool) (t : Tensor A)
  : result (Tensor A) :=
  match locate_all extrapolate old new with
  | Err e => Err e
  | Ok jws =>
      Ok (mkTensor (<[k := length new]> (dimensions t))
            (λ idx,
               match jws !! default 0%nat (idx !! k) with
               | Some (j, w) =>
                   if Qc_eq_bool w 0 then coeff t (<[k := j]> idx)
                   else add (scale (1 - w) (coeff t (<[k := j]> idx)))
                            (scale w (coeff t (<[k := S j]> idx)))
               | None => coeff t idx
               end))
  end.

Fixpoint regrid_axes {A} (add : A → A → A) (scale : Qc → A → A)
    (axes : list nat) (olds news : list (list Qc)) (extrapolate : bool)
    (t : Tensor A) : result (Tensor A) :=
  match axes, olds, news with
  | k :: axes', old :: olds', new :: news' =>
      match interpolate_axis add scale k old new extrapolate t with
      | Ok t' => regrid_axes add scale axes' olds' news' extrapolate t'
      | Err e => Err e
      end
  | _, _, _ => Ok t
  end.

(** Trapezoid weights of a grid; a grid of one node has weight 1. *)
Definition trapezoid_weights (g : list Qc) : list Qc :=
  match g with
  | [_] => [1]
  | _ =>
      imap (λ p x,
              let prev := default x (g !! (p - 1)%nat) in
              let next := default x (g !! S p) in
              (next - prev) / of_Z 2) g
  end.

Definition weighted_sum (ws : list Qc) (xs : list Qc) : Qc :=
  foldr (λ xw acc, xw.1 * xw.2 + acc) 0 (zip xs ws).

Definition integrate (matrix : list (list Qc)) (lon colat : list Qc) : Qc :=
  weighted_sum (trapezoid_weights lon)
    (weighted_sum (trapezoid_weights colat) <$> matrix).

Definition add_rows (inc_l scat_l : SHT) (m_l : list (list (Qc * Qc)))
    (inc_r scat_r : SHT) (m_r : list (list (Qc * Qc)))
  : list (list (Qc * Qc)) :=
  imap (λ k row,
          match m_r !! k with
          | Some row_r => add_coeffs c_add scat_l row scat_r row_r
          | None => row
          end) m_l.

#[export] Instance external : External Qc := {|
  RegularRegridder := regrid_axes Qcplus Qcmult;
  RegularRegridder_cmplx := regrid_axes c_add c_scale_l;
  extrapolate_default := false;
  integrate_angles := integrate;
  add_coeffs_2d := add_rows
|}.

(** A store with six grids, two transforms, the data of a gridded
    field and the data of a spectral field. *)
Definition grid (zs : list Z) : list Qc := of_Z <$> zs.

Definition gridded_data : Tensor Qc :=
  mkTensor [1; 1; 1; 1; 2; 2; 2]%nat
    (λ idx, of_Z (1 + Z.of_nat (foldr Nat.add 0%nat idx))).

Definition spectral_data : Tensor (Qc * Qc) :=
  mkTensor [1; 1; 1; 1; 3; 1]%nat
    (λ idx, (of_Z (2 + Z.of_nat (default 0%nat (idx !! 4%nat))), of_Z 1)).

Definition store : Store Qc :=
  mkStore
    (list_to_map [(1%positive, grid [1]%Z); (2%positive, grid [1]%Z);
                  (3%positive, grid [0]%Z); (4%positive, grid [0]%Z);
                  (5%positive, grid [0; 1]%Z); (6%positive, grid [0; 1]%Z)])
    (list_to_map [(1%positive, mkSHT 1 1 4 4); (2%positive, mkSHT 2 1 4 4)])
    (list_to_map [(1%positive, gridded_data)])
    (list_to_map [(1%positive, spectral_data)]).

Definition gridded_field : ScatteringDataFieldGridded :=
  mkGridded (ScatteringDataFieldBase_new 1 1 1 1 2 2)
    1%positive 2%positive 3%positive 4%positive 5%positive 6%positive
    1%positive.

Definition spectral_field : ScatteringDataFieldSpectral :=
  mkSpectral (ScatteringDataFieldBase_new 1 1 1 1 4 4)
    1%positive 2%positive 3%positive 4%positive 1%positive 1%positive.

Definition gridded_grids : list (list Qc) :=
  [grid [1]%Z; grid [1]%Z; grid [0]%Z; grid [0]%Z; grid [0; 1]%Z; grid [0; 1]%Z].

Definition spectral_grids : list (list Qc) :=
  [grid [1]%Z; grid [1]%Z; grid [0]%Z; grid [0]%Z].

(** The answers of the regridder on the data of the two fields, on
    their own grids. *)
Definition gridded_regridded : Tensor Qc :=
  match regrid_axes Qcplus Qcmult [2; 3; 4; 5]%nat (drop 2 gridded_grids)
          (drop 2 gridded_grids) false gridded_data with
  | Ok t => t
  | Err _ => gridded_data
  end.

Definition spectral_regridded : Tensor (Qc * Qc) :=
  match regrid_axes c_add c_scale_l [0; 1; 2; 3]%nat spectral_grids
          spectral_grids false spectral_data with
  | Ok t => t
  | Err _ => spectral_data
  end.
End Example.

(** The particle type of a base record is the one of its sizes, as the
    constructor of the base class leaves it. *)
Definition base_wf (b : ScatteringDataFieldBase) : Prop :=
  type_ b
  = determine_type (Z.of_nat (n_lon_inc_ b)) (Z.of_nat (n_lat_inc_ b))
      (Z.of_nat (n_lon_scat_ b)) (Z.of_nat (n_lat_scat_ b)).

(** One pass of the body of the Newton loop, up to its test: the new [x]
    and [dp_dx]. *)
Definition newton_update `{ScalarOps Scalar} (n : nat) (x : Scalar)
  : Scalar * Scalar :=
  let '(p_l, p_l_1) := GaussLegendre.legendre n x in
  let dp_dx := s_div (s_mul (s_sub s_one x) (s_add s_one x))
                 (s_mul (s_of_Z (Z.of_nat n)) (s_sub p_l_1 (s_mul x p_l))) in
  (s_sub x (s_mul p_l dp_dx), dp_dx).

(** The store with one more data tensor, or with another tensor behind
    the pointer [p]. *)
Definition with_tensor {Scalar} (σ : Store Scalar) (p : loc)
    (t : Tensor Scalar) : Store Scalar :=
  mkStore (vectors σ) (shts σ) (<[p := t]> (tensors σ)) (cmplx_tensors σ).

(** The data tensor after a [set_data] that passed the dimension check. *)
Definition slice_assigned {Scalar} (data : Tensor Scalar) (pre : list nat)
    (regridded : Tensor Scalar) : Tensor Scalar :=
  mkTensor (dimensions data)
    (λ idx, if decide (take (length pre) idx = pre)
            then coeff (tensor_index regridded [0; 0]) (drop (length pre) idx)
            else coeff data idx).

(** A second store: the gridded field of [Example] and a field of two
    frequencies on the same angular grids, to be filled from it. *)
Module SliceExample.
Import ExactScalar Example.
Local Open Scope Qc_scope.

Definition target_data : Tensor Qc :=
  mkTensor [2; 1; 1; 1; 2; 2; 2]%nat (λ _, 0).

Definition two_frequency_store : Store Qc :=
  mkStore
    (<[7%positive := grid [1; 2]%Z]> (vectors Example.store))
    (shts Example.store)
    (<[2%positive := target_data]> (tensors Example.store))
    (cmplx_tensors Example.store).

Definition target_field : ScatteringDataFieldGridded :=
  mkGridded (ScatteringDataFieldBase_new 2 1 1 1 2 2)
    7%positive 2%positive 3%positive 4%positive 5%positive 6%positive
    2%positive.

Definition target_grids : list (list Qc) :=
  [grid [1; 2]%Z; grid [1]%Z; grid [0]%Z; grid [0]%Z; grid [0; 1]%Z;
   grid [0; 1]%Z].

(** The answer of the regridder on the data of the gridded field of
    [Example], on all six of its own grids. *)
Definition gridded_regridded_all : Tensor Qc :=
  match regrid_axes Qcplus Qcmult [0; 1; 2; 3; 4; 5]%nat gridded_grids
          gridded_grids false gridded_data with
  | Ok t => t
  | Err _ => gridded_data
  end.

(** The answer of the regridder on the data of the spectral field of
    [Example], on its own incoming-angle grids. *)
Definition spectral_regridded_angles : Tensor (Qc * Qc) :=
  match regrid_axes c_add c_scale_l [2; 3]%nat (drop 2 spectral_grids)
          (drop 2 spectral_grids) false spectral_data with
  | Ok t => t
  | Err _ => spectral_data
  end.







End SliceExample.

(** ** The rest of the library over any scalar type

    A regridder and an angular integration written after the design, as
    the ones of [Example] are, over the operations of the scalar type:
    linear interpolation axis by axis, and the trapezoid rule. *)
Module LinearModel.
Section Model.
Context {Scalar : Type} `{ScalarOps Scalar}.
Local Open Scope scalar_scope.

Definition s_eq (x y : Scalar) : bool := negb (s_ne x y).

Fixpoint locate_from (j : nat) (old : list Scalar) (y : Scalar)
  : option (nat * Scalar) :=
  match old with
  | x0 :: ((x1 :: _) as rest) =>
      if s_eq x0 y then Some (j, s_zero)
      else if s_lt x0 y && s_lt y x1 then Some (j, (y - x0) / (x1 - x0))
      else locate_from (S j) rest y
  | [x0] => if s_eq x0 y then Some (j, s_zero) else None
  | [] => None
  end.

Definition locate (extrapolate : bool) (old : list Scalar) (y : Scalar)
  : option (nat * Scalar) :=
  match locate_from 0 old y with
  | Some jw => Some jw
  | None =>
      if extrapolate then
        match old with
        | x0 :: x1 :: _ =>
            if s_lt y x0 then Some (0, (y - x0) / (x1 - x0))
            else
              let n := length old in
              let a := default s_zero (old !! (n - 2)%nat) in
              let b := default s_zero (old !! (n - 1)%nat) in
              Some ((n - 2)%nat, (y - a) / (b - a))
        | _ => None
        end
      else None
  end.

Fixpoint locate_all (extrapolate : bool) (old new : list Scalar)
  : result (list (nat * Scalar)) :=
  match new with
  | [] => Ok []
  | y :: new' =>
      match locate extrapolate old y, locate_all extrapolate old new' with
      | Some jw, Ok jws => Ok (jw :: jws)
      | None, _ => Err OutOfRange
      | _, Err e => Err e
      end
  end.

Definition interpolate_axis {A} (add : A → A → A) (scale : Scalar → A → A)
    (k : nat) (old new : list Scalar) (extrapolate : bool) (t : Tensor A)
  : result (Tensor A) :=
  match locate_all extrapolate old new with
  | Err e => Err e
  | Ok jws =>
      Ok (mkTensor (<[k := length new]> (dimensions t))
            (λ idx,
               match jws !! default 0 (idx !! k) with
               | Some (j, w) =>
                   if s_eq w s_zero then coeff t (<[k := j]> idx)
                   else add (scale (s_one - w) (coeff t (<[k := j]> idx)))
                            (scale w (coeff t (<[k := S j]> idx)))
               | None => coeff t idx
               end))
  end.

Fixpoint regrid_axes {A} (add : A → A → A) (scale : Scalar → A → A)
    (axes : list nat) (olds news : list (list Scalar)) (extrapolate : bool)
    (t : Tensor A) : result (Tensor A) :=
  match axes, olds, news with
  | k :: axes', old :: olds', new :: news' =>
      match interpolate_axis add scale k old new extrapolate t with
      | Ok t' => regrid_axes add scale axes' olds' news' extrapolate t'
      | Err e => Err e
      end
  | _, _, _ => Ok t
  end.

Definition trapezoid_weights (g : list Scalar) : list Scalar :=
  match g with
  | [_] => [s_one]
  | _ =>
      imap (λ p x,
              let prev := default x (g !! (p - 1)%nat) in
              let next := default x (g !! S p) in
              (next - prev) / s_of_Z 2) g
  end.

Definition weighted_sum (ws : list Scalar) (xs : list Scalar) : Scalar :=
  foldr (λ xw acc, xw.1 * xw.2 + acc) s_zero (zip xs ws).

Definition integrate (matrix : list (list Scalar)) (lon colat : list Scalar)
  : Scalar :=
  weighted_sum (trapezoid_weights lon)
    (weighted_sum (trapezoid_weights colat) <$> matrix).

Definition add_rows (inc_l scat_l : SHT) (m_l : list (list (Scalar * Scalar)))
    (inc_r scat_r : SHT) (m_r : list (list (Scalar * Scalar)))
  : list (list (Scalar * Scalar)) :=
  imap (λ k row,
          match m_r !! k with
          | Some row_r => add_coeffs c_add scat_l row scat_r row_r
          | None => row
          end) m_l.

Definition external : External Scalar := {|
  RegularRegridder := regrid_axes s_add s_mul;
  RegularRegridder_cmplx := regrid_axes c_add c_scale_l;
  extrapolate_default := false;
  integrate_angles := integrate;
  add_coeffs_2d := add_rows
|}.
End Model.
End LinearModel.

(** A gridded field in [double]: one coefficient, 49, on grids of one
    node each. *)
Module DoubleExample.
Local Open Scope float_scope.

#[export] Instance external : External float :=
  LinearModel.external (H := DoubleScalar.ops).

Definition data : Tensor float :=
  mkTensor [1; 1; 1; 1; 1; 1; 1]%nat (λ _, 49).

Definition store : Store float :=
  mkStore
    (list_to_map [(1%positive, [1]); (2%positive, [1]); (3%positive, [0]);
                  (4%positive, [0])])
    ∅
    (list_to_map [(1%positive, data)])
    ∅.

Definition field : ScatteringDataFieldGridded :=
  mkGridded (ScatteringDataFieldBase_new 1 1 1 1 1 1)
    1%positive 2%positive 3%positive 4%positive 3%positive 4%positive
    1%positive.

Definition grids : list (list float) := [[1]; [1]; [0]; [0]; [0]; [0]].
End DoubleExample.

(** * Properties *)

(** ** Tensors, counters and views *)

Lemma elem_of_DimensionCounter dims idx :
  idx ∈ DimensionCounter dims ↔ in_bounds dims idx.
Proof.
  unfold in_bounds. revert idx.
  induction dims as [|d dims IH]; intros idx; simpl.
  - rewrite list_elem_of_singleton. split; [intros ->; constructor|].
    by intros ->%Forall2_nil_inv_r.
  - rewrite list_elem_of_bind. split.
    + intros (i & (idx' & -> & Hidx')%list_elem_of_fmap & Hi%elem_of_seq).
      constructor; [lia|by apply IH].
    + intros (i & idx' & Hi & Hidx' & ->)%Forall2_cons_inv_r.
      exists i. split; [|apply elem_of_seq; lia].
      apply list_elem_of_fmap. exists idx'. split; [done|by apply IH].
Qed.

Lemma in_bounds_length dims idx : in_bounds dims idx → length idx = length dims.
Proof. apply Forall2_length. Qed.

Lemma in_bounds_lookup dims idx k i d :
  in_bounds dims idx → idx !! k = Some i → dims !! k = Some d → i < d.
Proof. intros Hb Hi Hd. by eapply (Forall2_lookup_lr _ _ _ _ _ _ Hb). Qed.

Lemma NoDup_DimensionCounter dims : NoDup (DimensionCounter dims).
Proof.
  induction dims as [|d dims IH]; simpl.
  - apply NoDup_singleton.
  - apply NoDup_bind; [| |apply NoDup_seq].
    + intros i1 i2 idx _ _ (? & -> & _)%list_elem_of_fmap
        (? & [= -> _] & _)%list_elem_of_fmap. done.
    + intros i _. apply NoDup_fmap_2; [|done]. by intros ?? [= ->].
Qed.

Lemma foldl_bind {A B C} (f : A → B → A) (g : C → list B) a (l : list C) :
  foldl f a (l ≫= g) = foldl (λ a x, foldl f a (g x)) a l.
Proof.
  revert a. induction l as [|x l IH]; intros a; csimpl; [done|].
  by rewrite foldl_app, IH.
Qed.

(** The counter of [dims ++ [n]] runs through its last axis innermost. *)
Lemma DimensionCounter_snoc dims n :
  DimensionCounter (dims ++ [n])
  = i ← DimensionCounter dims; (λ j, i ++ [j]) <$> seq 0 n.
Proof.
  induction dims as [|d dims IH]; simpl.
  - rewrite app_nil_r.
    induction (seq 0 n) as [|j js IHj]; csimpl; [done|]. by rewrite IHj.
  - rewrite IH. generalize (seq 0 d) as firsts. intros firsts.
    induction firsts as [|i firsts IHi]; csimpl; [done|].
    rewrite bind_app, <-IHi. f_equal.
    generalize (DimensionCounter dims) as ks. intros ks.
    induction ks as [|k ks IHk]; csimpl; [done|].
    rewrite fmap_app, IHk. f_equal.
    rewrite <-!list_fmap_compose. done.
Qed.

(** Two loop bodies that agree wherever an invariant of the state holds. *)
Lemma foldl_ext_inv {A B} (Inv : A → Prop) (f g : A → B → A) a (l : list B) :
  (∀ a x, Inv a → f a x = g a x ∧ Inv (g a x)) →
  Inv a → foldl f a l = foldl g a l.
Proof.
  intros Hfg. revert a. induction l as [|x l IH]; intros a Ha; simpl; [done|].
  destruct (Hfg a x Ha) as [-> Hinv]. by apply IH.
Qed.

Section TensorLemmas.
Context {A : Type}.
Implicit Types t : Tensor A.

Lemma foldl_dimensions {K} (step : Tensor A → K → Tensor A) t ks :
  (∀ t k, dimensions (step t k) = dimensions t) →
  dimensions (foldl step t ks) = dimensions t.
Proof.
  intros Hstep. revert t. induction ks as [|k ks IH]; intros t; simpl; [done|].
  by rewrite IH, Hstep.
Qed.

(** A loop over keys whose passes each rewrite the coefficients of
    their own key. *)
Section Loop.
Context {K : Type} (step : Tensor A → K → Tensor A).
Context (dims : list nat) (P : K → list nat → Prop).
Context `{∀ k idx, Decision (P k idx)}.
Context (f : K → list nat → A → A).
Hypothesis step_dimensions : ∀ t k, dimensions (step t k) = dimensions t.
Hypothesis step_coeff : ∀ t k idx,
  dimensions t = dims →
  coeff (step t k) idx
  = if decide (P k idx) then f k idx (coeff t idx) else coeff t idx.

Lemma loop_miss t ks idx :
  dimensions t = dims →
  (∀ k, k ∈ ks → ¬ P k idx) →
  coeff (foldl step t ks) idx = coeff t idx.
Proof.
  revert t. induction ks as [|k ks IH]; intros t Hd Hmiss; simpl; [done|].
  rewrite IH.
  - rewrite step_coeff by done. rewrite decide_False; [done|].
    apply Hmiss. left.
  - by rewrite step_dimensions.
  - intros k' Hk'. apply Hmiss. by right.
Qed.

Lemma loop_hit t ks k idx :
  dimensions t = dims →
  k ∈ ks → P k idx →
  (∀ k1 k2 i j, ks !! i = Some k1 → ks !! j = Some k2 →
                P k1 idx → P k2 idx → i = j) →
  coeff (foldl step t ks) idx = f k idx (coeff t idx).
Proof.
  revert t. induction ks as [|k0 ks IH]; intros t Hd Hin HP Huniq.
  { by apply elem_of_nil in Hin. }
  simpl. destruct (decide (P k0 idx)) as [HP0|HnP0].
  - rewrite loop_miss.
    + rewrite step_coeff by done. rewrite decide_True by done.
      apply list_elem_of_lookup in Hin as [j Hj].
      assert (0 = j) as <- by (by apply (Huniq k0 k 0 j)).
      by injection Hj as ->.
    + by rewrite step_dimensions.
    + intros k' [j Hj]%list_elem_of_lookup HP'.
      by specialize (Huniq k0 k' 0 (S j) eq_refl Hj HP0 HP').
  - rewrite IH.
    + rewrite step_coeff by done. by rewrite decide_False.
    + by rewrite step_dimensions.
    + apply elem_of_cons in Hin as [->|Hin]; done.
    + done.
    + intros k1 k2 i j Hi Hj H1 H2.
      by specialize (Huniq k1 k2 (S i) (S j) Hi Hj H1 H2) as [= ->].
Qed.
End Loop.

Lemma loop_hit_NoDup {K} (step : Tensor A → K → Tensor A) dims
    (P : K → list nat → Prop) `{∀ k idx, Decision (P k idx)}
    (f : K → list nat → A → A) t ks k idx :
  (∀ t k, dimensions (step t k) = dimensions t) →
  (∀ t k idx,
     dimensions t = dims →
     coeff (step t k) idx
     = if decide (P k idx) then f k idx (coeff t idx) else coeff t idx) →
  dimensions t = dims →
  NoDup ks → k ∈ ks → P k idx → (∀ k', P k' idx → k' = k) →
  coeff (foldl step t ks) idx = f k idx (coeff t idx).
Proof.
  intros Hd Hc Ht Hnd Hin HP Huniq.
  apply (loop_hit step dims P f Hd Hc); [done..|].
  intros k1 k2 i j Hi Hj H1 H2.
  apply Huniq in H1 as ->. apply Huniq in H2 as ->.
  by eapply NoDup_lookup.
Qed.

Lemma get_submatrix_fmap (g : A → A) m t t' i :
  dimensions t' = dimensions t →
  (∀ p q, p < dimension t m → q < dimension t (S m) →
          coeff t' (splice2 m i p q) = g (coeff t (splice2 m i p q))) →
  get_submatrix m t' i = matrix_map g (get_submatrix m t i).
Proof.
  intros Hd Hc. unfold matrix_map, get_submatrix, dimension. rewrite Hd.
  rewrite <-list_fmap_compose. apply list_fmap_ext.
  intros ? p [-> Hp]%lookup_seq. cbn [compose].
  rewrite <-list_fmap_compose. apply list_fmap_ext.
  intros ? q [-> Hq]%lookup_seq. cbn [compose]. by apply Hc.
Qed.

Lemma foldl_set_coeff_dimensions (g : list nat → A) t (keys : list (list nat)) :
  dimensions (foldl (λ r i, set_coeff r i (g i)) t keys) = dimensions t.
Proof. by apply foldl_dimensions. Qed.

Lemma foldl_set_coeff (g : list nat → A) t (keys : list (list nat)) idx :
  coeff (foldl (λ r i, set_coeff r i (g i)) t keys) idx
  = if decide (idx ∈ keys) then g idx else coeff t idx.
Proof.
  revert t. induction keys as [|k keys IH]; intros t; cbn [foldl].
  - case_decide as Hin; [by apply elem_of_nil in Hin|done].
  - rewrite IH. destruct (decide (idx ∈ keys)) as [Hin|Hnin].
    + rewrite decide_True; [done|]. by right.
    + cbn [set_coeff coeff]. destruct (decide (idx = k)) as [->|Hne].
      * rewrite decide_True; [done|]. left.
      * rewrite decide_False; [done|]. by intros [?|?]%elem_of_cons.
Qed.
End TensorLemmas.

(** ** Particle-type classification *)

(** The classification as the design document words it. *)
Definition classification_as_documented (n_lon_inc n_lat_inc n_lon_scat
    n_lat_scat : Z) : Prop :=
  let type := determine_type n_lon_inc n_lat_inc n_lon_scat n_lat_scat in
  (type = Random ↔ n_lon_inc = 1 ∧ n_lat_inc = 1 ∧ n_lon_scat = 1)%Z ∧
  (type = AzimuthallyRandom ↔ n_lon_inc = 1 ∧ 1 < n_lon_scat)%Z ∧
  (type = General ↔
     ¬ (n_lon_inc = 1 ∧ n_lat_inc = 1 ∧ n_lon_scat = 1)%Z ∧
     ¬ (n_lon_inc = 1 ∧ 1 < n_lon_scat)%Z).

Lemma determine_type_Random a b c d :
  determine_type a b c d = Random ↔ (a = 1 ∧ b = 1 ∧ c = 1)%Z.
Proof.
  unfold determine_type.
  repeat case_bool_decide; simpl; split; intros; try done; lia.
Qed.

Lemma determine_type_AzimuthallyRandom a b c d :
  determine_type a b c d = AzimuthallyRandom
  ↔ (a = 1 ∧ ¬ (b = 1 ∧ c = 1))%Z.
Proof.
  unfold determine_type.
  repeat case_bool_decide; simpl; split; intros; try done; lia.
Qed.

Lemma determine_type_General a b c d :
  determine_type a b c d = General ↔ (a ≠ 1)%Z.
Proof.
  unfold determine_type.
  repeat case_bool_decide; simpl; split; intros; try done; lia.
Qed.

(** C3, as stated, fails: with incoming-azimuth and scattering-azimuth
    grids of size 1 and an incoming-zenith grid of size 3 the code answers
    [AzimuthallyRandom], where the documented rule gives [General]. *)
Lemma classification_counterexample :
  determine_type 1 3 1 5 = AzimuthallyRandom ∧
  ¬ classification_as_documented 1 3 1 5.
Proof.
  split; [reflexivity|].
  intros (_ & [Haz _] & _).
  destruct (Haz eq_refl) as [_ ?]. lia.
Qed.

(** C3 (amended): [determine_type] returns [Random] exactly when
    [n_lon_inc], [n_lat_inc] and [n_lon_scat] are all 1; [AzimuthallyRandom]
    exactly when [n_lon_inc] is 1 and [n_lat_inc], [n_lon_scat] are not
    both 1; [General] exactly when [n_lon_inc] is not 1.  Sizes (1,1,1,5)
    classify as [Random], (1,3,4,5) as [AzimuthallyRandom] and (2,3,4,5)
    as [General]. *)
Theorem determine_type_classification :
  (∀ n_lon_inc n_lat_inc n_lon_scat n_lat_scat : Z,
     let type := determine_type n_lon_inc n_lat_inc n_lon_scat n_lat_scat in
     (type = Random ↔ n_lon_inc = 1 ∧ n_lat_inc = 1 ∧ n_lon_scat = 1)%Z ∧
     (type = AzimuthallyRandom
      ↔ n_lon_inc = 1 ∧ ¬ (n_lat_inc = 1 ∧ n_lon_scat = 1))%Z ∧
     (type = General ↔ n_lon_inc ≠ 1)%Z) ∧
  determine_type 1 1 1 5 = Random ∧
  determine_type 1 3 4 5 = AzimuthallyRandom ∧
  determine_type 2 3 4 5 = General.
Proof.
  split; [|done].
  intros a b c d. cbv zeta.
  split; [apply determine_type_Random|].
  split; [apply determine_type_AzimuthallyRandom|apply determine_type_General].
Qed.

(** ** Gauss-Legendre quadrature *)

Section QuadratureProperties.
Context {Scalar : Type} `{ScalarOps Scalar}.
Local Open Scope scalar_scope.
Import GaussLegendre.

Lemma newton_loop_iterations n remaining x dp_dx done :
  nr_iterations (newton_loop n remaining x dp_dx done) ≤ done + remaining.
Proof.
  revert x dp_dx done.
  induction remaining as [|r IH]; intros x dp_dx done; simpl; [lia|].
  destruct (legendre n x) as [p_l p_l_1].
  destruct (s_lt _ _); simpl; [lia|].
  etrans; [apply IH|lia].
Qed.

Lemma newton_loop_counts_up n remaining x dp_dx done :
  done ≤ nr_iterations (newton_loop n remaining x dp_dx done).
Proof.
  revert x dp_dx done.
  induction remaining as [|r IH]; intros x dp_dx done; simpl; [lia|].
  destruct (legendre n x) as [p_l p_l_1].
  destruct (s_lt _ _); simpl; [lia|].
  etrans; [|apply IH]. lia.
Qed.

Lemma newton_loop_enters n remaining x dp_dx done :
  0 < remaining →
  done < nr_iterations (newton_loop n remaining x dp_dx done).
Proof.
  destruct remaining as [|r]; [lia|]. intros _. simpl.
  destruct (legendre n x) as [p_l p_l_1].
  destruct (s_lt _ _); simpl; [lia|].
  apply newton_loop_counts_up.
Qed.

(** The state of the outer loop after its first [m] passes. *)
Definition after_passes (n m : nat) : list Scalar * list Scalar :=
  foldl (outer_step n) (replicate n s_zero, replicate n s_zero) (seq 1 m).

Lemma after_passes_S n m :
  after_passes n (S m) = outer_step n (after_passes n m) (S m).
Proof. unfold after_passes. by rewrite seq_S, foldl_snoc. Qed.

Lemma after_passes_length n m :
  length (after_passes n m).1 = n ∧ length (after_passes n m).2 = n.
Proof.
  induction m as [|m [IH1 IH2]].
  - unfold after_passes. simpl. by rewrite !length_replicate.
  - rewrite after_passes_S. destruct (after_passes n m) as [ns ws].
    unfold outer_step. cbn [fst snd] in *. by rewrite !length_insert.
Qed.

(** What the first [m] passes have written: the pass [i] fills the
    entries [i - 1] and [n - i], and no later pass touches them. *)
Lemma after_passes_entries n m i :
  2 * m ≤ n + 1 → 1 ≤ i ≤ m → (i - 1 ≠ n - i)%nat →
  (after_passes n m).1 !! (i - 1)%nat = Some (node_x n i) ∧
  (after_passes n m).1 !! (n - i)%nat = Some (- node_x n i) ∧
  (after_passes n m).2 !! (i - 1)%nat = Some (node_weight n i) ∧
  (after_passes n m).2 !! (n - i)%nat = Some (node_weight n i).
Proof.
  induction m as [|m IH]; intros Hm Hi Hne; [lia|].
  rewrite after_passes_S.
  pose proof (after_passes_length n m) as [Hl1 Hl2].
  destruct (after_passes n m) as [ns ws].
  unfold outer_step. cbn [fst snd] in *.
  replace (S m - 1)%nat with m by lia.
  destruct (decide (i = S m)) as [->|Hlt].
  - replace (S m - 1)%nat with m in * by lia.
    rewrite !(list_lookup_insert_ne _ (n - S m)%nat m) by lia.
    rewrite !list_lookup_insert_eq by (rewrite ?length_insert; lia).
    done.
  - rewrite !(list_lookup_insert_ne _ (n - S m)%nat) by lia.
    rewrite !(list_lookup_insert_ne _ m) by lia.
    apply IH; lia.
Qed.

Lemma quadrature_is_after_passes degree :
  GaussLegendreQuadrature degree = after_passes degree ((degree + 1) / 2).
Proof. reflexivity. Qed.

Lemma half_nodes_bound n : 2 * ((n + 1) / 2) ≤ n + 1.
Proof. apply Nat.Div0.mul_div_le. Qed.

Lemma half_nodes_reach n k : k < n → k ≤ n - 1 - k → k + 1 ≤ (n + 1) / 2.
Proof.
  intros Hk Hle. apply Nat.div_le_lower_bound; lia.
Qed.

(** C9: for every degree [n >= 1] the nodes and weights are symmetric
    under index reversal: for [k] and [n - 1 - k] with [k <> n - 1 - k],
    [nodes[n - 1 - k] = - nodes[k]] and [weights[n - 1 - k] = weights[k]].
    The scalar negation is an involution, as it is for floating-point
    numbers and in exact arithmetic. *)
Theorem quadrature_symmetric (n k : nat) :
  (∀ x : Scalar, - - x = x) →
  1 ≤ n → k < n → k ≠ (n - 1 - k)%nat →
  ∃ x w,
    get_nodes n !! k = Some x ∧
    get_nodes n !! (n - 1 - k)%nat = Some (- x) ∧
    get_weights n !! k = Some w ∧
    get_weights n !! (n - 1 - k)%nat = Some w.
Proof.
  intros Hneg Hn Hk Hne. unfold get_nodes, get_weights.
  rewrite quadrature_is_after_passes.
  pose proof (half_nodes_bound n) as Hh.
  destruct (decide (k < n - 1 - k)) as [Hlt|Hge].
  - destruct (after_passes_entries n ((n + 1) / 2) (k + 1))
      as (H1 & H2 & H3 & H4);
      [lia | split; [lia | apply half_nodes_reach; lia] | lia |].
    replace (k + 1 - 1)%nat with k in * by lia.
    replace (n - (k + 1))%nat with (n - 1 - k)%nat in * by lia.
    by exists (node_x n (k + 1)), (node_weight n (k + 1)).
  - destruct (after_passes_entries n ((n + 1) / 2) (n - k))
      as (H1 & H2 & H3 & H4);
      [lia
      | split; [lia|];
        pose proof (half_nodes_reach n (n - 1 - k)); lia
      | lia |].
    replace (n - k - 1)%nat with (n - 1 - k)%nat in * by lia.
    replace (n - (n - k))%nat with k in * by lia.
    exists (- node_x n (n - k)), (node_weight n (n - k)).
    rewrite Hneg. done.
Qed.

(** C10: the construction of the quadrature is a total function: it
    returns [n] nodes and [n] weights; and the Newton loop of every node
    makes at least one and at most [n_max_iter = 10] passes, whatever
    the convergence test answers. *)
Theorem newton_at_most_10_iterations (n i : nat) :
  1 ≤ n →
  n_max_iter = 10 ∧
  1 ≤ nr_iterations (find_node n i) ≤ 10 ∧
  length (get_nodes n) = n ∧ length (get_weights n) = n.
Proof.
  intros Hn. split; [done|]. split.
  - unfold find_node.
    pose proof (newton_loop_enters n n_max_iter (initial_guess n i) s_zero 0)
      as Hlo.
    pose proof (newton_loop_iterations n n_max_iter (initial_guess n i)
                  s_zero 0) as Hhi.
    change n_max_iter with 10 in Hlo at 1. change n_max_iter with 10 in Hhi at 2.
    lia.
  - unfold get_nodes, get_weights. rewrite quadrature_is_after_passes.
    apply after_passes_length.
Qed.

End QuadratureProperties.

(** The replacement of the precision constant of a scalar type. *)
Definition with_precision {Scalar} (ops : ScalarOps Scalar) (p : Scalar)
  : ScalarOps Scalar :=
  {| s_zero := s_zero; s_one := s_one; s_half := s_half; s_add := s_add;
     s_sub := s_sub; s_mul := s_mul; s_div := s_div; s_neg := s_neg;
     s_abs := s_abs; s_lt := s_lt; s_ne := s_ne; s_of_Z := s_of_Z;
     s_cos := s_cos; s_sqrt := s_sqrt; s_pi := s_pi; s_precision := p |}.

(** The quadrature does not depend on the precision constant. *)
Section PrecisionUnused.
Context {Scalar : Type} (ops : ScalarOps Scalar) (p : Scalar).
Import GaussLegendre.

Lemma legendre_with_precision n x :
  legendre (H := with_precision ops p) n x = legendre (H := ops) n x.
Proof. destruct ops. reflexivity. Qed.

Lemma newton_loop_with_precision n remaining x dp_dx cnt :
  newton_loop (H := with_precision ops p) n remaining x dp_dx cnt
  = newton_loop (H := ops) n remaining x dp_dx cnt.
Proof.
  revert x dp_dx cnt.
  induction remaining as [|r IH]; intros x dp_dx cnt; [done|].
  cbn [newton_loop]. rewrite legendre_with_precision.
  destruct (legendre n x) as [p_l p_l_1].
  rewrite IH. destruct ops. reflexivity.
Qed.

Lemma find_node_with_precision n i :
  find_node (H := with_precision ops p) n i = find_node (H := ops) n i.
Proof.
  unfold find_node. rewrite newton_loop_with_precision.
  destruct ops. reflexivity.
Qed.

Lemma outer_step_with_precision n st i :
  outer_step (H := with_precision ops p) n st i
  = outer_step (H := ops) n st i.
Proof.
  unfold outer_step, node_x, node_weight.
  rewrite find_node_with_precision. destruct ops. reflexivity.
Qed.

Lemma quadrature_with_precision degree :
  GaussLegendreQuadrature (H := with_precision ops p) degree
  = GaussLegendreQuadrature (H := ops) degree.
Proof.
  unfold GaussLegendreQuadrature, calculate_nodes_and_weights. cbv zeta.
  replace (replicate degree (s_zero (ScalarOps := with_precision ops p)))
    with (replicate degree (s_zero (ScalarOps := ops)))
    by (destruct ops; reflexivity).
  generalize (replicate degree (s_zero (ScalarOps := ops))) as zeros.
  intros zeros. generalize (zeros, zeros) as st.
  generalize (seq 1 ((degree + 1) / 2)) as passes.
  induction passes as [|i passes IH]; intros st; cbn [foldl].
  - reflexivity.
  - rewrite outer_step_with_precision. apply IH.
Qed.
End PrecisionUnused.

(** C8, at degree 2 in [double]: the fourth pass of the Newton loop of
    the first node moves [x] by less than the precision of the scalar
    type, and the loop still makes all 10 passes: its test compares
    [dx] with [0.5 * (x + x_old)], which is negative at a negative node.
    For every scalar type, the nodes and weights are the same under any
    other precision constant: the constant is read and never used. *)
Theorem precision_is_not_consulted :
  (PrimFloat.ltb (PrimFloat.abs (double_pass 4 - double_pass 3))
     (s_precision (ScalarOps := DoubleScalar.ops)) = true ∧
   PrimFloat.ltb (0.5 * (double_pass 4 + double_pass 3)) 0 = true ∧
   GaussLegendre.nr_iterations
     (GaussLegendre.find_node (H := DoubleScalar.ops) 2 1) = 10%nat)%float ∧
  (∀ Scalar (ops : ScalarOps Scalar) (p : Scalar) (degree : nat),
     GaussLegendre.GaussLegendreQuadrature (H := with_precision ops p) degree
     = GaussLegendre.GaussLegendreQuadrature (H := ops) degree).
Proof.
  split; [vm_compute; done | apply @quadrature_with_precision].
Qed.

(** ** Running a computation on a store *)

Section Run.
Context {Scalar : Type}.
Implicit Types σ : Store Scalar.

Lemma bind_run {A B} (m : M Scalar A) (k : A → M Scalar B) σ a σ' :
  m σ = (Ok a, σ') → bind m k σ = k a σ'.
Proof. unfold bind. by intros ->. Qed.


Lemma get_vector_run σ p v :
  vectors σ !! p = Some v → get_vector p σ = (Ok v, σ).
Proof. unfold get_vector, from_option, lift. by intros ->. Qed.

Lemma get_sht_run σ p s : shts σ !! p = Some s → get_sht p σ = (Ok s, σ).
Proof. unfold get_sht, from_option, lift. by intros ->. Qed.

Lemma get_tensor_run σ p t :
  tensors σ !! p = Some t → get_tensor p σ = (Ok t, σ).
Proof. unfold get_tensor, from_option, lift. by intros ->. Qed.

Lemma get_cmplx_tensor_run σ p t :
  cmplx_tensors σ !! p = Some t → get_cmplx_tensor p σ = (Ok t, σ).
Proof. unfold get_cmplx_tensor, from_option, lift. by intros ->. Qed.

Lemma get_vectors_run σ ps vs :
  grids_at σ ps vs → get_vectors ps σ = (Ok vs, σ).
Proof.
  induction 1 as [|p v ps vs Hp _ IH]; simpl; [done|].
  rewrite (bind_run _ _ _ _ _ (get_vector_run _ _ _ Hp)).
  by rewrite (bind_run _ _ _ _ _ IH).
Qed.
End Run.

(** ** The gridded field *)

Section GriddedProperties.
Context {Scalar : Type} `{ScalarOps Scalar} `{External Scalar}.
Local Open Scope scalar_scope.
Import FieldGridded.
Implicit Types σ : Store Scalar.

(** The state of the store after
    [set_number_of_scattering_coeffs(n)] replaced the data tensor. *)
Lemma set_number_run σ self data n :
  tensors σ !! g_data_ self = Some data →
  dimension data 6 ≠ n →
  let p := fresh (dom (tensors σ)) in
  let data' :=
    eigen_copy (Tensor_new s_zero (<[6 := n]> (dimensions data))) data in
  set_number_of_scattering_coeffs self n σ
  = (Ok (mkGridded (g_base self) (g_f_grid_ self) (g_t_grid_ self)
           (g_lon_inc_ self) (g_lat_inc_ self) (g_lon_scat_ self)
           (g_lat_scat_ self) p),
     mkStore (vectors σ) (shts σ) (<[p := data']> (tensors σ))
       (cmplx_tensors σ)).
Proof.
  intros Hdata Hne p data'. unfold set_number_of_scattering_coeffs.
  rewrite (bind_run _ _ _ _ _ (get_tensor_run _ _ _ Hdata)).
  rewrite decide_False by done.
  unfold bind, make_shared_tensor, get_tensor, from_option, lift, put_tensor,
    ret. cbn [tensors vectors shts cmplx_tensors].
  rewrite lookup_insert_eq. cbn [tensors vectors shts cmplx_tensors].
  by rewrite insert_insert_eq.
Qed.

Lemma resized_coeff (data : Tensor Scalar) n idx :
  coeff (eigen_copy (Tensor_new s_zero (<[6 := n]> (dimensions data))) data)
    idx
  = if decide (in_bounds (dimensions data) idx) then coeff data idx
    else s_zero.
Proof. done. Qed.

(** A coordinate of the resized tensor whose element index lies beyond
    the old element axis is outside the old tensor. *)
Lemma beyond_element_axis (dims idx : list nat) n :
  length dims = 7 →
  in_bounds (<[6 := n]> dims) idx →
  default 0 (dims !! 6) ≤ default 0 (idx !! 6) →
  ¬ in_bounds dims idx.
Proof.
  intros Hlen Hb Hge Hb'.
  destruct (lookup_lt_is_Some_2 dims 6) as [d Hd]; [lia|].
  destruct (lookup_lt_is_Some_2 idx 6) as [e He].
  { rewrite (in_bounds_length _ _ Hb'). lia. }
  pose proof (in_bounds_lookup _ _ _ _ _ Hb' He Hd).
  rewrite Hd, He in Hge. simpl in Hge. lia.
Qed.

Lemma within_shrunk_axis (dims idx : list nat) n :
  n ≤ default 0 (dims !! 6) →
  in_bounds (<[6 := n]> dims) idx → in_bounds dims idx.
Proof.
  unfold in_bounds. intros Hn Hb.
  apply Forall2_same_length_lookup. split.
  { rewrite (Forall2_length _ _ _ Hb). by rewrite length_insert. }
  intros k i d Hi Hd.
  destruct (decide (k = 6)) as [->|Hk].
  - assert (<[6 := n]> dims !! 6 = Some n) as Hn'.
    { apply list_lookup_insert_eq. by apply lookup_lt_Some in Hd. }
    pose proof (Forall2_lookup_lr _ _ _ _ _ _ Hb Hi Hn').
    rewrite Hd in Hn. simpl in Hn. lia.
  - eapply (Forall2_lookup_lr _ _ _ _ _ _ Hb Hi).
    by rewrite list_lookup_insert_ne.
Qed.

(** C4: for a gridded field whose element axis has length [n],
    [set_number_of_scattering_coeffs(n + k)] with [k > 0] leaves the
    first [n] element slices of the data tensor unchanged and sets the
    [k] new ones to zero; [set_number_of_scattering_coeffs(n - k)] with
    [0 < k < n] leaves exactly the first [n - k] element slices
    unchanged; and [set_number_of_scattering_coeffs(n)] leaves the field
    and the store unchanged. *)
Theorem set_number_of_scattering_coeffs_resizes σ self data :
  tensors σ !! g_data_ self = Some data →
  length (dimensions data) = 7 →
  let n := dimension data 6 in
  (∀ k, 0 < k →
     ∃ self' σ' data',
       set_number_of_scattering_coeffs self (n + k) σ = (Ok self', σ') ∧
       tensors σ' !! g_data_ self' = Some data' ∧
       dimensions data' = <[6 := (n + k)%nat]> (dimensions data) ∧
       (∀ idx, in_bounds (dimensions data) idx →
               coeff data' idx = coeff data idx) ∧
       (∀ idx, in_bounds (dimensions data') idx →
               n ≤ default 0 (idx !! 6) → coeff data' idx = s_zero)) ∧
  (∀ k, 0 < k < n →
     ∃ self' σ' data',
       set_number_of_scattering_coeffs self (n - k) σ = (Ok self', σ') ∧
       tensors σ' !! g_data_ self' = Some data' ∧
       dimensions data' = <[6 := (n - k)%nat]> (dimensions data) ∧
       (∀ idx, in_bounds (dimensions data') idx →
               coeff data' idx = coeff data idx)) ∧
  set_number_of_scattering_coeffs self n σ = (Ok self, σ).
Proof.
  intros Hdata Hrank n. split; [|split].
  - intros k Hk. eexists _, _, _. split; [apply set_number_run; [done|]|].
    { fold n. lia. }
    cbn [g_data_ tensors]. rewrite lookup_insert_eq.
    split; [done|]. split; [done|]. split.
    + intros idx Hb. rewrite resized_coeff. by rewrite decide_True.
    + intros idx Hb Hge. rewrite resized_coeff. rewrite decide_False; [done|].
      apply (beyond_element_axis _ _ (n + k)); [done|exact Hb|exact Hge].
  - intros k Hk. eexists _, _, _. split; [apply set_number_run; [done|]|].
    { fold n. lia. }
    cbn [g_data_ tensors]. rewrite lookup_insert_eq.
    split; [done|]. split; [done|].
    intros idx Hb. rewrite resized_coeff. rewrite decide_True; [done|].
    apply (within_shrunk_axis _ _ (n - k)); [|exact Hb].
    fold (dimension data 6). fold n. lia.
  - unfold set_number_of_scattering_coeffs.
    rewrite (bind_run _ _ _ _ _ (get_tensor_run _ _ _ Hdata)).
    by rewrite decide_True.
Qed.

Lemma grids_at_drop σ ps vs n :
  grids_at σ ps vs → grids_at σ (drop n ps) (drop n vs).
Proof. apply Forall2_drop. Qed.

(** The six grids of a well-formed field, one by one. *)
Lemma gridded_wf_grids σ self gs data :
  gridded_wf σ self gs data →
  ∃ g0 g1 g2 g3 g4 g5,
    gs = [g0; g1; g2; g3; g4; g5] ∧
    length g2 = n_lon_inc_ (g_base self) ∧
    length g3 = n_lat_inc_ (g_base self) ∧
    length g4 = n_lon_scat_ (g_base self) ∧
    length g5 = n_lat_scat_ (g_base self).
Proof.
  intros [_ Hs _ _]. cbn zeta in Hs.
  destruct gs as [|g0 [|g1 [|g2 [|g3 [|g4 [|g5 [|]]]]]]]; try done.
  injection Hs as _ _ H2 H3 H4 H5. by exists g0, g1, g2, g3, g4, g5.
Qed.




(** The two loops of [normalize] make one pass per slice. *)
Lemma normalize_loop_flat value integrals dims4 (data : Tensor Scalar) :
  normalize_loop value integrals dims4 data
  = foldl (normalize_pass value integrals) data
      (DimensionCounter (dims4 ++ [dimension data 6])).
Proof.
  rewrite DimensionCounter_snoc, foldl_bind. unfold normalize_loop.
  apply (foldl_ext_inv (λ t, dimensions t = dimensions data)); [|done].
  intros t i Ht.
  assert (dimension t 6 = dimension data 6) as -> by (unfold dimension; by rewrite Ht).
  rewrite foldl_fmap. split.
  - apply (foldl_ext_inv (λ _, True)); [|done]. intros t' j _. split; [|done].
    unfold normalize_pass. rewrite length_app. cbn [length].
    replace (length i + 1 - 1)%nat with (length i) by lia.
    by rewrite take_app_length.
  - rewrite foldl_dimensions; [done|].
    intros t' j. unfold normalize_pass. by destruct (s_ne _ _).
Qed.

Lemma normalize_pass_dimensions value integrals (t : Tensor Scalar) k :
  dimensions (normalize_pass value integrals t k) = dimensions t.
Proof. unfold normalize_pass. by destruct (s_ne _ _). Qed.

Lemma normalize_loop_dimensions value integrals dims4 (data : Tensor Scalar) :
  dimensions (normalize_loop value integrals dims4 data) = dimensions data.
Proof.
  rewrite normalize_loop_flat. apply foldl_dimensions.
  apply normalize_pass_dimensions.
Qed.

(** A coefficient of a slice after [normalize]: scaled by the factor of
    its slice. *)
Lemma normalize_loop_coeff value integrals (data : Tensor Scalar)
    nf nt nli nla d4 d5 ne f t a b p q e :
  dimensions data = [nf; nt; nli; nla; d4; d5; ne] →
  f < nf → t < nt → a < nli → b < nla → p < d4 → q < d5 → e < ne →
  coeff (normalize_loop value integrals [nf; nt; nli; nla] data)
    [f; t; a; b; p; q; e]
  = normalize_factor value integrals [f; t; a; b; e]
      (coeff data [f; t; a; b; p; q; e]).
Proof.
  intros Hd Hf Ht Ha Hb Hp Hq He. rewrite normalize_loop_flat.
  assert (dimension data 6 = ne) as -> by (unfold dimension; by rewrite Hd).
  apply (loop_hit_NoDup (normalize_pass value integrals)
           (dimensions data)
           (λ k idx, covers2 4 (dimensions data) k idx)
           (λ k _ x, normalize_factor value integrals k x)).
  - apply normalize_pass_dimensions.
  - intros t' k idx Ht'. unfold normalize_pass, normalize_factor.
    destruct (s_ne _ _).
    + cbn [update_submatrix coeff]. by rewrite Ht'.
    + by destruct (decide _).
  - done.
  - apply NoDup_DimensionCounter.
  - apply elem_of_DimensionCounter. unfold in_bounds. cbn [app].
    repeat constructor; done.
  - rewrite Hd. unfold covers2. cbn. repeat split; lia.
  - intros k' (_ & _ & <- & _). done.
Qed.

(** The integrals of all slices. *)
Lemma integrate_scattering_angles_run σ self gs data :
  gridded_wf σ self gs data →
  ∃ integrals,
    integrate_scattering_angles self σ = (Ok integrals, σ) ∧
    ∀ i, in_bounds [n_freqs_ (g_base self); n_temps_ (g_base self);
                    n_lon_inc_ (g_base self); n_lat_inc_ (g_base self);
                    dimension data 6] i →
         coeff integrals i
         = integrate_angles (get_submatrix 4 data i)
             (default [] (gs !! 4))
             ((λ x, - s_cos x) <$> default [] (gs !! 5)).
Proof.
  intros Hwf.
  destruct (gridded_wf_grids _ _ _ _ Hwf)
    as (g0 & g1 & g2 & g3 & g4 & g5 & -> & _).
  destruct Hwf as [Hgs _ Hdata _].
  assert (vectors σ !! g_lon_scat_ self = Some g4) as H4.
  { by eapply (Forall2_lookup_lr _ _ _ 4 _ _ Hgs). }
  assert (vectors σ !! g_lat_scat_ self = Some g5) as H5.
  { by eapply (Forall2_lookup_lr _ _ _ 5 _ _ Hgs). }
  eexists. split.
  - unfold integrate_scattering_angles.
    rewrite (bind_run _ _ _ _ _ (get_tensor_run _ _ _ Hdata)).
    rewrite (bind_run _ _ _ _ _ (get_vector_run _ _ _ H5)).
    rewrite (bind_run _ _ _ _ _ (get_vector_run _ _ _ H4)).
    reflexivity.
  - intros i Hi.
    rewrite (foldl_set_coeff
               (λ i, integrate_angles (get_submatrix 4 data i) g4
                       ((λ x, - s_cos x) <$> g5))).
    rewrite decide_True; [done|]. by apply elem_of_DimensionCounter.
Qed.

(** [normalize] on the store, and the integrals it starts from. *)
Lemma normalize_run σ self gs data value :
  gridded_wf σ self gs data →
  let b := g_base self in
  ∃ before,
    integrate_scattering_angles self σ = (Ok before, σ) ∧
    (∀ i, in_bounds [n_freqs_ b; n_temps_ b; n_lon_inc_ b; n_lat_inc_ b;
                     dimension data 6] i →
          coeff before i
          = integrate_angles (get_submatrix 4 data i) (default [] (gs !! 4))
              ((λ x, - s_cos x) <$> default [] (gs !! 5))) ∧
    let data' := normalize_loop value before
                   [n_freqs_ b; n_temps_ b; n_lon_inc_ b; n_lat_inc_ b] data in
    normalize self value σ = (Ok tt, with_tensor σ (g_data_ self) data') ∧
    gridded_wf (with_tensor σ (g_data_ self) data') self gs data'.
Proof.
  intros Hwf b.
  destruct (integrate_scattering_angles_run _ _ _ _ Hwf)
    as (before & Hrun & Hbefore).
  pose proof Hwf as [Hgs Hsizes Hdata Hd]. cbn zeta in Hd.
  exists before. split; [done|]. split; [done|]. cbn zeta. split.
  - unfold normalize. rewrite (bind_run _ _ _ _ _ Hrun).
    by rewrite (bind_run _ _ _ _ _ (get_tensor_run _ _ _ Hdata)).
  - split; [done|done|apply lookup_insert_eq|].
    cbn zeta. unfold dimension. by rewrite !normalize_loop_dimensions.
Qed.


End GriddedProperties.

(** ** Truncations *)

Lemma NoDup_lm_list sht : NoDup (lm_list sht).
Proof.
  unfold lm_list. apply NoDup_bind; [| |apply NoDup_seq].
  - intros m1 m2 lm _ _ (? & -> & _)%list_elem_of_fmap
      (? & [= _ ->] & _)%list_elem_of_fmap. done.
  - intros m _. apply NoDup_fmap_2; [|apply NoDup_seq]. by intros ?? [= ->].
Qed.

Lemma lm_index_present sht lm k :
  lm_list sht !! k = Some lm → lm_index sht lm = Some k.
Proof.
  intros Hk. unfold lm_index.
  destruct (list_find (λ x, x = lm) (lm_list sht)) as [[j y]|] eqn:Hfind.
  - apply list_find_Some in Hfind as (Hj & -> & _). simpl. f_equal.
    by eapply NoDup_lookup; [apply NoDup_lm_list|..].
  - apply list_find_None in Hfind.
    by apply (Forall_lookup_1 _ _ _ _ Hfind) in Hk.
Qed.

Lemma lm_index_absent sht lm : lm ∉ lm_list sht → lm_index sht lm = None.
Proof.
  intros Hnot. unfold lm_index.
  destruct (list_find (λ x, x = lm) (lm_list sht)) as [[j y]|] eqn:Hfind;
    [|done].
  apply list_find_Some in Hfind as (Hj & -> & _).
  destruct Hnot. by eapply list_elem_of_lookup_2.
Qed.

(** The coefficient of degree [l] and order [m] is present in a truncation
    exactly when [m <= m_max] and [m <= l <= l_max]. *)
Lemma elem_of_lm_list sht l m :
  (l, m) ∈ lm_list sht ↔ m ≤ m_max sht ∧ m ≤ l ≤ l_max sht.
Proof.
  unfold lm_list. rewrite list_elem_of_bind. split.
  - intros (m' & (l' & [= -> ->] & Hl%elem_of_seq)%list_elem_of_fmap
            & Hm%elem_of_seq). lia.
  - intros [Hm Hl]. exists m. split; [|apply elem_of_seq; lia].
    apply list_elem_of_fmap. exists l. split; [done|apply elem_of_seq; lia].
Qed.

Lemma covers1_splice1 m dims i idx :
  covers1 m dims i idx → splice1 m i (default 0 (idx !! m)) = idx.
Proof.
  intros (Hm & Hlen & <- & _). unfold splice1.
  assert (m < length idx) as Hlt by lia.
  destruct (lookup_lt_is_Some_2 idx m Hlt) as [x Hx]. rewrite Hx. simpl.
  rewrite take_app_length' by (rewrite length_take; lia).
  rewrite drop_app_length' by (rewrite length_take; lia).
  by apply take_drop_middle.
Qed.

Lemma add_coeffs_lookup {A} (add : A → A → A) sht_l (v : list A) sht_r w k x :
  v !! k = Some x →
  add_coeffs add sht_l v sht_r w !! k = Some (add_coeffs_at add sht_l sht_r w k x).
Proof.
  intros Hv. unfold add_coeffs. rewrite list_lookup_imap, Hv. done.
Qed.

Lemma get_subvector_lookup {A} m (t : Tensor A) i k :
  k < dimension t m →
  get_subvector m t i !! k = Some (coeff t (splice1 m i k)).
Proof.
  intros Hk. unfold get_subvector.
  rewrite list_lookup_fmap, lookup_seq_lt by done. done.
Qed.

(** ** The spectral field *)

Section SpectralProperties.
Context {Scalar : Type} `{ScalarOps Scalar} `{External Scalar}.
Local Open Scope scalar_scope.
Import FieldSpectral.
Implicit Types σ : Store Scalar.

(** C2: [integrate_scattering_angles()] of a spectral field returns, for
    every (frequency, temperature, incoming-angle, element) slice, the
    real part of the coefficient at index 0 of the slice times
    [sqrt(4 * pi)].  No synthesis is made: the answer is the same in
    every store that holds the same data tensor, whatever transforms and
    grids it holds, and the store is left as it was. *)
Theorem spectral_integral_is_first_coefficient σ self data :
  cmplx_tensors σ !! s_data_ self = Some data →
  ∃ result,
    integrate_scattering_angles self σ = (Ok result, σ) ∧
    dimensions result = delete 4 (dimensions data) ∧
    (∀ f t a b e,
       coeff result [f; t; a; b; e]
       = c_real (coeff data [f; t; a; b; 0; e]) * s_sqrt (s_of_Z 4 * s_pi)) ∧
    (∀ σ2 : Store Scalar,
       cmplx_tensors σ2 !! s_data_ self = Some data →
       integrate_scattering_angles self σ2 = (Ok result, σ2)).
Proof.
  intros Hdata. eexists. split; [|split; [|split]].
  - unfold integrate_scattering_angles.
    rewrite (bind_run _ _ _ _ _ (get_cmplx_tensor_run _ _ _ Hdata)).
    reflexivity.
  - done.
  - done.
  - intros σ2 Hdata2. unfold integrate_scattering_angles.
    by rewrite (bind_run _ _ _ _ _ (get_cmplx_tensor_run _ _ _ Hdata2)).
Qed.

Lemma spectral_new_run σ f t li la p d g0 g1 g2 g3 sht :
  grids_at σ [f; t; li; la] [g0; g1; g2; g3] →
  shts σ !! p = Some sht →
  new f t li la p d σ
  = (Ok (mkSpectral
           (ScatteringDataFieldBase_new (length g0) (length g1) (length g2)
              (length g3) (get_n_longitudes sht) (get_n_latitudes sht))
           f t li la p d), σ).
Proof.
  intros Hgs Hsht. unfold new.
  assert (vectors σ !! f = Some g0) as V0
    by (by eapply (Forall2_lookup_lr _ _ _ 0 _ _ Hgs)).
  assert (vectors σ !! t = Some g1) as V1
    by (by eapply (Forall2_lookup_lr _ _ _ 1 _ _ Hgs)).
  assert (vectors σ !! li = Some g2) as V2
    by (by eapply (Forall2_lookup_lr _ _ _ 2 _ _ Hgs)).
  assert (vectors σ !! la = Some g3) as V3
    by (by eapply (Forall2_lookup_lr _ _ _ 3 _ _ Hgs)).
  rewrite (bind_run _ _ _ _ _ (get_vector_run _ _ _ V0)).
  rewrite (bind_run _ _ _ _ _ (get_vector_run _ _ _ V1)).
  rewrite (bind_run _ _ _ _ _ (get_vector_run _ _ _ V2)).
  rewrite (bind_run _ _ _ _ _ (get_vector_run _ _ _ V3)).
  by rewrite (bind_run _ _ _ _ _ (get_sht_run _ _ _ Hsht)).
Qed.

Lemma add_pass_dimensions sht_l sht_r (regridded_data t : Tensor (Scalar * Scalar)) i :
  dimensions
    (set_subvector 4 t i
       (add_coeffs c_add sht_l (get_subvector 4 t i) sht_r
          (get_subvector 4 regridded_data i)))
  = dimensions t.
Proof. done. Qed.

(** A coefficient after the loop of [operator+=]. *)
Lemma add_loop_coeff sht_l sht_r (regridded_data data : Tensor (Scalar * Scalar))
    nf nt nli nla nc ne f t a b k e :
  dimensions data = [nf; nt; nli; nla; nc; ne] →
  f < nf → t < nt → a < nli → b < nla → k < nc → e < ne →
  coeff (add_loop sht_l sht_r [nf; nt; nli; nla; ne] regridded_data data)
    [f; t; a; b; k; e]
  = add_coeffs_at c_add sht_l sht_r
      (get_subvector 4 regridded_data [f; t; a; b; e]) k
      (coeff data [f; t; a; b; k; e]).
Proof.
  intros Hd Hf Ht Ha Hb Hk He. unfold add_loop.
  etrans.
  { apply (loop_hit_NoDup
           (λ t i,
              set_subvector 4 t i
                (add_coeffs c_add sht_l (get_subvector 4 t i) sht_r
                   (get_subvector 4 regridded_data i)))
           (dimensions data)
           (λ i idx, covers1 4 (dimensions data) i idx)
           (λ i idx x,
              add_coeffs_at c_add sht_l sht_r
                (get_subvector 4 regridded_data i) (default 0 (idx !! 4)) x)
           data (DimensionCounter [nf; nt; nli; nla; ne])
           [f; t; a; b; e] [f; t; a; b; k; e]).
  - done.
  - intros t' i idx Ht'. cbn [set_subvector coeff]. rewrite Ht'.
    destruct (decide (covers1 4 (dimensions data) i idx)) as [Hc|]; [|done].
    erewrite add_coeffs_lookup; [done|].
    rewrite get_subvector_lookup.
    + by rewrite (covers1_splice1 _ _ _ _ Hc).
    + destruct Hc as (_ & _ & _ & Hlt). unfold dimension. by rewrite Ht'.
  - done.
  - apply NoDup_DimensionCounter.
  - apply elem_of_DimensionCounter. repeat constructor; done.
  - rewrite Hd. unfold covers1. cbn. repeat split; lia.
  - intros k' (_ & _ & <- & _). done. }
  reflexivity.
Qed.

(** [regrid] allocates the regridded tensor and builds the new field. *)
Lemma spectral_regrid_run σ other f t li la go g0 g1 g2 g3 so data_o data_r :
  grids_at σ [s_f_grid_ other; s_t_grid_ other; s_lon_inc_ other;
              s_lat_inc_ other] go →
  grids_at σ [f; t; li; la] [g0; g1; g2; g3] →
  shts σ !! s_sht_scat_ other = Some so →
  cmplx_tensors σ !! s_data_ other = Some data_o →
  RegularRegridder_cmplx [0; 1; 2; 3] go [g0; g1; g2; g3]
    extrapolate_default data_o
  = Ok data_r →
  let p := fresh (dom (cmplx_tensors σ)) in
  regrid other f t li la σ
  = (Ok (mkSpectral
           (ScatteringDataFieldBase_new (length g0) (length g1) (length g2)
              (length g3) (get_n_longitudes so) (get_n_latitudes so))
           f t li la (s_sht_scat_ other) p),
     mkStore (vectors σ) (shts σ) (tensors σ)
       (<[p := data_r]> (cmplx_tensors σ))).
Proof.
  intros Hgo Hgl Hso Hdo Hr p. unfold regrid.
  rewrite (bind_run _ _ _ _ _ (get_vectors_run _ _ _ Hgo)).
  rewrite (bind_run _ _ _ _ _ (get_vectors_run _ _ _ Hgl)).
  rewrite (bind_run _ _ _ _ _ (get_cmplx_tensor_run _ _ _ Hdo)).
  rewrite (bind_run _ (λ data_interp, _) σ data_r σ)
    by (unfold lift; by rewrite Hr).
  rewrite (bind_run _ _ σ p
             (mkStore (vectors σ) (shts σ) (tensors σ)
                (<[p := data_r]> (cmplx_tensors σ)))) by done.
  by apply spectral_new_run.
Qed.

(** [operator+=]: the data tensor of the left field becomes the
    coefficient-domain sum; nothing else of the store changes. *)
Lemma spectral_add_assign_run σ self other go g0 g1 g2 g3 sl so data data_o
    data_r :
  grids_at σ [s_f_grid_ self; s_t_grid_ self; s_lon_inc_ self;
              s_lat_inc_ self] [g0; g1; g2; g3] →
  grids_at σ [s_f_grid_ other; s_t_grid_ other; s_lon_inc_ other;
              s_lat_inc_ other] go →
  shts σ !! s_sht_scat_ self = Some sl →
  shts σ !! s_sht_scat_ other = Some so →
  cmplx_tensors σ !! s_data_ self = Some data →
  cmplx_tensors σ !! s_data_ other = Some data_o →
  RegularRegridder_cmplx [0; 1; 2; 3] go [g0; g1; g2; g3]
    extrapolate_default data_o
  = Ok data_r →
  let b := s_base self in
  add_assign self other σ
  = (Ok self,
     mkStore (vectors σ) (shts σ) (tensors σ)
       (<[s_data_ self :=
            add_loop sl so
              [n_freqs_ b; n_temps_ b; n_lon_inc_ b; n_lat_inc_ b;
               dimension data 5] data_r data]> (cmplx_tensors σ))).
Proof.
  intros Hgl Hgo Hsl Hso Hd Hdo Hr b. unfold add_assign.
  set (p := fresh (dom (cmplx_tensors σ))).
  assert (cmplx_tensors σ !! p = None) as Hp.
  { apply not_elem_of_dom. apply is_fresh. }
  assert (p ≠ s_data_ self) as Hne by (intros ->; congruence).
  rewrite (bind_run _ _ _ _ _
             (spectral_regrid_run _ _ _ _ _ _ _ _ _ _ _ _ _ _
                Hgo Hgl Hso Hdo Hr)).
  fold p. cbn [s_data_ s_sht_scat_].
  erewrite (bind_run (get_cmplx_tensor (s_data_ self))).
  2:{ apply get_cmplx_tensor_run. cbn [cmplx_tensors].
      rewrite lookup_insert_ne by done. exact Hd. }
  erewrite (bind_run (get_sht (s_sht_scat_ self)));
    [|apply get_sht_run; exact Hsl].
  erewrite (bind_run (get_sht (s_sht_scat_ other)));
    [|apply get_sht_run; exact Hso].
  erewrite (bind_run (get_cmplx_tensor p)).
  2:{ apply get_cmplx_tensor_run. cbn [cmplx_tensors].
      apply lookup_insert_eq. }
  unfold bind, put_cmplx_tensor, release_cmplx_tensor, ret.
  cbn [vectors shts tensors cmplx_tensors]. do 2 f_equal.
  rewrite delete_insert_ne by done.
  rewrite delete_insert_id by done. done.
Qed.

Lemma spectral_wf_grids σ self gs sht data :
  spectral_wf σ self gs sht data →
  ∃ g0 g1 g2 g3,
    gs = [g0; g1; g2; g3] ∧
    length g0 = n_freqs_ (s_base self) ∧
    length g1 = n_temps_ (s_base self) ∧
    length g2 = n_lon_inc_ (s_base self) ∧
    length g3 = n_lat_inc_ (s_base self).
Proof.
  intros [_ Hs _ _ _]. cbn zeta in Hs.
  destruct gs as [|g0 [|g1 [|g2 [|g3 [|]]]]]; try done.
  injection Hs as H0' H1' H2' H3'. by exists g0, g1, g2, g3.
Qed.

(** C6: [to_spectral(sht_other)] of a spectral field pads or truncates
    in coefficient space.  A coefficient whose degree and order are
    present in the old and in the new truncation appears unchanged in
    the result; a position of the new truncation that the old one has
    not holds zero; the result has the positions of the new truncation
    only.  The frequency, temperature and incoming-angle grids and the
    element-axis size are those of the source.  Zero is a left identity
    of the scalar addition, and regridding the data onto the grids it
    already has returns it as it is. *)
Theorem to_spectral_pads_or_truncates
    σ self gs sht data sht_other sht_new data_r :
  (∀ x : Scalar, s_zero + x = x) →
  spectral_wf σ self gs sht data →
  shts σ !! sht_other = Some sht_new →
  RegularRegridder_cmplx [0; 1; 2; 3] gs gs
    extrapolate_default data = Ok data_r →
  dimensions data_r = dimensions data →
  (∀ idx, in_bounds (dimensions data) idx → coeff data_r idx = coeff data idx) →
  ∃ result σ' data',
    to_spectral self sht_other σ = (Ok result, σ') ∧
    cmplx_tensors σ' !! s_data_ result = Some data' ∧
    vectors σ' = vectors σ ∧
    (s_f_grid_ result, s_t_grid_ result, s_lon_inc_ result, s_lat_inc_ result)
    = (s_f_grid_ self, s_t_grid_ self, s_lon_inc_ self, s_lat_inc_ self) ∧
    s_sht_scat_ result = sht_other ∧
    (n_freqs_ (s_base result), n_temps_ (s_base result),
     n_lon_inc_ (s_base result), n_lat_inc_ (s_base result))
    = (n_freqs_ (s_base self), n_temps_ (s_base self),
       n_lon_inc_ (s_base self), n_lat_inc_ (s_base self)) ∧
    dimensions data'
    = <[4 := get_n_spectral_coeffs sht_new]> (dimensions data) ∧
    dimension data' 5 = dimension data 5 ∧
    ∀ f t a b e k lm,
      f < n_freqs_ (s_base self) → t < n_temps_ (s_base self) →
      a < n_lon_inc_ (s_base self) → b < n_lat_inc_ (s_base self) →
      e < dimension data 5 →
      lm_list sht_new !! k = Some lm →
      (∀ k', lm_list sht !! k' = Some lm →
             coeff data' [f; t; a; b; k; e] = coeff data [f; t; a; b; k'; e]) ∧
      (lm ∉ lm_list sht → coeff data' [f; t; a; b; k; e] = c_zero).
Proof.
  intros Hzero Hwf Hnew Hregrid Hrd Hrc.
  destruct (spectral_wf_grids _ _ _ _ _ Hwf)
    as (g0 & g1 & g2 & g3 & -> & L0 & L1 & L2 & L3).
  destruct Hwf as [Hgs _ Hsht Hdata Hd]. cbn zeta in Hd.
  set (b := s_base self) in *.
  set (nnew := get_n_spectral_coeffs sht_new).
  set (zeros := setZero c_zero
                  (Tensor_new c_zero (<[4 := nnew]> (dimensions data)))).
  set (p := fresh (dom (cmplx_tensors σ))).
  set (σ1 := mkStore (vectors σ) (shts σ) (tensors σ)
               (<[p := zeros]> (cmplx_tensors σ))).
  set (result := mkSpectral
                   (ScatteringDataFieldBase_new (length g0) (length g1)
                      (length g2) (length g3) (get_n_longitudes sht_new)
                      (get_n_latitudes sht_new))
                   (s_f_grid_ self) (s_t_grid_ self) (s_lon_inc_ self)
                   (s_lat_inc_ self) sht_other p).
  assert (cmplx_tensors σ !! p = None) as Hp.
  { apply not_elem_of_dom. apply is_fresh. }
  assert (p ≠ s_data_ self) as Hne by (intros ->; congruence).
  assert (dimensions zeros
          = [n_freqs_ b; n_temps_ b; n_lon_inc_ b; n_lat_inc_ b; nnew;
             dimension data 5]) as Hzd.
  { unfold zeros. cbn [setZero Tensor_new dimensions]. by rewrite Hd. }
  set (sum := add_loop sht_new sht
                [n_freqs_ (s_base result); n_temps_ (s_base result);
                 n_lon_inc_ (s_base result); n_lat_inc_ (s_base result);
                 dimension zeros 5] data_r zeros).
  exists result,
    (mkStore (vectors σ) (shts σ) (tensors σ)
       (<[p := sum]> (<[p := zeros]> (cmplx_tensors σ)))), sum.
  split.
  { unfold to_spectral.
    rewrite (bind_run _ _ _ _ _ (get_cmplx_tensor_run _ _ _ Hdata)).
    rewrite (bind_run _ _ _ _ _ (get_sht_run _ _ _ Hnew)).
    rewrite (bind_run _ _ σ p σ1) by done.
    rewrite (bind_run _ _ σ1 result σ1)
      by (by apply spectral_new_run).
    erewrite (bind_run (add_assign result self)); [reflexivity|].
    apply (spectral_add_assign_run σ1 result self [g0; g1; g2; g3]
             g0 g1 g2 g3 sht_new sht zeros data data_r); try done.
    - apply lookup_insert_eq.
    - cbn [σ1 cmplx_tensors]. by rewrite lookup_insert_ne. }
  split; [apply lookup_insert_eq|]. split; [done|]. split; [done|].
  split; [done|].
  split; [cbn [result s_base ScatteringDataFieldBase_new n_freqs_ n_temps_
               n_lon_inc_ n_lat_inc_]; by rewrite L0, L1, L2, L3|].
  assert (dimensions sum = dimensions zeros) as Hsd
    by (unfold sum, add_loop; by apply foldl_dimensions).
  split; [by rewrite Hsd|].
  split; [unfold dimension; by rewrite Hsd, Hzd, Hd|].
  intros f t a c e k lm Hf Ht Ha Hc He Hk.
  assert (k < nnew) as Hklt by (by apply lookup_lt_Some in Hk).
  assert (coeff sum [f; t; a; c; k; e]
          = add_coeffs_at c_add sht_new sht
              (get_subvector 4 data_r [f; t; a; c; e]) k c_zero) as Hsum.
  { unfold sum.
    cbn [result s_base ScatteringDataFieldBase_new n_freqs_ n_temps_
         n_lon_inc_ n_lat_inc_].
    rewrite L0, L1, L2, L3.
    replace (dimension zeros 5) with (dimension data 5)
      by (unfold dimension; by rewrite Hzd).
    by rewrite (add_loop_coeff _ _ _ _ _ _ _ _ _ _ _ _ _ _ _ _ Hzd). }
  rewrite Hsum. unfold add_coeffs_at. rewrite Hk. split.
  - intros k' Hk'. rewrite (lm_index_present _ _ _ Hk').
    assert (k' < get_n_spectral_coeffs sht) as Hk'lt
      by (by apply lookup_lt_Some in Hk').
    rewrite get_subvector_lookup
      by (unfold dimension; by rewrite Hrd, Hd).
    unfold splice1. cbn [take drop app].
    rewrite Hrc.
    2:{ rewrite Hd. unfold in_bounds.
        repeat (apply Forall2_cons_2; [done|]). constructor. }
    unfold c_add, c_zero. cbn [fst snd]. rewrite !Hzero.
    by destruct (coeff data _).
  - intros Hnot. by rewrite (lm_index_absent _ _ Hnot).
Qed.

End SpectralProperties.

(** ** What the mutating operations leave alone *)

Section Frame.
Context {Scalar : Type} `{ScalarOps Scalar} `{External Scalar}.
Implicit Types σ : Store Scalar.

Lemma keeps_ret {A} (a : A) : keeps_grids (Scalar := Scalar) (ret a).
Proof. done. Qed.

Lemma keeps_lift {A} (r : result A) : keeps_grids (Scalar := Scalar) (lift r).
Proof. done. Qed.

Lemma keeps_bind {A B} (m : M Scalar A) (k : A → M Scalar B) :
  keeps_grids m → (∀ a, keeps_grids (k a)) → keeps_grids (bind m k).
Proof.
  intros Hm Hk σ. unfold bind. specialize (Hm σ).
  destruct (m σ) as [[a|e] σ1]; cbn [fst snd] in *; [|done].
  destruct (Hk a σ1) as [Hv Hs]. by rewrite Hv, Hs.
Qed.

Lemma keeps_from_option {A} (o : option A) :
  keeps_grids (Scalar := Scalar) (from_option o).
Proof. done. Qed.

Lemma keeps_get_vector p : keeps_grids (Scalar := Scalar) (get_vector p).
Proof. done. Qed.
Lemma keeps_get_sht p : keeps_grids (Scalar := Scalar) (get_sht p).
Proof. done. Qed.
Lemma keeps_get_tensor p : keeps_grids (Scalar := Scalar) (get_tensor p).
Proof. done. Qed.
Lemma keeps_get_cmplx_tensor p :
  keeps_grids (Scalar := Scalar) (get_cmplx_tensor p).
Proof. done. Qed.
Lemma keeps_put_tensor p (t : Tensor Scalar) : keeps_grids (put_tensor p t).
Proof. done. Qed.
Lemma keeps_put_cmplx_tensor p (t : Tensor (Scalar * Scalar)) :
  keeps_grids (put_cmplx_tensor p t).
Proof. done. Qed.
Lemma keeps_make_shared_tensor (t : Tensor Scalar) :
  keeps_grids (make_shared_tensor t).
Proof. done. Qed.
Lemma keeps_make_shared_cmplx_tensor (t : Tensor (Scalar * Scalar)) :
  keeps_grids (make_shared_cmplx_tensor t).
Proof. done. Qed.
Lemma keeps_release_tensor p :
  keeps_grids (Scalar := Scalar) (release_tensor p).
Proof. done. Qed.
Lemma keeps_release_cmplx_tensor p :
  keeps_grids (Scalar := Scalar) (release_cmplx_tensor p).
Proof. done. Qed.

Lemma keeps_get_vectors ps : keeps_grids (Scalar := Scalar) (get_vectors ps).
Proof.
  induction ps as [|p ps IH]; cbn [get_vectors]; [apply keeps_ret|].
  apply keeps_bind; [apply keeps_get_vector|intros v].
  apply keeps_bind; [apply IH|intros vs]. apply keeps_ret.
Qed.

Lemma returns_ret {A} (a : A) (P : A → Prop) :
  P a → returns (Scalar := Scalar) (ret a) P.
Proof. intros HP σ a' [= <-]. done. Qed.

Lemma returns_bind {A B} (m : M Scalar A) (k : A → M Scalar B) P :
  (∀ a, returns (k a) P) → returns (bind m k) P.
Proof.
  intros Hk σ b. unfold bind.
  destruct (m σ) as [[a|e] σ1]; cbn [fst]; [apply Hk|done].
Qed.
End Frame.

Create HintDb frame discriminated.
#[export] Hint Resolve keeps_ret keeps_lift keeps_from_option keeps_get_vector
  keeps_get_sht keeps_get_tensor keeps_get_cmplx_tensor keeps_put_tensor
  keeps_put_cmplx_tensor keeps_make_shared_tensor
  keeps_make_shared_cmplx_tensor keeps_release_tensor
  keeps_release_cmplx_tensor keeps_get_vectors : frame.

(** Every step of a computation keeps the grids. *)
Ltac keeps_steps :=
  repeat first
    [ apply keeps_bind; [|intros ?]
    | case_decide
    | solve [auto with frame] ].

(** The value returned is the one of the last step. *)
Ltac returns_steps :=
  repeat first
    [ apply returns_bind; intros ?
    | case_decide
    | apply returns_ret ].

Section FrameOfFields.
Context {Scalar : Type} `{ScalarOps Scalar} `{External Scalar}.
Implicit Types σ : Store Scalar.

Lemma gridded_new_keeps f t li la lo ls d :
  keeps_grids (Scalar := Scalar) (FieldGridded.new f t li la lo ls d).
Proof. unfold FieldGridded.new. keeps_steps. Qed.

Lemma gridded_regrid_keeps self f t li la lo ls :
  keeps_grids (Scalar := Scalar) (FieldGridded.regrid self f t li la lo ls).
Proof.
  unfold FieldGridded.regrid. keeps_steps; try apply gridded_new_keeps.
Qed.

Lemma spectral_new_keeps f t li la p d :
  keeps_grids (Scalar := Scalar) (FieldSpectral.new f t li la p d).
Proof. unfold FieldSpectral.new. keeps_steps. Qed.

Lemma spectral_regrid_keeps self f t li la :
  keeps_grids (Scalar := Scalar) (FieldSpectral.regrid self f t li la).
Proof.
  unfold FieldSpectral.regrid. keeps_steps; try apply spectral_new_keeps.
Qed.

Lemma spectral_integrate_keeps self :
  keeps_grids (Scalar := Scalar) (FieldSpectral.integrate_scattering_angles self).
Proof. unfold FieldSpectral.integrate_scattering_angles. keeps_steps. Qed.

Lemma gridded_integrate_keeps self :
  keeps_grids (Scalar := Scalar) (FieldGridded.integrate_scattering_angles self).
Proof. unfold FieldGridded.integrate_scattering_angles. keeps_steps. Qed.

Lemma fully_spectral_new_keeps f t si ss d :
  keeps_grids (Scalar := Scalar) (FieldFullySpectral.new f t si ss d).
Proof. unfold FieldFullySpectral.new. keeps_steps. Qed.

Lemma fully_spectral_regrid_keeps self f t :
  keeps_grids (Scalar := Scalar) (FieldFullySpectral.regrid self f t).
Proof.
  unfold FieldFullySpectral.regrid. keeps_steps;
  try apply fully_spectral_new_keeps.
Qed.

(** C7: the mutating operations [operator+=], [operator*=], [normalize]
    and [set_number_of_scattering_coeffs] of the three variants change
    data tensors only.  Whatever their outcome, every grid and every
    transform of the store (those of the field and those other fields
    hold) is as before; and the field they return holds the same grid
    pointers, the same sizes and the same particle type. *)
Theorem mutations_keep_grids_and_type :
  (∀ (self other : ScatteringDataFieldGridded) (c : Scalar) (n : nat),
     (keeps_grids (Scalar := Scalar) (FieldGridded.add_assign self other) ∧
      returns (Scalar := Scalar) (FieldGridded.add_assign self other) (same_grids_gridded self)) ∧
     (keeps_grids (Scalar := Scalar) (FieldGridded.mul_assign self c) ∧
      returns (Scalar := Scalar) (FieldGridded.mul_assign self c) (same_grids_gridded self)) ∧
     keeps_grids (Scalar := Scalar) (FieldGridded.normalize self c) ∧
     (keeps_grids (Scalar := Scalar) (FieldGridded.set_number_of_scattering_coeffs self n) ∧
      returns (Scalar := Scalar) (FieldGridded.set_number_of_scattering_coeffs self n)
        (same_grids_gridded self))) ∧
  (∀ (self other : ScatteringDataFieldSpectral) (c : Scalar) (n : nat),
     (keeps_grids (Scalar := Scalar) (FieldSpectral.add_assign self other) ∧
      returns (Scalar := Scalar) (FieldSpectral.add_assign self other) (same_grids_spectral self)) ∧
     (keeps_grids (Scalar := Scalar) (FieldSpectral.mul_assign self c) ∧
      returns (Scalar := Scalar) (FieldSpectral.mul_assign self c) (same_grids_spectral self)) ∧
     keeps_grids (Scalar := Scalar) (FieldSpectral.normalize self c) ∧
     (keeps_grids (Scalar := Scalar) (FieldSpectral.set_number_of_scattering_coeffs self n) ∧
      returns (Scalar := Scalar) (FieldSpectral.set_number_of_scattering_coeffs self n)
        (same_grids_spectral self))) ∧
  (∀ (self other : ScatteringDataFieldFullySpectral) (c : Scalar) (n : nat),
     (keeps_grids (Scalar := Scalar) (FieldFullySpectral.add_assign self other) ∧
      returns (Scalar := Scalar) (FieldFullySpectral.add_assign self other)
        (same_grids_fully_spectral self)) ∧
     (keeps_grids (Scalar := Scalar) (FieldFullySpectral.mul_assign self c) ∧
      returns (Scalar := Scalar) (FieldFullySpectral.mul_assign self c)
        (same_grids_fully_spectral self)) ∧
     (keeps_grids (Scalar := Scalar) (FieldFullySpectral.set_number_of_scattering_coeffs self n) ∧
      returns (Scalar := Scalar) (FieldFullySpectral.set_number_of_scattering_coeffs self n)
        (same_grids_fully_spectral self))).
Proof.
  split; [|split]; intros self other c n.
  - refine (conj (conj _ _) (conj (conj _ _) (conj _ (conj _ _)))).
    + unfold FieldGridded.add_assign. keeps_steps; try apply gridded_regrid_keeps.
    + unfold FieldGridded.add_assign. returns_steps; done.
    + unfold FieldGridded.mul_assign. keeps_steps.
    + unfold FieldGridded.mul_assign. returns_steps; done.
    + unfold FieldGridded.normalize. keeps_steps;
      try apply gridded_integrate_keeps.
    + unfold FieldGridded.set_number_of_scattering_coeffs. keeps_steps.
    + unfold FieldGridded.set_number_of_scattering_coeffs. returns_steps;
        done.
  - refine (conj (conj _ _) (conj (conj _ _) (conj _ (conj _ _)))).
    + unfold FieldSpectral.add_assign. keeps_steps;
      try apply spectral_regrid_keeps.
    + unfold FieldSpectral.add_assign. returns_steps; done.
    + unfold FieldSpectral.mul_assign. keeps_steps.
    + unfold FieldSpectral.mul_assign. returns_steps; done.
    + unfold FieldSpectral.normalize. keeps_steps;
      try apply spectral_integrate_keeps.
    + unfold FieldSpectral.set_number_of_scattering_coeffs. keeps_steps.
    + unfold FieldSpectral.set_number_of_scattering_coeffs. returns_steps;
        done.
  - refine (conj (conj _ _) (conj (conj _ _) (conj _ _))).
    + unfold FieldFullySpectral.add_assign. keeps_steps;
      try apply fully_spectral_regrid_keeps.
    + unfold FieldFullySpectral.add_assign. returns_steps; done.
    + unfold FieldFullySpectral.mul_assign. keeps_steps.
    + unfold FieldFullySpectral.mul_assign. returns_steps; done.
    + unfold FieldFullySpectral.set_number_of_scattering_coeffs. keeps_steps.
    + unfold FieldFullySpectral.set_number_of_scattering_coeffs.
      returns_steps; done.
Qed.
End FrameOfFields.

(** ** The properties at work: exact arithmetic and the example store *)

Section ExampleFacts.
Import ExactScalar Example.
Local Open Scope Qc_scope.

Lemma weighted_sum_scale ws xs c :
  weighted_sum ws ((λ x, x * c) <$> xs) = weighted_sum ws xs * c.
Proof.
  unfold weighted_sum. revert ws.
  induction xs as [|x xs IH]; intros [|w ws]; cbn; try ring.
  rewrite IH. ring.
Qed.

Lemma integrate_homogeneous (matrix : list (list Qc)) c lon colat :
  integrate (matrix_map (λ x, x * c) matrix) lon colat
  = integrate matrix lon colat * c.
Proof.
  unfold integrate, matrix_map. rewrite <-weighted_sum_scale. f_equal.
  rewrite <-!list_fmap_compose. apply list_fmap_ext.
  intros _ row _. cbn. apply weighted_sum_scale.
Qed.

Lemma integrate_angles_homogeneous (matrix : list (list Qc)) c lon colat :
  integrate_angles (matrix_map (λ x, s_mul x c) matrix) lon colat
  = s_mul (integrate_angles matrix lon colat) c.
Proof. exact (integrate_homogeneous matrix c lon colat). Qed.

Lemma exact_division_ops (x v : Qc) :
  s_ne x s_zero = true → s_mul x (s_div v x) = v.
Proof.
  change (neb x 0 = true → x * (v / x) = v). unfold neb. intros Hne.
  assert (x ≠ 0) as Hx.
  { intros ->. unfold Qc_eq_bool in Hne.
    by destruct (Qc_eq_dec 0 0). }
  by field.
Qed.

Lemma exact_division (x v : Qc) : neb x 0 = true → x * (v / x) = v.
Proof.
  unfold neb. intros Hne. assert (x ≠ 0) as Hx.
  { intros ->. unfold Qc_eq_bool in Hne.
    by destruct (Qc_eq_dec 0 0). }
  by field.
Qed.

Lemma zero_plus (x : Qc) : s_add s_zero x = x.
Proof. apply Qcplus_0_l. Qed.

Lemma gridded_regridded_run :
  RegularRegridder [2; 3; 4; 5]%nat (drop 2 gridded_grids)
    (drop 2 gridded_grids) false gridded_data
  = Ok gridded_regridded.
Proof.
  unfold gridded_regridded.
  change (RegularRegridder [2; 3; 4; 5]%nat (drop 2 gridded_grids)
            (drop 2 gridded_grids) false gridded_data)
    with (regrid_axes Qcplus Qcmult [2; 3; 4; 5]%nat (drop 2 gridded_grids)
            (drop 2 gridded_grids) false gridded_data).
  assert (is_Ok (regrid_axes Qcplus Qcmult [2; 3; 4; 5]%nat
                   (drop 2 gridded_grids) (drop 2 gridded_grids) false
                   gridded_data) = true) as Hok by (vm_compute; reflexivity).
  by destruct (regrid_axes _ _ _ _ _ _ _).
Qed.

Lemma spectral_regridded_run :
  RegularRegridder_cmplx [0; 1; 2; 3]%nat spectral_grids spectral_grids
    false spectral_data
  = Ok spectral_regridded.
Proof.
  unfold spectral_regridded.
  change (RegularRegridder_cmplx [0; 1; 2; 3]%nat spectral_grids
            spectral_grids false spectral_data)
    with (regrid_axes c_add c_scale_l [0; 1; 2; 3]%nat spectral_grids
            spectral_grids false spectral_data).
  assert (is_Ok (regrid_axes c_add c_scale_l [0; 1; 2; 3]%nat
                   spectral_grids spectral_grids false spectral_data)
          = true) as Hok by (vm_compute; reflexivity).
  by destruct (regrid_axes _ _ _ _ _ _ _).
Qed.

Lemma gridded_regridded_dimensions :
  dimensions gridded_regridded
  = regridded_dimensions [2; 3; 4; 5]%nat (drop 2 gridded_grids)
      (dimensions gridded_data).
Proof. vm_compute. reflexivity. Qed.

Lemma spectral_regridded_dimensions :
  dimensions spectral_regridded = dimensions spectral_data.
Proof. vm_compute. reflexivity. Qed.

Lemma gridded_field_wf :
  gridded_wf store gridded_field gridded_grids gridded_data.
Proof. split; [repeat constructor|reflexivity..]. Qed.

Lemma spectral_field_wf :
  spectral_wf store spectral_field spectral_grids (mkSHT 1 1 4 4)
    spectral_data.
Proof. split; [repeat constructor|reflexivity..]. Qed.






End ExampleFacts.

(** ** The rounding of [double] *)

Section DoubleFacts.
Import DoubleScalar DoubleExample.

End DoubleFacts.

(** ** Inputs at which the documented behaviour fails *)

Section Counterexamples.
Import ExactScalar Example SliceExample.

End Counterexamples.

Section DoubleCounterexamples.
Import DoubleScalar DoubleExample.
Local Open Scope float_scope.

End DoubleCounterexamples.

Section Witnesses.
Import ExactScalar Example SliceExample.
Local Open Scope Qc_scope.


(** C2 on the example store. *)
Lemma spectral_integral_witness :
  ∃ result,
    FieldSpectral.integrate_scattering_angles spectral_field store
    = (Ok result, store) ∧
    dimensions result = [1; 1; 1; 1; 1]%nat ∧
    coeff result [0; 0; 0; 0; 0]%nat = of_Z 2 * sqrt (of_Z 4 * Q2Qc (355 # 113)).
Proof.
  destruct (spectral_integral_is_first_coefficient store spectral_field
              spectral_data eq_refl) as (result & Hrun & Hd & Hc & _).
  exists result. split; [exact Hrun|]. split; [exact Hd|]. apply Hc.
Defined.

(** C4 on the example store, whose gridded field has two elements. *)
Lemma set_number_of_scattering_coeffs_witness :
  (∃ self' σ' data',
     FieldGridded.set_number_of_scattering_coeffs gridded_field 3 store
     = (Ok self', σ') ∧
     tensors σ' !! g_data_ self' = Some data' ∧
     dimensions data' = [1; 1; 1; 1; 2; 2; 3]%nat ∧
     coeff data' [0; 0; 0; 0; 1; 1; 1]%nat
     = coeff gridded_data [0; 0; 0; 0; 1; 1; 1]%nat ∧
     coeff data' [0; 0; 0; 0; 1; 1; 2]%nat = 0) ∧
  FieldGridded.set_number_of_scattering_coeffs gridded_field 2 store
  = (Ok gridded_field, store).
Proof.
  destruct (set_number_of_scattering_coeffs_resizes store gridded_field
              gridded_data eq_refl eq_refl) as (Hgrow & _ & Hsame).
  split; [|exact Hsame].
  destruct (Hgrow 1%nat) as (self' & σ' & data' & Hrun & Hl & Hd & Hold & Hnew);
    [lia|].
  exists self', σ', data'. split; [exact Hrun|]. split; [exact Hl|].
  split; [exact Hd|]. split.
  - apply Hold. repeat constructor.
  - apply Hnew; [rewrite Hd; repeat constructor|vm_compute; lia].
Defined.


Lemma spectral_regridded_same idx :
  in_bounds (dimensions spectral_data) idx →
  coeff spectral_regridded idx = coeff spectral_data idx.
Proof.
  intros Hb.
  apply Forall2_cons_inv_r in Hb as (a & idx1 & Ha & Hb & ->).
  apply Forall2_cons_inv_r in Hb as (b & idx2 & Hb' & Hb & ->).
  apply Forall2_cons_inv_r in Hb as (c & idx3 & Hc & Hb & ->).
  apply Forall2_cons_inv_r in Hb as (d & idx4 & Hd & Hb & ->).
  apply Forall2_cons_inv_r in Hb as (k & idx5 & Hk & Hb & ->).
  apply Forall2_cons_inv_r in Hb as (e & idx6 & He & Hb & ->).
  apply Forall2_nil_inv_r in Hb as ->.
  assert (a = 0 ∧ b = 0 ∧ c = 0 ∧ d = 0 ∧ e = 0)%nat
    as (-> & -> & -> & -> & ->) by lia.
  destruct k as [|[|[|k]]]; [vm_compute; reflexivity..|lia].
Qed.

(** C6 on the example store: from the truncation (1, 1) to (2, 1). *)
Lemma to_spectral_witness :
  ∃ result σ' data',
    FieldSpectral.to_spectral spectral_field 2%positive store
    = (Ok result, σ') ∧
    cmplx_tensors σ' !! s_data_ result = Some data' ∧
    dimensions data' = [1; 1; 1; 1; 5; 1]%nat ∧
    coeff data' [0; 0; 0; 0; 1; 0]%nat
    = coeff spectral_data [0; 0; 0; 0; 1; 0]%nat ∧
    coeff data' [0; 0; 0; 0; 2; 0]%nat = c_zero.
Proof.
  destruct (to_spectral_pads_or_truncates store spectral_field
              spectral_grids (mkSHT 1 1 4 4) spectral_data 2%positive
              (mkSHT 2 1 4 4) spectral_regridded zero_plus
              spectral_field_wf eq_refl spectral_regridded_run
              spectral_regridded_dimensions spectral_regridded_same)
    as (result & σ' & data' & Hrun & Hl & _ & _ & _ & _ & Hd & _ & Hall).
  exists result, σ', data'. split; [exact Hrun|]. split; [exact Hl|].
  split; [exact Hd|]. split.
  - apply (Hall 0 0 0 0 0 1 (1, 0) ltac:(vm_compute; lia)
             ltac:(vm_compute; lia) ltac:(vm_compute; lia)
             ltac:(vm_compute; lia) ltac:(vm_compute; lia) eq_refl)%nat.
    reflexivity.
  - apply (Hall 0 0 0 0 0 2 (2, 0) ltac:(vm_compute; lia)
             ltac:(vm_compute; lia) ltac:(vm_compute; lia)
             ltac:(vm_compute; lia) ltac:(vm_compute; lia) eq_refl)%nat.
    rewrite elem_of_lm_list. cbn. lia.
Defined.

(** C9 at degree 3, for the first and the last node. *)
Lemma quadrature_symmetric_witness :
  ∃ x w : Qc,
    GaussLegendre.get_nodes 3 !! 0%nat = Some x ∧
    GaussLegendre.get_nodes 3 !! 2%nat = Some (- x) ∧
    GaussLegendre.get_weights 3 !! 0%nat = Some w ∧
    GaussLegendre.get_weights 3 !! 2%nat = Some w.
Proof.
  apply (quadrature_symmetric (H := ExactScalar.ops) 3 0 Qcopp_involutive);
    lia.
Defined.

(** C10 at degree 3, for the first node. *)
Lemma newton_at_most_10_iterations_witness :
  (1 ≤ GaussLegendre.nr_iterations
         (GaussLegendre.find_node (H := ExactScalar.ops) 3 1) ≤ 10)%nat ∧
  length (GaussLegendre.get_nodes (H := ExactScalar.ops) 3) = 3%nat.
Proof.
  destruct (newton_at_most_10_iterations (H := ExactScalar.ops) 3 1)
    as (_ & Hit & Hn & _); [lia|].
  split; [exact Hit|exact Hn].
Defined.
End Witnesses.

(** * Further properties of the code *)

(** ** The quadrature, entry by entry *)

Section QuadratureEntries.
Context {Scalar : Type} `{ScalarOps Scalar}.
Local Open Scope scalar_scope.
Import GaussLegendre.

Lemma outer_passes_length n st m :
  length (foldl (outer_step n) st (seq 1 m)).1 = length st.1 ∧
  length (foldl (outer_step n) st (seq 1 m)).2 = length st.2.
Proof.
  induction m as [|m [IH1 IH2]]; [done|].
  rewrite seq_S, foldl_snoc.
  destruct (foldl (outer_step n) st (seq 1 m)) as [ns ws].
  unfold outer_step. cbn [fst snd] in *. by rewrite !length_insert.
Qed.

(** What the first [m] passes have written, from any initial content of
    the two vectors: the pass [i] leaves [- x] at [n - i], and [x] at
    [i - 1] unless the two indices coincide. *)
Lemma outer_passes_entries n st m i :
  length st.1 = n → length st.2 = n →
  2 * m ≤ n + 1 → 1 ≤ i ≤ m →
  let r := foldl (outer_step n) st (seq 1 m) in
  r.1 !! (n - i)%nat = Some (- node_x n i) ∧
  r.2 !! (n - i)%nat = Some (node_weight n i) ∧
  ((i - 1 ≠ n - i)%nat →
   r.1 !! (i - 1)%nat = Some (node_x n i) ∧
   r.2 !! (i - 1)%nat = Some (node_weight n i)).
Proof.
  intros Hl1 Hl2. cbn zeta.
  induction m as [|m IH]; intros Hm Hi; [lia|].
  rewrite seq_S, foldl_snoc.
  pose proof (outer_passes_length n st m) as [Hn1 Hn2].
  destruct (foldl (outer_step n) st (seq 1 m)) as [ns ws].
  unfold outer_step. cbn [fst snd] in *.
  replace (1 + m - 1)%nat with m by lia.
  replace (1 + m)%nat with (S m) by lia.
  destruct (decide (i = S m)) as [->|Hlt].
  - replace (S m - 1)%nat with m by lia.
    rewrite !list_lookup_insert_eq by (rewrite ?length_insert; lia).
    split; [done|]. split; [done|].
    intros Hne. rewrite !(list_lookup_insert_ne _ (n - S m)%nat m) by lia.
    by rewrite !list_lookup_insert_eq by lia.
  - destruct IH as (IH1 & IH2 & IH3); [lia..|].
    rewrite !(list_lookup_insert_ne _ (n - S m)%nat (n - i)%nat) by lia.
    rewrite !(list_lookup_insert_ne _ m (n - i)%nat) by lia.
    split; [done|]. split; [done|]. intros Hne.
    rewrite !(list_lookup_insert_ne _ (n - S m)%nat (i - 1)%nat) by lia.
    rewrite !(list_lookup_insert_ne _ m (i - 1)%nat) by lia.
    by apply IH3.
Qed.

(** X2: every entry of the result of [calculate_nodes_and_weights], from
    any initial content of [nodes_] and [weights_]: in the lower half
    [nodes[k]] is the Newton result of pass [k + 1]; from the middle on it
    is the negated result of pass [n - k] (for odd [n] the middle entry is
    written twice and keeps the negated value); the weights are those of
    the same passes. *)
Theorem quadrature_entries (n k : nat) (nodes_ weights_ : list Scalar) :
  length nodes_ = n → length weights_ = n → k < n →
  let r := calculate_nodes_and_weights n nodes_ weights_ in
  r.1 !! k
  = Some (if decide (k < n - 1 - k) then node_x n (k + 1)
          else - node_x n (n - k)) ∧
  r.2 !! k
  = Some (node_weight n (if decide (k < n - 1 - k) then k + 1 else n - k)%nat).
Proof.
  intros Hl1 Hl2 Hk. cbn zeta. unfold calculate_nodes_and_weights. cbn zeta.
  pose proof (half_nodes_bound n) as Hh.
  destruct (decide (k < n - 1 - k)) as [Hlt|Hge].
  - destruct (outer_passes_entries n (nodes_, weights_) ((n + 1) / 2) (k + 1))
      as (_ & _ & H3); [done|done|done| |].
    { split; [lia|]. apply half_nodes_reach; lia. }
    replace (k + 1 - 1)%nat with k in H3 by lia. apply H3. lia.
  - destruct (outer_passes_entries n (nodes_, weights_) ((n + 1) / 2) (n - k))
      as (H1 & H2 & _); [done|done|done| |].
    { split; [lia|]. pose proof (half_nodes_reach n (n - 1 - k)). lia. }
    replace (n - (n - k))%nat with k in * by lia. done.
Qed.

(** X1: the result of [calculate_nodes_and_weights] does not depend on
    what [nodes_] and [weights_] held before: every entry is
    overwritten. *)
Theorem quadrature_overwrites_every_entry (n : nat)
    (nodes_ weights_ nodes' weights' : list Scalar) :
  length nodes_ = n → length weights_ = n →
  length nodes' = n → length weights' = n →
  calculate_nodes_and_weights n nodes_ weights_
  = calculate_nodes_and_weights n nodes' weights'.
Proof.
  intros H1 H2 H1' H2'.
  pose proof (outer_passes_length n (nodes_, weights_) ((n + 1) / 2)) as [L1 L2].
  pose proof (outer_passes_length n (nodes', weights') ((n + 1) / 2)) as [L1' L2'].
  cbn [fst snd] in *.
  apply injective_projections; apply list_eq; intros k.
  - destruct (decide (k < n)) as [Hk|Hk].
    + destruct (quadrature_entries n k nodes_ weights_) as [-> _]; [done..|].
      by destruct (quadrature_entries n k nodes' weights') as [-> _].
    + rewrite !lookup_ge_None_2; [done|..];
        unfold calculate_nodes_and_weights; cbn zeta; lia.
  - destruct (decide (k < n)) as [Hk|Hk].
    + destruct (quadrature_entries n k nodes_ weights_) as [_ ->]; [done..|].
      by destruct (quadrature_entries n k nodes' weights') as [_ ->].
    + rewrite !lookup_ge_None_2; [done|..];
        unfold calculate_nodes_and_weights; cbn zeta; lia.
Qed.

End QuadratureEntries.

(** ** The test of the Newton loop, in exact arithmetic *)

Section ExactNewton.
Import ExactScalar.
Local Open Scope Qc_scope.

Lemma abs_nonneg (d : Qc) : 0 <= abs d.
Proof.
  unfold Qcle, abs. change (0 <= Qred (Qabs d))%Q.
  rewrite Qred_correct. apply Qabs_nonneg.
Qed.

Lemma half_of_nonpositive (s : Qc) : s <= 0 → Q2Qc (1 # 2) * s <= 0.
Proof.
  intros Hs. rewrite Qcmult_comm.
  rewrite <-(Qcmult_0_l (Q2Qc (1 # 2))).
  apply Qcmult_le_compat_r; [done|]. by apply Qcle_alt.
Qed.

Lemma exact_test_fails (x x_old : Qc) :
  x + x_old <= 0 →
  s_lt (s_abs (s_sub x x_old)) (s_mul s_half (s_add x x_old)) = false.
Proof.
  intros Hs. cbn [s_lt s_abs s_sub s_mul s_half s_add ops]. unfold ltb.
  apply bool_decide_eq_false. apply Qcle_not_lt.
  eapply Qcle_trans; [by apply half_of_nonpositive|apply abs_nonneg].
Qed.

(** X3: in exact arithmetic, a pass of the Newton loop whose new and old
    iterate have a sum of at most zero does not leave the loop: the test
    [dx < 0.5 * (x + x_old)] fails there, however small the step is. *)
Theorem newton_loop_stays_at_nonpositive_sum (n remaining : nat)
    (x dp_dx : Qc) (passes : nat) :
  (newton_update n x).1 + x <= 0 →
  GaussLegendre.newton_loop n (S remaining) x dp_dx passes
  = GaussLegendre.newton_loop n remaining (newton_update n x).1
      (newton_update n x).2 (S passes).
Proof.
  unfold newton_update. cbn [GaussLegendre.newton_loop].
  destruct (GaussLegendre.legendre n x) as [p_l p_l_1]. cbn [fst snd].
  intros Hs. by rewrite exact_test_fails.
Qed.

End ExactNewton.

(** ** Copies and non-mutating operators of the gridded field *)

Section GriddedCopies.
Context {Scalar : Type} `{ScalarOps Scalar} `{External Scalar}.
Local Open Scope scalar_scope.
Import FieldGridded.
Implicit Types σ : Store Scalar.

Lemma gridded_new_run σ f t li la lo ls d g0 g1 g2 g3 g4 g5 :
  grids_at σ [f; t; li; la; lo; ls] [g0; g1; g2; g3; g4; g5] →
  new f t li la lo ls d σ
  = (Ok (mkGridded
           (ScatteringDataFieldBase_new (length g0) (length g1) (length g2)
              (length g3) (length g4) (length g5))
           f t li la lo ls d), σ).
Proof.
  intros Hgs. unfold new.
  assert (vectors σ !! f = Some g0) as V0
    by (by eapply (Forall2_lookup_lr _ _ _ 0 _ _ Hgs)).
  assert (vectors σ !! t = Some g1) as V1
    by (by eapply (Forall2_lookup_lr _ _ _ 1 _ _ Hgs)).
  assert (vectors σ !! li = Some g2) as V2
    by (by eapply (Forall2_lookup_lr _ _ _ 2 _ _ Hgs)).
  assert (vectors σ !! la = Some g3) as V3
    by (by eapply (Forall2_lookup_lr _ _ _ 3 _ _ Hgs)).
  assert (vectors σ !! lo = Some g4) as V4
    by (by eapply (Forall2_lookup_lr _ _ _ 4 _ _ Hgs)).
  assert (vectors σ !! ls = Some g5) as V5
    by (by eapply (Forall2_lookup_lr _ _ _ 5 _ _ Hgs)).
  rewrite (bind_run _ _ _ _ _ (get_vector_run _ _ _ V0)).
  rewrite (bind_run _ _ _ _ _ (get_vector_run _ _ _ V1)).
  rewrite (bind_run _ _ _ _ _ (get_vector_run _ _ _ V2)).
  rewrite (bind_run _ _ _ _ _ (get_vector_run _ _ _ V3)).
  rewrite (bind_run _ _ _ _ _ (get_vector_run _ _ _ V4)).
  by rewrite (bind_run _ _ _ _ _ (get_vector_run _ _ _ V5)).
Qed.

(** The base record of a well-formed field is the one the constructor
    builds from its grids. *)
Lemma gridded_base_rebuilt σ self g0 g1 g2 g3 g4 g5 data :
  gridded_wf σ self [g0; g1; g2; g3; g4; g5] data →
  base_wf (g_base self) →
  ScatteringDataFieldBase_new (length g0) (length g1) (length g2) (length g3)
    (length g4) (length g5)
  = g_base self.
Proof.
  intros [_ Hs _ _] Hb. cbn zeta in Hs. injection Hs as -> -> -> -> -> ->.
  unfold ScatteringDataFieldBase_new. unfold base_wf in Hb.
  destruct (g_base self). cbn in *. by rewrite Hb.
Qed.

Lemma gridded_copy_run σ self gs data :
  gridded_wf σ self gs data →
  base_wf (g_base self) →
  let p := fresh (dom (tensors σ)) in
  copy self σ
  = (Ok (mkGridded (g_base self) (g_f_grid_ self) (g_t_grid_ self)
           (g_lon_inc_ self) (g_lat_inc_ self) (g_lon_scat_ self)
           (g_lat_scat_ self) p),
     mkStore (vectors σ) (shts σ) (<[p := data]> (tensors σ))
       (cmplx_tensors σ)).
Proof.
  intros Hwf Hb p.
  destruct (gridded_wf_grids _ _ _ _ Hwf)
    as (g0 & g1 & g2 & g3 & g4 & g5 & -> & _).
  pose proof Hwf as [Hgs _ Hdata _]. unfold copy.
  rewrite (bind_run _ _ _ _ _ (get_tensor_run _ _ _ Hdata)).
  rewrite (bind_run _ _ σ p
             (mkStore (vectors σ) (shts σ) (<[p := data]> (tensors σ))
                (cmplx_tensors σ))) by done.
  rewrite (gridded_new_run _ _ _ _ _ _ _ _ g0 g1 g2 g3 g4 g5) by done.
  by rewrite (gridded_base_rebuilt _ _ _ _ _ _ _ _ _ Hwf Hb).
Qed.

(** X4: [operator*(c)] leaves the field it is applied to as it is: the
    product is a new field on a new data tensor, which holds [c * x] for
    every coefficient [x] of the original, and the same grid pointers,
    sizes and particle type; the store changes by that one tensor. *)
Theorem mul_leaves_original σ self gs data c :
  gridded_wf σ self gs data →
  base_wf (g_base self) →
  ∃ result,
    mul self c σ
    = (Ok result,
       mkStore (vectors σ) (shts σ)
         (<[g_data_ result := tensor_map (λ x, c * x) data]> (tensors σ))
         (cmplx_tensors σ)) ∧
    tensors σ !! g_data_ result = None ∧
    g_data_ result ≠ g_data_ self ∧
    same_grids_gridded self result.
Proof.
  intros Hwf Hb. pose proof Hwf as [_ _ Hdata _].
  set (p := fresh (dom (tensors σ))).
  assert (tensors σ !! p = None) as Hp.
  { apply not_elem_of_dom. apply is_fresh. }
  exists (mkGridded (g_base self) (g_f_grid_ self) (g_t_grid_ self)
            (g_lon_inc_ self) (g_lat_inc_ self) (g_lon_scat_ self)
            (g_lat_scat_ self) p).
  split; [|split; [|split]].
  - unfold mul. rewrite (bind_run _ _ _ _ _ (gridded_copy_run _ _ _ _ Hwf Hb)).
    fold p. unfold mul_assign. cbn [g_data_].
    unfold bind at 1.
    erewrite (bind_run (get_tensor p)).
    2:{ apply get_tensor_run. cbn [tensors]. apply lookup_insert_eq. }
    unfold bind, put_tensor, ret. cbn [vectors shts tensors cmplx_tensors].
    rewrite insert_insert_eq. reflexivity.
  - exact Hp.
  - cbn [g_data_]. intros Heq. rewrite Heq in Hp. congruence.
  - done.
Qed.

(** X5: [interpolate_frequency(frequencies)] and
    [interpolate_temperature(temperatures, extrapolate)] of a well-formed
    field.  When the regridder refuses (a target outside the grid), the
    call fails with its error and the store is as before.  Otherwise the
    result is a new field on a new data tensor, the regridder's answer;
    it holds the new grid and shares the five other grids with the
    source; its size along the interpolated axis is the size of the new
    grid, and its particle type is the one of the source.  The regridder
    of the frequencies is built without the [extrapolate] argument, so
    with the default of its constructor; the regridder of the
    temperatures is built with the flag of the caller. *)
Theorem interpolate_frequency_temperature
    σ self g0 g1 g2 g3 g4 g5 data new_grid values extrapolate :
  gridded_wf σ self [g0; g1; g2; g3; g4; g5] data →
  base_wf (g_base self) →
  vectors σ !! new_grid = Some values →
  let p := fresh (dom (tensors σ)) in
  tensors σ !! p = None ∧
  match RegularRegridder [0] [g0] [values] extrapolate_default data with
  | Err e => interpolate_frequency self new_grid σ = (Err e, σ)
  | Ok data_interp =>
      ∃ result,
        interpolate_frequency self new_grid σ
        = (Ok result, with_tensor σ p data_interp) ∧
        g_data_ result = p ∧
        [g_f_grid_ result; g_t_grid_ result; g_lon_inc_ result;
         g_lat_inc_ result; g_lon_scat_ result; g_lat_scat_ result]
        = [new_grid; g_t_grid_ self; g_lon_inc_ self; g_lat_inc_ self;
           g_lon_scat_ self; g_lat_scat_ self] ∧
        n_freqs_ (g_base result) = length values ∧
        n_temps_ (g_base result) = n_temps_ (g_base self) ∧
        get_particle_type (g_base result) = get_particle_type (g_base self)
  end ∧
  match RegularRegridder [1] [g1] [values] extrapolate data with
  | Err e => interpolate_temperature self new_grid extrapolate σ = (Err e, σ)
  | Ok data_interp =>
      ∃ result,
        interpolate_temperature self new_grid extrapolate σ
        = (Ok result, with_tensor σ p data_interp) ∧
        g_data_ result = p ∧
        [g_f_grid_ result; g_t_grid_ result; g_lon_inc_ result;
         g_lat_inc_ result; g_lon_scat_ result; g_lat_scat_ result]
        = [g_f_grid_ self; new_grid; g_lon_inc_ self; g_lat_inc_ self;
           g_lon_scat_ self; g_lat_scat_ self] ∧
        n_freqs_ (g_base result) = n_freqs_ (g_base self) ∧
        n_temps_ (g_base result) = length values ∧
        get_particle_type (g_base result) = get_particle_type (g_base self)
  end.
Proof.
  intros Hwf Hb Hnew p.
  pose proof Hwf as [Hgs Hs Hdata _]. cbn zeta in Hs.
  injection Hs as L0 L1 L2 L3 L4 L5.
  assert (vectors σ !! g_f_grid_ self = Some g0) as V0
    by (by eapply (Forall2_lookup_lr _ _ _ 0 _ _ Hgs)).
  assert (vectors σ !! g_t_grid_ self = Some g1) as V1
    by (by eapply (Forall2_lookup_lr _ _ _ 1 _ _ Hgs)).
  apply Forall2_cons_1 in Hgs as [G0 Hgs].
  pose proof Hgs as Hgs1. apply Forall2_cons_1 in Hgs1 as [G1 Hgs2].
  split; [apply not_elem_of_dom; apply is_fresh|]. split.
  - unfold interpolate_frequency.
    rewrite (bind_run _ _ _ _ _ (get_vector_run _ _ _ V0)).
    rewrite (bind_run _ _ _ _ _ (get_vector_run _ _ _ Hnew)).
    rewrite (bind_run _ _ _ _ _ (get_tensor_run _ _ _ Hdata)).
    destruct (RegularRegridder [0] [g0] [values] extrapolate_default data)
      as [data_interp|e]; [|done].
    rewrite (bind_run _ (λ data_interp, _) σ data_interp σ) by done.
    rewrite (bind_run _ _ σ p (with_tensor σ p data_interp)) by done.
    rewrite (gridded_new_run _ _ _ _ _ _ _ _ values g1 g2 g3 g4 g5)
      by (by constructor).
    eexists. split; [reflexivity|].
    cbn [g_data_ g_base g_f_grid_ g_t_grid_ g_lon_inc_ g_lat_inc_ g_lon_scat_
         g_lat_scat_ ScatteringDataFieldBase_new n_freqs_ n_temps_
         get_particle_type type_].
    unfold get_particle_type, base_wf in *. cbn [type_].
    rewrite Hb, L1, L2, L3, L4, L5. done.
  - unfold interpolate_temperature.
    rewrite (bind_run _ _ _ _ _ (get_vector_run _ _ _ V1)).
    rewrite (bind_run _ _ _ _ _ (get_vector_run _ _ _ Hnew)).
    rewrite (bind_run _ _ _ _ _ (get_tensor_run _ _ _ Hdata)).
    destruct (RegularRegridder [1] [g1] [values] extrapolate data)
      as [data_interp|e]; [|done].
    rewrite (bind_run _ (λ data_interp, _) σ data_interp σ) by done.
    rewrite (bind_run _ _ σ p (with_tensor σ p data_interp)) by done.
    rewrite (gridded_new_run _ _ _ _ _ _ _ _ g0 values g2 g3 g4 g5)
      by (constructor; [done|]; by constructor).
    eexists. split; [reflexivity|].
    cbn [g_data_ g_base g_f_grid_ g_t_grid_ g_lon_inc_ g_lat_inc_ g_lon_scat_
         g_lat_scat_ ScatteringDataFieldBase_new n_freqs_ n_temps_
         get_particle_type type_].
    unfold get_particle_type, base_wf in *. cbn [type_].
    rewrite Hb, L0, L2, L3, L4, L5. done.
Qed.

(** X6: [interpolate_angles] gives a field whose particle type is the
    one of the new angular grids, which may differ from the type of the
    source; the frequency and temperature grids are shared with the
    source, and a refusal of the regridder leaves the store as it was. *)
Theorem interpolate_angles_reclassifies
    σ self g0 g1 g2 g3 g4 g5 data lon_inc lat_inc lon_scat lat_scat
    n2 n3 n4 n5 :
  gridded_wf σ self [g0; g1; g2; g3; g4; g5] data →
  grids_at σ [lon_inc; lat_inc; lon_scat; lat_scat] [n2; n3; n4; n5] →
  match RegularRegridder [2; 3; 4; 5] [g2; g3; g4; g5] [n2; n3; n4; n5]
          extrapolate_default data with
  | Err e =>
      interpolate_angles self lon_inc lat_inc lon_scat lat_scat σ = (Err e, σ)
  | Ok data_interp =>
      ∃ result,
        interpolate_angles self lon_inc lat_inc lon_scat lat_scat σ
        = (Ok result,
           with_tensor σ (fresh (dom (tensors σ))) data_interp) ∧
        [g_f_grid_ result; g_t_grid_ result; g_lon_inc_ result;
         g_lat_inc_ result; g_lon_scat_ result; g_lat_scat_ result]
        = [g_f_grid_ self; g_t_grid_ self; lon_inc; lat_inc; lon_scat;
           lat_scat] ∧
        get_particle_type (g_base result)
        = determine_type (Z.of_nat (length n2)) (Z.of_nat (length n3))
            (Z.of_nat (length n4)) (Z.of_nat (length n5))
  end.
Proof.
  intros Hwf Hnew. pose proof Hwf as [Hgs _ Hdata _].
  unfold interpolate_angles.
  rewrite (bind_run _ _ _ _ _
             (get_vectors_run _ _ _ (grids_at_drop _ _ _ 2 Hgs))).
  rewrite (bind_run _ _ _ _ _ (get_vectors_run _ _ _ Hnew)).
  rewrite (bind_run _ _ _ _ _ (get_tensor_run _ _ _ Hdata)).
  cbn [drop].
  destruct (RegularRegridder [2; 3; 4; 5] [g2; g3; g4; g5] [n2; n3; n4; n5]
              extrapolate_default data) as [data_interp|e]; [|done].
  rewrite (bind_run _ (λ data_interp, _) σ data_interp σ) by done.
  rewrite (bind_run _ _ σ (fresh (dom (tensors σ)))
             (with_tensor σ (fresh (dom (tensors σ))) data_interp)) by done.
  apply Forall2_cons_1 in Hgs as [G0 Hgs].
  apply Forall2_cons_1 in Hgs as [G1 _].
  rewrite (gridded_new_run _ _ _ _ _ _ _ _ g0 g1 n2 n3 n4 n5)
    by (constructor; [done|]; by constructor).
  eexists. split; [reflexivity|]. done.
Qed.

(** X7: a field that holds the same data pointer as [self] (a shallow
    copy) sees what [operator*=] writes, and does not see what
    [set_number_of_scattering_coeffs] does: that call gives [self] a new
    data tensor and leaves the old one, with its old number of elements,
    to the other holders. *)
Theorem set_number_detaches_from_copies σ self other data c n :
  tensors σ !! g_data_ self = Some data →
  length (dimensions data) = 7 →
  g_data_ other = g_data_ self →
  dimension data 6 ≠ n →
  (∃ σ1,
     mul_assign self c σ = (Ok self, σ1) ∧
     get_data other σ1 = (Ok (tensor_map (λ x, c * x) data), σ1)) ∧
  (∃ self' σ2 data',
     set_number_of_scattering_coeffs self n σ = (Ok self', σ2) ∧
     g_data_ self' ≠ g_data_ other ∧
     get_data other σ2 = (Ok data, σ2) ∧
     get_data self' σ2 = (Ok data', σ2) ∧
     dimension data' 6 = n).
Proof.
  intros Hdata Hrank Hshare Hne. split.
  - eexists. split.
    + unfold mul_assign.
      rewrite (bind_run _ _ _ _ _ (get_tensor_run _ _ _ Hdata)). reflexivity.
    + unfold get_data. apply get_tensor_run. cbn [tensors]. rewrite Hshare.
      apply lookup_insert_eq.
  - assert (tensors σ !! fresh (dom (tensors σ)) = None) as Hp.
    { apply not_elem_of_dom. apply is_fresh. }
    assert (fresh (dom (tensors σ)) ≠ g_data_ self) as Hfresh
      by (intros Heq; rewrite Heq in Hp; congruence).
    eexists _, _, _. split; [by apply set_number_run|].
    cbn [g_data_]. rewrite Hshare. split; [done|]. split; [|split].
    + unfold get_data. apply get_tensor_run. cbn [tensors]. rewrite Hshare.
      by rewrite lookup_insert_ne.
    + unfold get_data. apply get_tensor_run. cbn [tensors g_data_].
      apply lookup_insert_eq.
    + unfold dimension. cbn [eigen_copy Tensor_new dimensions].
      by rewrite list_lookup_insert_eq by lia.
Qed.

Lemma matrix_map_id {A} (rows : list (list A)) : matrix_map (λ x, x) rows = rows.
Proof.
  unfold matrix_map. rewrite <-(list_fmap_id rows) at 2.
  apply list_fmap_ext. intros _ row _. apply list_fmap_id.
Qed.

(** The integral of an element of a slice after [normalize], from the
    integrals before. *)
Lemma integral_after_normalize σ self gs data value before after f t a b e :
  (∀ (matrix : list (list Scalar)) c lon colat,
     integrate_angles (matrix_map (λ x, x * c) matrix) lon colat
     = integrate_angles matrix lon colat * c) →
  gridded_wf σ self gs data →
  integrate_scattering_angles self σ = (Ok before, σ) →
  let dims4 := [n_freqs_ (g_base self); n_temps_ (g_base self);
                n_lon_inc_ (g_base self); n_lat_inc_ (g_base self)] in
  integrate_scattering_angles self
    (with_tensor σ (g_data_ self) (normalize_loop value before dims4 data))
  = (Ok after,
     with_tensor σ (g_data_ self) (normalize_loop value before dims4 data)) →
  f < n_freqs_ (g_base self) → t < n_temps_ (g_base self) →
  a < n_lon_inc_ (g_base self) → b < n_lat_inc_ (g_base self) →
  e < dimension data 6 →
  coeff after [f; t; a; b; e]
  = normalize_factor value before [f; t; a; b; e] (coeff before [f; t; a; b; e]).
Proof.
  intros Hhom Hwf Hrun dims4 Hrun' Hf Ht Ha Hb He.
  destruct (normalize_run σ self gs data value Hwf)
    as (before0 & Hrun0 & Hbefore & _ & Hwf').
  cbn zeta in *. rewrite Hrun in Hrun0. injection Hrun0 as <-.
  destruct (integrate_scattering_angles_run _ _ _ _ Hwf')
    as (after0 & Hrun0' & Hafter).
  fold dims4 in Hrun0'. rewrite Hrun' in Hrun0'. injection Hrun0' as <-.
  pose proof Hwf as [_ _ _ Hd]. cbn zeta in Hd.
  assert (dimension (normalize_loop value before dims4 data) 6
          = dimension data 6) as Hd6
    by (unfold dimension; by rewrite normalize_loop_dimensions).
  rewrite Hafter by (fold dims4; rewrite Hd6; repeat constructor; done).
  rewrite (Hbefore [f; t; a; b; e]) by (repeat constructor; done).
  unfold normalize_factor. cbn [length Nat.sub take app].
  destruct (s_ne (coeff before [f; t; a; b; 0]) s_zero) eqn:Hnz.
  - rewrite <-Hhom. f_equal. apply get_submatrix_fmap.
    + apply normalize_loop_dimensions.
    + intros p q Hp Hq. unfold dimension in Hp, Hq. rewrite Hd in Hp, Hq.
      cbn in Hp, Hq. unfold splice2. cbn [take drop app]. unfold dims4.
      rewrite (normalize_loop_coeff _ _ _ _ _ _ _ _ _ _ _ _ _ _ _ _ _ Hd)
        by done.
      unfold normalize_factor. cbn [length Nat.sub take app]. by rewrite Hnz.
  - f_equal. rewrite <-(matrix_map_id (get_submatrix 4 data [f; t; a; b; e])).
    apply get_submatrix_fmap.
    + apply normalize_loop_dimensions.
    + intros p q Hp Hq. unfold dimension in Hp, Hq. rewrite Hd in Hp, Hq.
      cbn in Hp, Hq. unfold splice2. cbn [take drop app]. unfold dims4.
      rewrite (normalize_loop_coeff _ _ _ _ _ _ _ _ _ _ _ _ _ _ _ _ _ Hd)
        by done.
      unfold normalize_factor. cbn [length Nat.sub take app]. by rewrite Hnz.
Qed.

(** X8: [normalize(V)] scales every element of a slice by the factor of
    its first element: where the integral [I0] of the first element was
    nonzero, the integral of the element [e] becomes [I_e * (V / I0)];
    where it was zero, the integrals of all elements of the slice stay.
    The angular-integration primitive is homogeneous. *)
Theorem normalize_scales_all_elements σ self gs data value :
  (∀ (matrix : list (list Scalar)) c lon colat,
     integrate_angles (matrix_map (λ x, x * c) matrix) lon colat
     = integrate_angles matrix lon colat * c) →
  gridded_wf σ self gs data →
  ∃ before σ' after,
    integrate_scattering_angles self σ = (Ok before, σ) ∧
    normalize self value σ = (Ok tt, σ') ∧
    integrate_scattering_angles self σ' = (Ok after, σ') ∧
    ∀ f t a b e,
      f < n_freqs_ (g_base self) → t < n_temps_ (g_base self) →
      a < n_lon_inc_ (g_base self) → b < n_lat_inc_ (g_base self) →
      e < dimension data 6 →
      (s_ne (coeff before [f; t; a; b; 0]) s_zero = true →
       coeff after [f; t; a; b; e]
       = coeff before [f; t; a; b; e]
         * (value / coeff before [f; t; a; b; 0])) ∧
      (s_ne (coeff before [f; t; a; b; 0]) s_zero = false →
       coeff after [f; t; a; b; e] = coeff before [f; t; a; b; e]).
Proof.
  intros Hhom Hwf.
  destruct (normalize_run σ self gs data value Hwf)
    as (before & Hrun & _ & Hnorm & Hwf').
  cbn zeta in *.
  destruct (integrate_scattering_angles_run _ _ _ _ Hwf')
    as (after & Hrun' & _).
  eexists before, _, after. split; [done|]. split; [done|]. split; [done|].
  intros f t a b e Hf Ht Ha Hb He.
  rewrite (integral_after_normalize σ self gs data value before after
             f t a b e Hhom Hwf Hrun Hrun' Hf Ht Ha Hb He).
  unfold normalize_factor. cbn [length Nat.sub take app].
  split; intros ->; done.
Qed.

(** X9: [normalize(V)] with a nonzero [V] is idempotent: a second call
    leaves every coefficient of the data tensor as the first call left
    it.  The scalars are those of an arithmetic in which [x * (v / x) = v]
    and [y * (x / x) = y] for nonzero [x], and the angular-integration
    primitive is homogeneous. *)
Theorem normalize_idempotent σ self gs data value :
  (∀ (matrix : list (list Scalar)) c lon colat,
     integrate_angles (matrix_map (λ x, x * c) matrix) lon colat
     = integrate_angles matrix lon colat * c) →
  (∀ x v : Scalar, s_ne x s_zero = true → x * (v / x) = v) →
  (∀ x y : Scalar, s_ne x s_zero = true → y * (x / x) = y) →
  s_ne value s_zero = true →
  gridded_wf σ self gs data →
  ∃ σ1 data1 σ2 data2,
    normalize self value σ = (Ok tt, σ1) ∧
    tensors σ1 !! g_data_ self = Some data1 ∧
    normalize self value σ1 = (Ok tt, σ2) ∧
    tensors σ2 !! g_data_ self = Some data2 ∧
    ∀ idx, in_bounds (dimensions data) idx → coeff data2 idx = coeff data1 idx.
Proof.
  intros Hhom Hfield Hone Hvalue Hwf.
  destruct (normalize_run σ self gs data value Hwf)
    as (before & Hrun & _ & Hnorm & Hwf1).
  cbn zeta in *.
  set (dims4 := [n_freqs_ (g_base self); n_temps_ (g_base self);
                 n_lon_inc_ (g_base self); n_lat_inc_ (g_base self)]) in *.
  set (data1 := normalize_loop value before dims4 data) in *.
  destruct (normalize_run _ self gs data1 value Hwf1)
    as (after & Hrun1 & _ & Hnorm1 & _).
  cbn zeta in *. fold dims4 in Hnorm1.
  eexists _, data1, _, _. split; [exact Hnorm|].
  split; [apply lookup_insert_eq|]. split; [exact Hnorm1|].
  split; [apply lookup_insert_eq|].
  pose proof Hwf as [_ _ _ Hd]. cbn zeta in Hd.
  assert (dimensions data1 = dimensions data) as Hd1
    by apply normalize_loop_dimensions.
  intros idx Hb. rewrite Hd in Hb.
  apply Forall2_cons_inv_r in Hb as (f & idx1 & Hf & Hb & ->).
  apply Forall2_cons_inv_r in Hb as (t & idx2 & Ht & Hb & ->).
  apply Forall2_cons_inv_r in Hb as (a & idx3 & Ha & Hb & ->).
  apply Forall2_cons_inv_r in Hb as (b & idx4 & Hbb & Hb & ->).
  apply Forall2_cons_inv_r in Hb as (p & idx5 & Hp & Hb & ->).
  apply Forall2_cons_inv_r in Hb as (q & idx6 & Hq & Hb & ->).
  apply Forall2_cons_inv_r in Hb as (e & idx7 & He & Hb & ->).
  apply Forall2_nil_inv_r in Hb as ->.
  assert (dimensions data1
          = [n_freqs_ (g_base self); n_temps_ (g_base self);
             n_lon_inc_ (g_base self); n_lat_inc_ (g_base self);
             n_lon_scat_ (g_base self); n_lat_scat_ (g_base self);
             dimension data 6]) as Hd1' by (by rewrite Hd1).
  unfold dims4.
  rewrite (normalize_loop_coeff _ _ _ _ _ _ _ _ _ _ _ _ _ _ _ _ _ Hd1')
    by done.
  unfold normalize_factor. cbn [length Nat.sub take app].
  assert (0 < dimension data 6) as H0e by lia.
  rewrite (integral_after_normalize σ self gs data value before after
             f t a b 0 Hhom Hwf Hrun Hrun1 Hf Ht Ha Hbb H0e).
  unfold normalize_factor. cbn [length Nat.sub take app].
  destruct (s_ne (coeff before [f; t; a; b; 0]) s_zero) eqn:Hnz.
  - rewrite (Hfield _ _ Hnz), Hvalue. by apply Hone.
  - by rewrite Hnz.
Qed.

End GriddedCopies.

(** ** Filling a gridded field slice by slice *)

Section GriddedSetData.
Context {Scalar : Type} `{ScalarOps Scalar} `{External Scalar}.
Local Open Scope scalar_scope.
Import FieldGridded.
Implicit Types σ : Store Scalar.

Lemma set_data_run σ self other gs gso data other_data regridded f t :
  gridded_wf σ self gs data →
  gridded_wf σ other gso other_data →
  RegularRegridder [2; 3; 4; 5] (drop 2 gso) (drop 2 gs)
    extrapolate_default other_data
  = Ok regridded →
  dimensions regridded
  = regridded_dimensions [2; 3; 4; 5] (drop 2 gs) (dimensions other_data) →
  dimension other_data 6 = dimension data 6 →
  set_data self f t other σ
  = (Ok tt,
     mkStore (vectors σ) (shts σ)
       (<[g_data_ self := slice_assigned data [f; t] regridded]> (tensors σ))
       (cmplx_tensors σ)).
Proof.
  intros Hself Hother Hregrid Hdims Heq.
  destruct (gridded_wf_grids _ _ _ _ Hself)
    as (g0 & g1 & g2 & g3 & g4 & g5 & -> & L2 & L3 & L4 & L5).
  pose proof Hself as [Hgs _ Hdata Hd].
  pose proof Hother as [Hgso _ Hodata Hod].
  cbn zeta in Hd, Hod. unfold set_data.
  rewrite (bind_run _ _ _ _ _
             (get_vectors_run _ _ _ (grids_at_drop _ _ _ 2 Hgso))).
  rewrite (bind_run _ _ _ _ _
             (get_vectors_run _ _ _ (grids_at_drop _ _ _ 2 Hgs))).
  rewrite (bind_run _ _ _ _ _ (get_tensor_run _ _ _ Hodata)).
  cbn [drop] in Hregrid |- *.
  rewrite (bind_run _ (λ regridded, _) σ regridded σ)
    by (unfold lift; by rewrite Hregrid).
  rewrite (bind_run _ _ _ _ _ (get_tensor_run _ _ _ Hdata)).
  unfold assign_tensor_index, bind, lift.
  rewrite decide_True; [done|].
  cbn [tensor_index dimensions length]. rewrite Hdims, Hod, Hd.
  unfold regridded_dimensions. cbn. by rewrite L2, L3, L4, L5, Heq.
Qed.

(** X11: a field filled by two calls of [set_data] at different
    (frequency, temperature) indices holds both: the sub-tensor of the
    first call is not touched by the second, and every other sub-tensor is
    as before the two calls.  The angular regridding of both operands
    succeeds and carries the unselected axes through, their numbers of
    elements are the one of the target, and the indices are within the
    frequency and temperature axes of the target. *)
Theorem set_data_fills_slice_by_slice
    σ self gs data first gs1 data1 regridded1 second gs2 data2 regridded2
    f1 t1 f2 t2 :
  gridded_wf σ self gs data →
  gridded_wf σ first gs1 data1 →
  gridded_wf σ second gs2 data2 →
  g_data_ second ≠ g_data_ self →
  RegularRegridder [2; 3; 4; 5] (drop 2 gs1) (drop 2 gs)
    extrapolate_default data1
  = Ok regridded1 →
  dimensions regridded1
  = regridded_dimensions [2; 3; 4; 5] (drop 2 gs) (dimensions data1) →
  RegularRegridder [2; 3; 4; 5] (drop 2 gs2) (drop 2 gs)
    extrapolate_default data2
  = Ok regridded2 →
  dimensions regridded2
  = regridded_dimensions [2; 3; 4; 5] (drop 2 gs) (dimensions data2) →
  dimension data1 6 = dimension data 6 →
  dimension data2 6 = dimension data 6 →
  f1 < n_freqs_ (g_base self) → t1 < n_temps_ (g_base self) →
  f2 < n_freqs_ (g_base self) → t2 < n_temps_ (g_base self) →
  (f1, t1) ≠ (f2, t2) →
  ∃ σ1 σ2 filled,
    set_data self f1 t1 first σ = (Ok tt, σ1) ∧
    set_data self f2 t2 second σ1 = (Ok tt, σ2) ∧
    tensors σ2 !! g_data_ self = Some filled ∧
    dimensions filled = dimensions data ∧
    (∀ idx, coeff filled (f1 :: t1 :: idx) = coeff regridded1 (0 :: 0 :: idx)) ∧
    (∀ idx, coeff filled (f2 :: t2 :: idx) = coeff regridded2 (0 :: 0 :: idx)) ∧
    (∀ idx, take 2 idx ≠ [f1; t1] → take 2 idx ≠ [f2; t2] →
            coeff filled idx = coeff data idx).
Proof.
  intros Hself Hfirst Hsecond Hne Hr1 Hd1 Hr2 Hd2 He1 He2 _ _ _ _ Hdiff.
  set (filled1 := slice_assigned data [f1; t1] regridded1).
  set (σ1 := mkStore (vectors σ) (shts σ)
               (<[g_data_ self := filled1]> (tensors σ)) (cmplx_tensors σ)).
  assert (gridded_wf σ1 self gs filled1) as Hself1.
  { destruct Hself as [? ? ? Hd]. split; [done|done|apply lookup_insert_eq|].
    exact Hd. }
  assert (gridded_wf σ1 second gs2 data2) as Hsecond1.
  { destruct Hsecond as [? ? Hl ?]. split; [done|done| |done].
    cbn [σ1 tensors]. by rewrite lookup_insert_ne. }
  eexists σ1, _, _. split; [by eapply set_data_run|].
  split; [by eapply (set_data_run σ1)|].
  cbn [tensors]. split; [apply lookup_insert_eq|]. split; [done|].
  subst filled1.
  cbn [slice_assigned coeff tensor_index length take drop app]. split; [|split].
  - intros idx. rewrite decide_False by (intros [= <- <-]; done).
    by rewrite decide_True.
  - intros idx. by rewrite decide_True.
  - intros idx Hn1 Hn2. by rewrite !decide_False.
Qed.

End GriddedSetData.

(** ** Normalization of the spectral field *)

Section SpectralNormalize.
Context {Scalar : Type} `{ScalarOps Scalar} `{External Scalar}.
Local Open Scope scalar_scope.
Import FieldSpectral.
Implicit Types σ : Store Scalar.

Lemma spectral_normalize_loop_dimensions value integrals dims4
    (data : Tensor (Scalar * Scalar)) :
  dimensions (normalize_loop value integrals dims4 data) = dimensions data.
Proof.
  unfold normalize_loop. apply foldl_dimensions.
  intros t i. by destruct (s_ne _ _).
Qed.

Lemma spectral_normalize_loop_coeff value integrals
    (data : Tensor (Scalar * Scalar)) nf nt nli nla nc ne f t a b k e :
  dimensions data = [nf; nt; nli; nla; nc; ne] →
  f < nf → t < nt → a < nli → b < nla → k < nc → e < ne →
  coeff (normalize_loop value integrals [nf; nt; nli; nla] data)
    [f; t; a; b; k; e]
  = if s_ne (coeff integrals [f; t; a; b; 0]) s_zero
    then c_scale_r (coeff data [f; t; a; b; k; e])
           (value / coeff integrals [f; t; a; b; 0])
    else coeff data [f; t; a; b; k; e].
Proof.
  intros Hd Hf Ht Ha Hb Hk He. unfold normalize_loop.
  etrans.
  { apply (loop_hit_NoDup
             (λ (data : Tensor (Scalar * Scalar)) i,
                if s_ne (coeff integrals (i ++ [0])) s_zero
                then update_submatrix 4 data i
                       (λ z, c_scale_r z (value / coeff integrals (i ++ [0])))
                else data)
             (dimensions data)
             (λ i idx, covers2 4 (dimensions data) i idx)
             (λ i _ z,
                if s_ne (coeff integrals (i ++ [0])) s_zero
                then c_scale_r z (value / coeff integrals (i ++ [0]))
                else z)
             data (DimensionCounter [nf; nt; nli; nla])
             [f; t; a; b] [f; t; a; b; k; e]).
    - intros t' i. by destruct (s_ne _ _).
    - intros t' i idx Ht'. destruct (s_ne _ _).
      + cbn [update_submatrix coeff]. by rewrite Ht'.
      + by destruct (decide _).
    - done.
    - apply NoDup_DimensionCounter.
    - apply elem_of_DimensionCounter. repeat constructor; done.
    - rewrite Hd. unfold covers2. cbn. repeat split; lia.
    - intros k' (_ & _ & <- & _). done. }
  reflexivity.
Qed.

(** X10: for the spectral field too, [normalize(V)] followed by
    [integrate_scattering_angles()] yields [V] for the first element of
    every slice whose integral was nonzero.  The scalars are those of an
    arithmetic in which [(r * (v / (r * k))) * k = v] for nonzero
    [r * k]. *)
Theorem spectral_normalize_reaches_value σ self data value :
  (∀ r k v : Scalar,
     s_ne (r * k) s_zero = true → (r * (v / (r * k))) * k = v) →
  cmplx_tensors σ !! s_data_ self = Some data →
  dimensions data
  = [n_freqs_ (s_base self); n_temps_ (s_base self);
     n_lon_inc_ (s_base self); n_lat_inc_ (s_base self);
     dimension data 4; dimension data 5] →
  0 < dimension data 4 → 0 < dimension data 5 →
  ∃ before σ' after,
    integrate_scattering_angles self σ = (Ok before, σ) ∧
    normalize self value σ = (Ok tt, σ') ∧
    integrate_scattering_angles self σ' = (Ok after, σ') ∧
    ∀ f t a b,
      f < n_freqs_ (s_base self) → t < n_temps_ (s_base self) →
      a < n_lon_inc_ (s_base self) → b < n_lat_inc_ (s_base self) →
      s_ne (coeff before [f; t; a; b; 0]) s_zero = true →
      coeff after [f; t; a; b; 0] = value.
Proof.
  intros Hlaw Hdata Hd Hnc Hne.
  set (before := tensor_map (λ z, c_real z * s_sqrt (s_of_Z 4 * s_pi))
                   (chip 4 0 data)).
  assert (integrate_scattering_angles self σ = (Ok before, σ)) as Hrun.
  { unfold integrate_scattering_angles.
    by rewrite (bind_run _ _ _ _ _ (get_cmplx_tensor_run _ _ _ Hdata)). }
  set (dims4 := [n_freqs_ (s_base self); n_temps_ (s_base self);
                 n_lon_inc_ (s_base self); n_lat_inc_ (s_base self)]).
  set (data' := normalize_loop value before dims4 data).
  set (σ' := mkStore (vectors σ) (shts σ) (tensors σ)
               (<[s_data_ self := data']> (cmplx_tensors σ))).
  exists before, σ',
    (tensor_map (λ z, c_real z * s_sqrt (s_of_Z 4 * s_pi)) (chip 4 0 data')).
  split; [done|]. split; [|split].
  - unfold normalize. rewrite (bind_run _ _ _ _ _ Hrun).
    by rewrite (bind_run _ _ _ _ _ (get_cmplx_tensor_run _ _ _ Hdata)).
  - unfold integrate_scattering_angles.
    erewrite (bind_run (get_cmplx_tensor (s_data_ self))); [reflexivity|].
    apply get_cmplx_tensor_run. apply lookup_insert_eq.
  - intros f t a b Hf Ht Ha Hb Hnz.
    cbn [tensor_map coeff chip]. unfold splice1. cbn [take drop app].
    unfold data', dims4.
    rewrite (spectral_normalize_loop_coeff _ _ _ _ _ _ _ _ _ _ _ _ _ _ _ Hd)
      by done.
    rewrite Hnz. unfold c_scale_r, c_real. cbn [fst].
    unfold before in Hnz |- *. cbn [tensor_map coeff chip] in Hnz |- *.
    unfold splice1 in Hnz |- *. cbn [take drop app] in Hnz |- *.
    unfold c_real in Hnz |- *. by apply Hlaw.
Qed.

End SpectralNormalize.

(** ** The sum of two gridded fields *)

Section GriddedSum.
Context {Scalar : Type} `{ScalarOps Scalar} `{External Scalar}.
Local Open Scope scalar_scope.
Import FieldGridded.
Implicit Types σ : Store Scalar.

Lemma gridded_regrid_run σ other gso other_data f t li la lo ls
    g0 g1 g2 g3 g4 g5 regridded :
  gridded_wf σ other gso other_data →
  grids_at σ [f; t; li; la; lo; ls] [g0; g1; g2; g3; g4; g5] →
  RegularRegridder [0; 1; 2; 3; 4; 5] gso [g0; g1; g2; g3; g4; g5]
    extrapolate_default other_data = Ok regridded →
  let p := fresh (dom (tensors σ)) in
  regrid other f t li la lo ls σ
  = (Ok (mkGridded
           (ScatteringDataFieldBase_new (length g0) (length g1) (length g2)
              (length g3) (length g4) (length g5))
           f t li la lo ls p),
     mkStore (vectors σ) (shts σ) (<[p := regridded]> (tensors σ))
       (cmplx_tensors σ)).
Proof.
  intros [Hgso _ Hodata _] Hgs Hregrid p. unfold regrid.
  rewrite (bind_run _ _ _ _ _ (get_vectors_run _ _ _ Hgso)).
  rewrite (bind_run _ _ _ _ _ (get_vectors_run _ _ _ Hgs)).
  rewrite (bind_run _ _ _ _ _ (get_tensor_run _ _ _ Hodata)).
  rewrite (bind_run _ (λ regridded, _) σ regridded σ)
    by (unfold lift; by rewrite Hregrid).
  rewrite (bind_run _ _ σ p
             (mkStore (vectors σ) (shts σ) (<[p := regridded]> (tensors σ))
                (cmplx_tensors σ))) by done.
  by rewrite (gridded_new_run _ _ _ _ _ _ _ _ g0 g1 g2 g3 g4 g5).
Qed.

(** X12: [operator+(other)] leaves both operands as they are, also when
    they are the same field: the sum is a new field on a new data tensor
    that holds, coefficient by coefficient, the data of this field plus
    the data of the other regridded onto the six grids of this field; it
    has the grid pointers, sizes and particle type of this field; and the
    store changes by that one tensor (the tensor of the regridded operand
    is gone when the call ends). *)
Theorem add_leaves_operands
    σ self other g0 g1 g2 g3 g4 g5 gso data other_data regridded :
  gridded_wf σ self [g0; g1; g2; g3; g4; g5] data →
  base_wf (g_base self) →
  gridded_wf σ other gso other_data →
  RegularRegridder [0; 1; 2; 3; 4; 5] gso [g0; g1; g2; g3; g4; g5]
    extrapolate_default other_data = Ok regridded →
  dimensions regridded = dimensions data →
  ∃ result,
    add self other σ
    = (Ok result,
       mkStore (vectors σ) (shts σ)
         (<[g_data_ result :=
              mkTensor (dimensions data)
                (λ idx, coeff data idx + coeff regridded idx)]> (tensors σ))
         (cmplx_tensors σ)) ∧
    tensors σ !! g_data_ result = None ∧
    g_data_ result ≠ g_data_ self ∧
    g_data_ result ≠ g_data_ other ∧
    same_grids_gridded self result.
Proof.
  intros Hwf Hb Hother Hregrid Hdims.
  pose proof Hwf as [Hgs _ Hdata _]. pose proof Hother as [Hgso Hso Hodata Hod].
  set (p := fresh (dom (tensors σ))).
  assert (tensors σ !! p = None) as Hp.
  { apply not_elem_of_dom. apply is_fresh. }
  set (σ1 := mkStore (vectors σ) (shts σ) (<[p := data]> (tensors σ))
               (cmplx_tensors σ)).
  set (q := fresh (dom (tensors σ1))).
  assert (tensors σ1 !! q = None) as Hq.
  { apply not_elem_of_dom. apply is_fresh. }
  assert (q ≠ p) as Hqp.
  { intros Heq. rewrite Heq in Hq. cbn [σ1 tensors] in Hq.
    by rewrite lookup_insert_eq in Hq. }
  assert (p ≠ g_data_ other) as Hpo.
  { intros Heq. rewrite Heq in Hp. congruence. }
  set (result := mkGridded (g_base self) (g_f_grid_ self) (g_t_grid_ self)
                   (g_lon_inc_ self) (g_lat_inc_ self) (g_lon_scat_ self)
                   (g_lat_scat_ self) p).
  exists result. split; [|split; [|split; [|split]]].
  - unfold add. rewrite (bind_run _ _ _ _ _ (gridded_copy_run _ _ _ _ Hwf Hb)).
    fold p. fold σ1. fold result. unfold add_assign.
    assert (gridded_wf σ1 other gso other_data) as Hother1.
    { split; [done|done| |done]. cbn [σ1 tensors].
      by rewrite lookup_insert_ne. }
    unfold bind at 1.
    rewrite (bind_run _ _ _ _ _
               (gridded_regrid_run σ1 other gso other_data _ _ _ _ _ _
                  g0 g1 g2 g3 g4 g5 regridded Hother1 Hgs Hregrid)).
    fold q. cbn [g_data_].
    erewrite (bind_run (get_tensor q)).
    2:{ apply get_tensor_run. cbn [tensors]. apply lookup_insert_eq. }
    erewrite (bind_run (get_tensor p)).
    2:{ apply get_tensor_run. cbn [σ1 tensors].
        rewrite lookup_insert_ne by done. apply lookup_insert_eq. }
    unfold tensor_add_assign. rewrite decide_True by done.
    unfold bind, lift, put_tensor, release_tensor, ret.
    cbn [σ1 vectors shts tensors cmplx_tensors]. do 2 f_equal.
    rewrite (insert_insert_ne _ q p) by done.
    change (g_data_ result) with p. rewrite insert_insert_eq.
    rewrite delete_insert_ne by done. rewrite delete_insert_eq.
    rewrite delete_id; [done|].
    cbn [σ1 tensors] in Hq. by rewrite lookup_insert_ne in Hq.
  - exact Hp.
  - cbn [result g_data_]. intros Heq. rewrite Heq in Hp. congruence.
  - exact Hpo.
  - done.
Qed.

End GriddedSum.

(** ** Scaling of the spectral field *)

Section SpectralScaling.
Context {Scalar : Type} `{ScalarOps Scalar} `{External Scalar}.
Local Open Scope scalar_scope.
Import FieldSpectral.
Implicit Types σ : Store Scalar.

(** X13: for the spectral field, [operator*=(c)] multiplies the result of
    [integrate_scattering_angles()] by [c], coordinate by coordinate, in
    an arithmetic in which [(c * r) * k = c * (r * k)]; the call returns
    the field it was applied to, and the integral keeps its dimensions. *)
Theorem spectral_scaling_scales_integral σ self data c :
  (∀ r k : Scalar, (c * r) * k = c * (r * k)) →
  cmplx_tensors σ !! s_data_ self = Some data →
  ∃ before σ' after,
    integrate_scattering_angles self σ = (Ok before, σ) ∧
    mul_assign self c σ = (Ok self, σ') ∧
    integrate_scattering_angles self σ' = (Ok after, σ') ∧
    dimensions after = dimensions before ∧
    ∀ idx, coeff after idx = c * coeff before idx.
Proof.
  intros Hlaw Hdata.
  set (scaled := tensor_map (c_scale_l c) data).
  set (σ' := mkStore (vectors σ) (shts σ) (tensors σ)
               (<[s_data_ self := scaled]> (cmplx_tensors σ))).
  exists (tensor_map (λ z, c_real z * s_sqrt (s_of_Z 4 * s_pi))
            (chip 4 0 data)), σ',
    (tensor_map (λ z, c_real z * s_sqrt (s_of_Z 4 * s_pi)) (chip 4 0 scaled)).
  split; [|split; [|split; [|split]]].
  - unfold integrate_scattering_angles.
    by rewrite (bind_run _ _ _ _ _ (get_cmplx_tensor_run _ _ _ Hdata)).
  - unfold mul_assign.
    by rewrite (bind_run _ _ _ _ _ (get_cmplx_tensor_run _ _ _ Hdata)).
  - unfold integrate_scattering_angles.
    erewrite (bind_run (get_cmplx_tensor (s_data_ self))); [reflexivity|].
    apply get_cmplx_tensor_run. apply lookup_insert_eq.
  - reflexivity.
  - intros idx. cbn [tensor_map coeff chip scaled].
    unfold c_scale_l, c_real. cbn [fst]. apply Hlaw.
Qed.

End SpectralScaling.

(** ** Filling a spectral field slice by slice *)

Section SpectralSetData.
Context {Scalar : Type} `{ScalarOps Scalar} `{External Scalar}.
Local Open Scope scalar_scope.
Import FieldSpectral.
Implicit Types σ : Store Scalar.

Lemma leading_pair (idx i : list nat) f t :
  length idx = S (length (f :: t :: i)) →
  take 4 idx ++ drop 5 idx = f :: t :: i →
  take 2 idx = [f; t].
Proof.
  destruct idx as [|x [|y rest]]; cbn; intros Hl Heq; try lia.
  by injection Heq as -> ->.
Qed.

Lemma set_data_loop_dimensions sht_l sht_r data_index input_index dims3
    (regridded data : Tensor (Scalar * Scalar)) :
  dimensions
    (set_data_loop sht_l sht_r data_index input_index dims3 regridded data)
  = dimensions data.
Proof. unfold set_data_loop. by apply foldl_dimensions. Qed.

Lemma set_data_loop_step sht_l sht_r (regridded t' : Tensor (Scalar * Scalar))
    f t i idx :
  coeff
    (set_subvector 4 t' ([f; t] ++ i)
       (add_coeffs c_add sht_l (get_subvector 2 (tensor_index t' [f; t]) i)
          sht_r (get_subvector 2 (tensor_index regridded [0; 0]) i))) idx
  = if decide (covers1 4 (dimensions t') ([f; t] ++ i) idx)
    then add_coeffs_at c_add sht_l sht_r
           (get_subvector 2 (tensor_index regridded [0; 0]) i)
           (default 0 (idx !! 4)) (coeff t' idx)
    else coeff t' idx.
Proof.
  cbn [set_subvector coeff].
  destruct (decide (covers1 4 (dimensions t') ([f; t] ++ i) idx)) as [Hc|];
    [|done].
  erewrite add_coeffs_lookup; [done|].
  rewrite get_subvector_lookup.
  - cbn [tensor_index coeff]. f_equal.
    rewrite <-(covers1_splice1 _ _ _ _ Hc) at 2. done.
  - destruct Hc as (_ & _ & _ & Hlt). unfold dimension in *.
    cbn [tensor_index dimensions length]. by rewrite lookup_drop.
Qed.

Lemma set_data_loop_coeff sht_l sht_r (regridded data : Tensor (Scalar * Scalar))
    nf nt nli nla nc ne f t a b k e :
  dimensions data = [nf; nt; nli; nla; nc; ne] →
  f < nf → t < nt → a < nli → b < nla → k < nc → e < ne →
  coeff (set_data_loop sht_l sht_r [f; t] [0; 0] [nli; nla; ne] regridded data)
    [f; t; a; b; k; e]
  = add_coeffs_at c_add sht_l sht_r
      (get_subvector 2 (tensor_index regridded [0; 0]) [a; b; e]) k
      (coeff data [f; t; a; b; k; e]).
Proof.
  intros Hd Hf Ht Ha Hb Hk He. unfold set_data_loop.
  etrans.
  { apply (loop_hit_NoDup
             (λ t' i,
                set_subvector 4 t' ([f; t] ++ i)
                  (add_coeffs c_add sht_l
                     (get_subvector 2 (tensor_index t' [f; t]) i) sht_r
                     (get_subvector 2 (tensor_index regridded [0; 0]) i)))
             (dimensions data)
             (λ i idx, covers1 4 (dimensions data) ([f; t] ++ i) idx)
             (λ i idx x,
                add_coeffs_at c_add sht_l sht_r
                  (get_subvector 2 (tensor_index regridded [0; 0]) i)
                  (default 0 (idx !! 4)) x)
             data (DimensionCounter [nli; nla; ne])
             [a; b; e] [f; t; a; b; k; e]).
    - done.
    - intros t' i idx Ht'. rewrite set_data_loop_step. by rewrite Ht'.
    - done.
    - apply NoDup_DimensionCounter.
    - apply elem_of_DimensionCounter. repeat constructor; done.
    - rewrite Hd. unfold covers1. cbn. repeat split; lia.
    - intros k' (_ & _ & Heq & _). cbn in Heq. by injection Heq. }
  reflexivity.
Qed.

Lemma set_data_loop_elsewhere sht_l sht_r
    (regridded data : Tensor (Scalar * Scalar)) dims3 f t idx :
  take 2 idx ≠ [f; t] →
  coeff (set_data_loop sht_l sht_r [f; t] [0; 0] dims3 regridded data) idx
  = coeff data idx.
Proof.
  intros Hne. unfold set_data_loop.
  apply (loop_miss
           (λ t' i,
              set_subvector 4 t' ([f; t] ++ i)
                (add_coeffs c_add sht_l
                   (get_subvector 2 (tensor_index t' [f; t]) i) sht_r
                   (get_subvector 2 (tensor_index regridded [0; 0]) i)))
           (dimensions data)
           (λ i idx, covers1 4 (dimensions data) ([f; t] ++ i) idx)
           (λ i idx x,
              add_coeffs_at c_add sht_l sht_r
                (get_subvector 2 (tensor_index regridded [0; 0]) i)
                (default 0 (idx !! 4)) x)).
  - done.
  - intros t' i idx' Ht'. rewrite set_data_loop_step. by rewrite Ht'.
  - done.
  - intros i _ (_ & Hl & Heq & _). apply Hne.
    by apply (leading_pair idx i).
Qed.

(** X14: [set_data] of the spectral field does not replace the sub-tensor
    at the given (frequency, temperature) indices: each of its coefficient
    vectors becomes the result of [add_coeffs] on what it held and the
    vector of the operand regridded onto the incoming-angle grids of this
    field.  So a coefficient that both truncations have ends as the old
    value plus the one of the operand; the rest of the data tensor is as
    before.  The regridder is the one absent from the sources, and
    [add_coeffs] is as the design states it. *)
Theorem spectral_set_data_accumulates
    σ self other data other_data regridded sht_l sht_r g2 g3 o2 o3
    nf nt nc ne f t :
  grids_at σ [s_lon_inc_ self; s_lat_inc_ self] [g2; g3] →
  grids_at σ [s_lon_inc_ other; s_lat_inc_ other] [o2; o3] →
  shts σ !! s_sht_scat_ self = Some sht_l →
  shts σ !! s_sht_scat_ other = Some sht_r →
  cmplx_tensors σ !! s_data_ self = Some data →
  cmplx_tensors σ !! s_data_ other = Some other_data →
  dimensions data
  = [nf; nt; n_lon_inc_ (s_base self); n_lat_inc_ (s_base self); nc; ne] →
  RegularRegridder_cmplx [2; 3] [o2; o3] [g2; g3] extrapolate_default other_data
  = Ok regridded →
  f < nf → t < nt →
  ∃ data',
    set_data self f t other σ
    = (Ok tt,
       mkStore (vectors σ) (shts σ) (tensors σ)
         (<[s_data_ self := data']> (cmplx_tensors σ))) ∧
    dimensions data' = dimensions data ∧
    (∀ a b k e lm k',
       a < n_lon_inc_ (s_base self) → b < n_lat_inc_ (s_base self) →
       k < nc → e < ne →
       lm_list sht_l !! k = Some lm → lm_index sht_r lm = Some k' →
       k' < dimension regridded 4 →
       coeff data' [f; t; a; b; k; e]
       = c_add (coeff data [f; t; a; b; k; e])
           (coeff regridded [0; 0; a; b; k'; e])) ∧
    (∀ a b k e lm,
       a < n_lon_inc_ (s_base self) → b < n_lat_inc_ (s_base self) →
       k < nc → e < ne →
       lm_list sht_l !! k = Some lm → lm_index sht_r lm = None →
       coeff data' [f; t; a; b; k; e] = coeff data [f; t; a; b; k; e]) ∧
    (∀ idx, take 2 idx ≠ [f; t] → coeff data' idx = coeff data idx).
Proof.
  intros Hown Hothers Hl Hr Hdata Hodata Hd Hregrid Hf Ht.
  assert (dimension data 5 = ne) as He5 by (unfold dimension; by rewrite Hd).
  eexists. split; [|split; [|split; [|split]]].
  - unfold set_data.
    rewrite (bind_run _ _ _ _ _ (get_vectors_run _ _ _ Hothers)).
    rewrite (bind_run _ _ _ _ _ (get_vectors_run _ _ _ Hown)).
    rewrite (bind_run _ _ _ _ _ (get_cmplx_tensor_run _ _ _ Hodata)).
    rewrite (bind_run _ (λ regridded, _) σ regridded σ)
      by (unfold lift; by rewrite Hregrid).
    rewrite (bind_run _ _ _ _ _ (get_cmplx_tensor_run _ _ _ Hdata)).
    rewrite (bind_run _ _ _ _ _ (get_sht_run _ _ _ Hl)).
    rewrite (bind_run _ _ _ _ _ (get_sht_run _ _ _ Hr)).
    reflexivity.
  - apply set_data_loop_dimensions.
  - intros a b k e lm k' Ha Hb Hk He Hlm Hidx Hk'. rewrite He5.
    rewrite (set_data_loop_coeff _ _ _ _ _ _ _ _ _ _ _ _ _ _ _ _ Hd) by done.
    unfold add_coeffs_at. rewrite Hlm, Hidx.
    rewrite get_subvector_lookup.
    + done.
    + unfold dimension in *. cbn [tensor_index dimensions length].
      by rewrite lookup_drop.
  - intros a b k e lm Ha Hb Hk He Hlm Hidx. rewrite He5.
    rewrite (set_data_loop_coeff _ _ _ _ _ _ _ _ _ _ _ _ _ _ _ _ Hd) by done.
    unfold add_coeffs_at. by rewrite Hlm, Hidx.
  - intros idx Hne. by apply set_data_loop_elsewhere.
Qed.

End SpectralSetData.

(** ** The further properties at work on the example stores *)

Section ExtraWitnesses.
Import ExactScalar Example SliceExample.
Local Open Scope Qc_scope.

(** X1 at degree 3, in exact arithmetic, from two different initial contents. *)
Lemma quadrature_overwrites_every_entry_witness :
  GaussLegendre.calculate_nodes_and_weights (H := ExactScalar.ops) 3
    [0; 0; 0] [0; 0; 0]
  = GaussLegendre.calculate_nodes_and_weights 3
      [of_Z 1; of_Z 2; of_Z 3] [of_Z 4; of_Z 5; of_Z 6].
Proof.
  apply (quadrature_overwrites_every_entry (H := ExactScalar.ops) 3);
    reflexivity.
Defined.

(** X2 at degree 3: the last node is the negated result of the first pass, with the weight of that pass. *)
Lemma quadrature_entries_witness :
  (GaussLegendre.calculate_nodes_and_weights (H := ExactScalar.ops) 3
     [0; 0; 0] [0; 0; 0]).1 !! 2%nat
  = Some (- GaussLegendre.node_x 3 1) ∧
  (GaussLegendre.calculate_nodes_and_weights (H := ExactScalar.ops) 3
     [0; 0; 0] [0; 0; 0]).2 !! 2%nat
  = Some (GaussLegendre.node_weight 3 1).
Proof.
  apply (quadrature_entries (H := ExactScalar.ops) 3 2 [0; 0; 0] [0; 0; 0]);
    [reflexivity|reflexivity|lia].
Defined.

(** X3 at degree 2, from the iterate -1/2. *)
Lemma newton_loop_stays_at_nonpositive_sum_witness :
  GaussLegendre.newton_loop 2 10 (Q2Qc (-1 # 2)) 0 0
  = GaussLegendre.newton_loop 2 9 (newton_update 2 (Q2Qc (-1 # 2))).1
      (newton_update 2 (Q2Qc (-1 # 2))).2 1.
Proof.
  apply (newton_loop_stays_at_nonpositive_sum 2 9 (Q2Qc (-1 # 2)) 0 0).
  by vm_compute.
Defined.

(** X4 on the example store: the double of the gridded field. *)
Lemma mul_leaves_original_witness :
  ∃ result,
    FieldGridded.mul gridded_field (of_Z 2) store
    = (Ok result,
       with_tensor store (g_data_ result)
         (tensor_map (λ x, of_Z 2 * x) gridded_data)) ∧
    g_data_ result ≠ 1%positive ∧
    tensors store !! 1%positive = Some gridded_data.
Proof.
  destruct (mul_leaves_original store gridded_field gridded_grids
              gridded_data (of_Z 2) gridded_field_wf eq_refl)
    as (result & Hrun & _ & Hne & _).
  exists result. split; [exact Hrun|]. split; [exact Hne|reflexivity].
Defined.

(** X5 on the example store: the frequency grid replaced by the (equal) grid behind pointer 2, and a temperature grid that the one-node grid of the field cannot reach, extrapolation or not. *)
Lemma interpolate_frequency_temperature_witness :
  (∃ result σ',
     FieldGridded.interpolate_frequency gridded_field 2%positive store
     = (Ok result, σ') ∧
     g_f_grid_ result = 2%positive ∧
     n_freqs_ (g_base result) = 1%nat) ∧
  FieldGridded.interpolate_temperature gridded_field 5%positive true store
  = (Err OutOfRange, store).
Proof.
  split.
  - destruct (interpolate_frequency_temperature store gridded_field
                (grid [1]%Z) (grid [1]%Z) (grid [0]%Z) (grid [0]%Z)
                (grid [0; 1]%Z) (grid [0; 1]%Z) gridded_data 2%positive
                (grid [1]%Z) false gridded_field_wf eq_refl eq_refl)
      as (_ & Hf & _).
    assert (is_Ok (RegularRegridder [0]%nat [grid [1]%Z] [grid [1]%Z] false
                     gridded_data) = true) as Hok by (vm_compute; reflexivity).
    destruct (RegularRegridder [0]%nat [grid [1]%Z] [grid [1]%Z] false
                gridded_data) as [t|e]; [|discriminate Hok].
    destruct Hf as (result & Hrun & _ & Hg & Hn & _).
    exists result. eexists. split; [exact Hrun|]. split; [|exact Hn].
    by injection Hg.
  - destruct (interpolate_frequency_temperature store gridded_field
                (grid [1]%Z) (grid [1]%Z) (grid [0]%Z) (grid [0]%Z)
                (grid [0; 1]%Z) (grid [0; 1]%Z) gridded_data 5%positive
                (grid [0; 1]%Z) true gridded_field_wf eq_refl eq_refl)
      as (_ & _ & Ht).
    assert (RegularRegridder [1]%nat [grid [1]%Z] [grid [0; 1]%Z] true
              gridded_data = Err OutOfRange) as Herr
      by (vm_compute; reflexivity).
    rewrite Herr in Ht. exact Ht.
Defined.

(** X6 on the example store: on one-node scattering grids the azimuthally random field becomes a random one. *)
Lemma interpolate_angles_reclassifies_witness :
  ∃ result σ',
    FieldGridded.interpolate_angles gridded_field 3%positive 4%positive
      3%positive 4%positive store = (Ok result, σ') ∧
    get_particle_type (g_base result) = Random ∧
    get_particle_type (g_base gridded_field) = AzimuthallyRandom.
Proof.
  pose proof (interpolate_angles_reclassifies store gridded_field
                (grid [1]%Z) (grid [1]%Z) (grid [0]%Z) (grid [0]%Z)
                (grid [0; 1]%Z) (grid [0; 1]%Z) gridded_data
                3%positive 4%positive 3%positive 4%positive
                (grid [0]%Z) (grid [0]%Z) (grid [0]%Z) (grid [0]%Z)
                gridded_field_wf ltac:(repeat constructor)) as Ha.
  assert (is_Ok (RegularRegridder [2; 3; 4; 5]%nat
                   [grid [0]%Z; grid [0]%Z; grid [0; 1]%Z; grid [0; 1]%Z]
                   [grid [0]%Z; grid [0]%Z; grid [0]%Z; grid [0]%Z] false
                   gridded_data) = true) as Hok by (vm_compute; reflexivity).
  destruct (RegularRegridder [2; 3; 4; 5]%nat
              [grid [0]%Z; grid [0]%Z; grid [0; 1]%Z; grid [0; 1]%Z]
              [grid [0]%Z; grid [0]%Z; grid [0]%Z; grid [0]%Z] false
              gridded_data) as [t|e]; [|discriminate Hok].
  destruct Ha as (result & Hrun & _ & Ht).
  exists result. eexists. split; [exact Hrun|]. split; [exact Ht|reflexivity].
Defined.

(** X7 on the example store, with the field as its own second holder. *)
Lemma set_number_detaches_from_copies_witness :
  (∃ σ1,
     FieldGridded.mul_assign gridded_field (of_Z 2) store
     = (Ok gridded_field, σ1) ∧
     FieldGridded.get_data gridded_field σ1
     = (Ok (tensor_map (λ x, of_Z 2 * x) gridded_data), σ1)) ∧
  (∃ self' σ2 data',
     FieldGridded.set_number_of_scattering_coeffs gridded_field 3 store
     = (Ok self', σ2) ∧
     FieldGridded.get_data gridded_field σ2 = (Ok gridded_data, σ2) ∧
     FieldGridded.get_data self' σ2 = (Ok data', σ2) ∧
     dimension data' 6 = 3%nat).
Proof.
  destruct (set_number_detaches_from_copies store gridded_field gridded_field
              gridded_data (of_Z 2) 3 eq_refl eq_refl eq_refl
              ltac:(vm_compute; lia))
    as [Hmul (self' & σ2 & data' & Hrun & _ & Hold & Hnew & Hd)].
  split; [exact Hmul|].
  exists self', σ2, data'. split; [exact Hrun|]. split; [exact Hold|].
  split; [exact Hnew|exact Hd].
Defined.

Lemma exact_unit_ratio (x y : Qc) :
  s_ne x s_zero = true → s_mul y (s_div x x) = y.
Proof.
  change (neb x 0 = true → y * (x / x) = y). unfold neb. intros Hne.
  assert (x ≠ 0) as Hx.
  { intros ->. unfold Qc_eq_bool in Hne.
    by destruct (Qc_eq_dec 0 0). }
  by field.
Qed.

Lemma exact_ratio_of_product (r k v : Qc) :
  s_ne (s_mul r k) s_zero = true →
  s_mul (s_mul r (s_div v (s_mul r k))) k = v.
Proof.
  change (neb (r * k) 0 = true → r * (v / (r * k)) * k = v).
  unfold neb. intros Hne.
  assert (r * k ≠ 0) as Hrk.
  { intros Heq. rewrite Heq in Hne. unfold Qc_eq_bool in Hne.
    by destruct (Qc_eq_dec 0 0). }
  assert (r ≠ 0) as Hr by (intros ->; apply Hrk; ring).
  assert (k ≠ 0) as Hk by (intros ->; apply Hrk; ring).
  by field.
Qed.

Lemma exact_mul_assoc (c r k : Qc) :
  s_mul (s_mul c r) k = s_mul c (s_mul r k).
Proof. symmetry. apply Qcmult_assoc. Qed.

Lemma gridded_field_wf_two :
  gridded_wf two_frequency_store gridded_field gridded_grids gridded_data.
Proof. split; [repeat constructor|reflexivity..]. Qed.

Lemma target_field_wf :
  gridded_wf two_frequency_store target_field target_grids target_data.
Proof. split; [repeat constructor|reflexivity..]. Qed.

Lemma gridded_regridded_all_run :
  RegularRegridder [0; 1; 2; 3; 4; 5]%nat gridded_grids
    [grid [1]%Z; grid [1]%Z; grid [0]%Z; grid [0]%Z; grid [0; 1]%Z;
     grid [0; 1]%Z] false gridded_data
  = Ok gridded_regridded_all.
Proof.
  unfold gridded_regridded_all.
  change (RegularRegridder [0; 1; 2; 3; 4; 5]%nat gridded_grids
            [grid [1]%Z; grid [1]%Z; grid [0]%Z; grid [0]%Z; grid [0; 1]%Z;
             grid [0; 1]%Z] false gridded_data)
    with (regrid_axes Qcplus Qcmult [0; 1; 2; 3; 4; 5]%nat gridded_grids
            gridded_grids false gridded_data).
  assert (is_Ok (regrid_axes Qcplus Qcmult [0; 1; 2; 3; 4; 5]%nat
                   gridded_grids gridded_grids false gridded_data) = true)
    as Hok by (vm_compute; reflexivity).
  by destruct (regrid_axes _ _ _ _ _ _ _).
Qed.

Lemma gridded_regridded_all_dimensions :
  dimensions gridded_regridded_all = dimensions gridded_data.
Proof. vm_compute. reflexivity. Qed.

(** X8 on the example store: the second element after [normalize(3)]. *)
Lemma normalize_scales_all_elements_witness :
  ∃ before σ' after,
    FieldGridded.integrate_scattering_angles gridded_field store
    = (Ok before, store) ∧
    FieldGridded.normalize gridded_field (of_Z 3) store = (Ok tt, σ') ∧
    FieldGridded.integrate_scattering_angles gridded_field σ'
    = (Ok after, σ') ∧
    coeff after [0; 0; 0; 0; 1]%nat
    = coeff before [0; 0; 0; 0; 1]%nat
      * (of_Z 3 / coeff before [0; 0; 0; 0; 0]%nat).
Proof.
  destruct (normalize_scales_all_elements store gridded_field gridded_grids
              gridded_data (of_Z 3) integrate_angles_homogeneous
              gridded_field_wf)
    as (before & σ' & after & Hb & Hn & Ha & Hall).
  exists before, σ', after. split; [exact Hb|]. split; [exact Hn|].
  split; [exact Ha|].
  destruct (Hall 0 0 0 0 1)%nat as [Hnz _]; try (vm_compute; lia).
  apply Hnz.
  assert (before
          = match (FieldGridded.integrate_scattering_angles gridded_field
                     store).1 with
            | Ok t => t
            | Err _ => gridded_data
            end) as -> by (by rewrite Hb).
  vm_compute. reflexivity.
Defined.

(** X9 on the example store, for [normalize(3)]. *)
Lemma normalize_idempotent_witness :
  ∃ σ1 data1 σ2 data2,
    FieldGridded.normalize gridded_field (of_Z 3) store = (Ok tt, σ1) ∧
    tensors σ1 !! 1%positive = Some data1 ∧
    FieldGridded.normalize gridded_field (of_Z 3) σ1 = (Ok tt, σ2) ∧
    tensors σ2 !! 1%positive = Some data2 ∧
    coeff data2 [0; 0; 0; 0; 1; 1; 1]%nat
    = coeff data1 [0; 0; 0; 0; 1; 1; 1]%nat.
Proof.
  destruct (normalize_idempotent store gridded_field gridded_grids
              gridded_data (of_Z 3) integrate_angles_homogeneous
              exact_division_ops exact_unit_ratio eq_refl gridded_field_wf)
    as (σ1 & data1 & σ2 & data2 & H1 & L1 & H2 & L2 & Hall).
  exists σ1, data1, σ2, data2. split; [exact H1|]. split; [exact L1|].
  split; [exact H2|]. split; [exact L2|].
  apply Hall. repeat constructor.
Defined.

(** X10 on the example store, for [normalize(3)] of the spectral field. *)
Lemma spectral_normalize_reaches_value_witness :
  ∃ σ' after,
    FieldSpectral.normalize spectral_field (of_Z 3) store = (Ok tt, σ') ∧
    FieldSpectral.integrate_scattering_angles spectral_field σ'
    = (Ok after, σ') ∧
    coeff after [0; 0; 0; 0; 0]%nat = of_Z 3.
Proof.
  destruct (spectral_normalize_reaches_value store spectral_field
              spectral_data (of_Z 3) exact_ratio_of_product eq_refl eq_refl
              ltac:(vm_compute; lia) ltac:(vm_compute; lia))
    as (before & σ' & after & Hb & Hn & Ha & Hall).
  exists σ', after. split; [exact Hn|]. split; [exact Ha|].
  apply (Hall 0 0 0 0)%nat; try (vm_compute; lia).
  assert (before
          = match (FieldSpectral.integrate_scattering_angles spectral_field
                     store).1 with
            | Ok t => t
            | Err _ => Tensor_new 0 []
            end) as -> by (by rewrite Hb).
  vm_compute. reflexivity.
Defined.

(** X11 on the store of two frequencies: both frequencies of the target set from the gridded field of the example. *)
Lemma set_data_fills_slice_by_slice_witness :
  ∃ σ1 σ2 filled,
    FieldGridded.set_data target_field 0 0 gridded_field two_frequency_store
    = (Ok tt, σ1) ∧
    FieldGridded.set_data target_field 1 0 gridded_field σ1 = (Ok tt, σ2) ∧
    tensors σ2 !! 2%positive = Some filled ∧
    coeff filled [0; 0; 0; 0; 1; 1; 1]%nat
    = coeff gridded_regridded [0; 0; 0; 0; 1; 1; 1]%nat ∧
    coeff filled [1; 0; 0; 0; 1; 1; 1]%nat
    = coeff gridded_regridded [0; 0; 0; 0; 1; 1; 1]%nat.
Proof.
  destruct (set_data_fills_slice_by_slice two_frequency_store target_field
              target_grids target_data gridded_field gridded_grids
              gridded_data gridded_regridded gridded_field gridded_grids
              gridded_data gridded_regridded 0 0 1 0 target_field_wf
              gridded_field_wf_two gridded_field_wf_two ltac:(done)
              gridded_regridded_run gridded_regridded_dimensions
              gridded_regridded_run gridded_regridded_dimensions
              eq_refl eq_refl ltac:(vm_compute; lia) ltac:(vm_compute; lia)
              ltac:(vm_compute; lia) ltac:(vm_compute; lia) ltac:(done))
    as (σ1 & σ2 & filled & H1 & H2 & L & _ & Hfirst & Hsecond & _).
  exists σ1, σ2, filled. split; [exact H1|]. split; [exact H2|].
  split; [exact L|]. split; [apply Hfirst|apply Hsecond].
Defined.

(** X12 on the example store: the gridded field added to itself. *)
Lemma add_leaves_operands_witness :
  ∃ result,
    FieldGridded.add gridded_field gridded_field store
    = (Ok result,
       with_tensor store (g_data_ result)
         (mkTensor (dimensions gridded_data)
            (λ idx, coeff gridded_data idx + coeff gridded_regridded_all idx)))
    ∧ tensors store !! g_data_ result = None
    ∧ tensors store !! 1%positive = Some gridded_data.
Proof.
  destruct (add_leaves_operands store gridded_field gridded_field
              (grid [1]%Z) (grid [1]%Z) (grid [0]%Z) (grid [0]%Z)
              (grid [0; 1]%Z) (grid [0; 1]%Z) gridded_grids gridded_data
              gridded_data gridded_regridded_all gridded_field_wf eq_refl
              gridded_field_wf gridded_regridded_all_run
              gridded_regridded_all_dimensions)
    as (result & Hrun & Hfresh & _).
  exists result. split; [exact Hrun|]. split; [exact Hfresh|reflexivity].
Defined.

(** X13 on the example store: the spectral field doubled. *)
Lemma spectral_scaling_scales_integral_witness :
  ∃ before σ' after,
    FieldSpectral.integrate_scattering_angles spectral_field store
    = (Ok before, store) ∧
    FieldSpectral.mul_assign spectral_field (of_Z 2) store
    = (Ok spectral_field, σ') ∧
    FieldSpectral.integrate_scattering_angles spectral_field σ'
    = (Ok after, σ') ∧
    coeff after [0; 0; 0; 0; 0]%nat
    = of_Z 2 * coeff before [0; 0; 0; 0; 0]%nat.
Proof.
  destruct (spectral_scaling_scales_integral store spectral_field
              spectral_data (of_Z 2)
              (exact_mul_assoc (of_Z 2)) eq_refl)
    as (before & σ' & after & Hb & Hm & Ha & _ & Hall).
  exists before, σ', after. split; [exact Hb|]. split; [exact Hm|].
  split; [exact Ha|apply Hall].
Defined.
Lemma spectral_regridded_angles_run :
  RegularRegridder_cmplx [2; 3]%nat [grid [0]%Z; grid [0]%Z]
    [grid [0]%Z; grid [0]%Z] false spectral_data
  = Ok spectral_regridded_angles.
Proof.
  unfold spectral_regridded_angles.
  change (RegularRegridder_cmplx [2; 3]%nat [grid [0]%Z; grid [0]%Z]
            [grid [0]%Z; grid [0]%Z] false spectral_data)
    with (regrid_axes c_add c_scale_l [2; 3]%nat (drop 2 spectral_grids)
            (drop 2 spectral_grids) false spectral_data).
  assert (is_Ok (regrid_axes c_add c_scale_l [2; 3]%nat
                   (drop 2 spectral_grids) (drop 2 spectral_grids) false
                   spectral_data) = true) as Hok by (vm_compute; reflexivity).
  by destruct (regrid_axes _ _ _ _ _ _ _).
Qed.

(** X14 on the example store: the spectral field set from itself holds
    twice its first coefficient. *)
Lemma spectral_set_data_accumulates_witness :
  ∃ data',
    FieldSpectral.set_data spectral_field 0 0 spectral_field store
    = (Ok tt,
       mkStore (vectors store) (shts store) (tensors store)
         (<[1%positive := data']> (cmplx_tensors store))) ∧
    coeff data' [0; 0; 0; 0; 0; 0]%nat
    = c_add (coeff spectral_data [0; 0; 0; 0; 0; 0]%nat)
        (coeff spectral_data [0; 0; 0; 0; 0; 0]%nat).
Proof.
  destruct (spectral_set_data_accumulates store spectral_field spectral_field
              spectral_data spectral_data spectral_regridded_angles
              (mkSHT 1 1 4 4) (mkSHT 1 1 4 4) (grid [0]%Z) (grid [0]%Z)
              (grid [0]%Z) (grid [0]%Z) 1 1 3 1 0 0
              ltac:(repeat constructor) ltac:(repeat constructor)
              eq_refl eq_refl eq_refl eq_refl eq_refl
              spectral_regridded_angles_run ltac:(lia) ltac:(lia))
    as (data' & Hrun & _ & Hsum & _).
  exists data'. split; [exact Hrun|].
  rewrite (Hsum 0 0 0 0 (0, 0) 0)%nat;
    [|vm_compute; lia|vm_compute; lia|lia|lia|reflexivity|reflexivity
     |vm_compute; lia].
  f_equal.
Defined.
End ExtraWitnesses.
